(** * hls.js: level controller, audio stream controller and AAC demuxer

    A shallow embedding of four pieces of the streaming engine:
    - [LevelController]       (the Level Controller, unnamed/part_000)
    - [AudioStreamController] (src/controller/audio-stream-controller.ts),
      with its parsing, appending and track switching handlers in
      [AudioStreamBuffering]
    - [AACDemuxer]            (src/demux/aacdemuxer.ts)
    - [TimelineController]    (the cue ranges and the CEA-608 bytes of the
      Timeline Controller of src/controller/audio-stream-controller.ts)

    JavaScript numbers that the code uses as counters, indices and sequence
    numbers are integers ([Z]); durations and media positions are rationals
    ([Q]).  A handler that would raise a [TypeError] (a property read on
    [undefined]) returns [None].  Events passed to [hls.trigger] are appended
    to a trace kept in the controller state. *)

From Stdlib Require Import ZArith QArith Qround Qminmax Qpower Lia List String Ascii Bool.
From Stdlib Require Import Sorted.
From stdpp Require Import base option list gmap strings.

Local Open Scope string_scope.
Local Open Scope list_scope.
Local Open Scope Z_scope.

(** ** Shared data: fragments, errors, media element *)

(** [frag.sn] is a sequence number, or the literal ['initSegment']. *)
Inductive SN :=
| SNnum (n : Z)
| SNinit.

(** A fragment of a playlist ([Fragment], loader/fragment), as far as the
    controllers read it. *)
Record Fragment := mkFragment {
  frag_type : string;        (* 'main' | 'audio' | 'subtitle' *)
  frag_level : Z;
  frag_sn : SN;
  frag_cc : Z;
  frag_encrypted : bool;
  frag_start : Q;
  frag_duration : Q
}.

(** [ErrorTypes] and [ErrorDetails] (errors): the values the handlers
    distinguish; [OTHER_DETAIL] stands for every other detail. *)
Inductive ErrorType :=
| NETWORK_ERROR
| MEDIA_ERROR
| MUX_ERROR
| OTHER_ERROR.

Inductive ErrorDetail :=
| FRAG_LOAD_ERROR
| FRAG_LOAD_TIMEOUT
| FRAG_LOOP_LOADING_ERROR
| KEY_LOAD_ERROR
| KEY_LOAD_TIMEOUT
| LEVEL_LOAD_ERROR
| LEVEL_LOAD_TIMEOUT
| AUDIO_TRACK_LOAD_ERROR
| AUDIO_TRACK_LOAD_TIMEOUT
| REMUX_ALLOC_ERROR
| BUFFER_FULL_ERROR
| LEVEL_SWITCH_ERROR
| MANIFEST_INCOMPATIBLE_CODECS_ERROR
| OTHER_DETAIL.

(** The payload of an [Event.ERROR].  Handlers mutate [fatal] and
    [levelRetry] in place, so they return the payload with the state. *)
Record ErrorData := mkErrorData {
  err_type : ErrorType;
  err_details : ErrorDetail;
  err_fatal : bool;
  err_frag : option Fragment;
  err_context_level : option Z;   (* data.context.level; None: no context *)
  err_level : option Z;           (* data.level *)
  err_parent : option string;     (* data.parent *)
  err_levelRetry : bool
}.

Definition set_err_fatal (b : bool) (d : ErrorData) : ErrorData :=
  mkErrorData (err_type d) (err_details d) b (err_frag d)
    (err_context_level d) (err_level d) (err_parent d) (err_levelRetry d).

Definition set_err_levelRetry (b : bool) (d : ErrorData) : ErrorData :=
  mkErrorData (err_type d) (err_details d) (err_fatal d) (err_frag d)
    (err_context_level d) (err_level d) (err_parent d) b.

(** A media element or a source buffer, as far as the controllers read it:
    the playback position and the buffered time ranges. *)
Record Media := mkMedia {
  currentTime : Q;
  seeking : bool;
  buffered : list (Q * Q)
}.

(** What the controllers take from their surroundings.  [BufferHelper]
    (utils/buffer-helper), [isCodecSupportedInMp4] (utils/codecs) and the
    browser's user agent are not part of the modelled files; the handlers
    are stated over any implementation of them. *)
Class Env := {
  isBuffered : Media -> Q -> bool;
  isCodecSupportedInMp4 : string -> option string -> bool;
  chromeOrFirefox : bool
}.

(** An environment for the examples: a position is buffered when it lies
    in one of the buffered ranges, every codec is supported, and the
    browser is neither Chrome nor Firefox. *)
Definition in_ranges (m : Media) (pos : Q) : bool :=
  existsb (fun r => Qle_bool (fst r) pos && Qle_bool pos (snd r)) (buffered m).

Definition example_env : Env :=
  {| isBuffered := in_ranges;
     isCodecSupportedInMp4 := fun _ _ => true;
     chromeOrFirefox := false |}.

(** [a[i]] on a JavaScript array with an integer index. *)
Definition js_nth {A} (l : list A) (i : Z) : option A :=
  if i <? 0 then None else l !! Z.to_nat i.

(** [a[i] = x] for an index inside the array. *)
Definition js_set {A} (l : list A) (i : Z) (x : A) : list A :=
  if i <? 0 then l else <[Z.to_nat i := x]> l.

(** [Math.round]: the nearest integer, halves rounded up. *)
Definition Math_round (x : Q) : Z := Qfloor (x + (1 # 2))%Q.

(** A string is truthy unless it is empty; an absent one is falsy. *)
Definition truthy_str (s : option string) : bool :=
  match s with
  | Some s => negb (String.eqb s "")
  | None => false
  end.

(** An object is truthy; [undefined] and [null] are falsy. *)
Definition defined {A} (o : option A) : bool :=
  match o with
  | Some _ => true
  | None => false
  end.

(** A number is truthy unless it is zero; an absent one is falsy. *)
Definition truthy_num (q : option Q) : bool :=
  match q with
  | Some q => negb (Qeq_bool q 0)
  | None => false
  end.

(** ** Level controller (unnamed/part_000) *)

Module LevelController.

(** The parsed playlist of a level, as far as the controller reads it. *)
Record LevelDetails := mkDetails {
  live : bool;
  endSN : Z;
  targetduration : Q;
  averagetargetduration : option Q
}.

(** A level of the manifest, with the fields the controller adds. *)
Record Level := mkLevel {
  bitrate : Z;
  url : list string;            (* the redundant URLs *)
  urlId : Z;
  details : option LevelDetails;
  loadError : Z;
  fragmentError : bool;
  audioCodec : option string;
  videoCodec : option string;
  lvl_level : option Z          (* level.level, set on a switch *)
}.

Definition set_url (u : list string) (l : Level) : Level :=
  mkLevel (bitrate l) u (urlId l) (details l) (loadError l) (fragmentError l)
    (audioCodec l) (videoCodec l) (lvl_level l).

Definition set_urlId (i : Z) (l : Level) : Level :=
  mkLevel (bitrate l) (url l) i (details l) (loadError l) (fragmentError l)
    (audioCodec l) (videoCodec l) (lvl_level l).

Definition set_details (d : option LevelDetails) (l : Level) : Level :=
  mkLevel (bitrate l) (url l) (urlId l) d (loadError l) (fragmentError l)
    (audioCodec l) (videoCodec l) (lvl_level l).

Definition set_loadError (n : Z) (l : Level) : Level :=
  mkLevel (bitrate l) (url l) (urlId l) (details l) n (fragmentError l)
    (audioCodec l) (videoCodec l) (lvl_level l).

Definition set_fragmentError (b : bool) (l : Level) : Level :=
  mkLevel (bitrate l) (url l) (urlId l) (details l) (loadError l) b
    (audioCodec l) (videoCodec l) (lvl_level l).

Definition set_lvl_level (i : Z) (l : Level) : Level :=
  mkLevel (bitrate l) (url l) (urlId l) (details l) (loadError l)
    (fragmentError l) (audioCodec l) (videoCodec l) (Some i).

(** A level as the playlist provider delivers it in MANIFEST_LOADED. *)
Record ManifestLevel := mkManifestLevel {
  m_bitrate : Z;
  m_url : string;
  m_audioCodec : option string;
  m_videoCodec : option string;
  m_attrs_AUDIO : option string    (* level.attrs && level.attrs.AUDIO *)
}.

Record AudioTrack := mkAudioTrack {
  track_audioCodec : option string
}.

Record ManifestData := mkManifestData {
  m_levels : list ManifestLevel;
  m_audioTracks : option (list AudioTrack)
}.

(** The payload of LEVEL_LOADED. *)
Record LevelLoadedData := mkLevelLoadedData {
  ll_level : Z;
  ll_details : LevelDetails;
  ll_trequest : Q                  (* data.stats.trequest *)
}.

(** The events the controller triggers, with the payload fields that
    matter here. *)
Inductive Event :=
| MANIFEST_PARSED (levels : list Level) (audioTracks : list AudioTrack)
    (firstLevel : option Z) (audio video altAudio : bool)
| ERROR (type : ErrorType) (dtl : ErrorDetail) (fatal : bool)
    (lvl : option Z) (reason : string)
| LEVEL_SWITCH (l : Level)
| LEVEL_SWITCHING (l : Level)
| LEVEL_LOADING (u : option string) (lvl : Z) (id : Z).

(** The controller's fields, with the parts of [hls] it reads and writes. *)
Record State := mkState {
  _levels : option (list Level);
  _level : option Z;
  _manualLevel : Z;
  _firstLevel : option Z;
  _startLevel : option Z;
  timer : option Z;                (* pending timeout, with its delay in ms *)
  canload : bool;
  media : option Media;            (* hls.media *)
  nextAutoLevel : option Z;        (* hls.nextAutoLevel, once assigned here *)
  levelLoadingRetryDelay : Z;      (* hls.config *)
  config_startLevel : option Z;    (* hls.config.startLevel *)
  events : list Event              (* hls.trigger, oldest first *)
}.

Definition set_levels (ls : option (list Level)) (s : State) : State :=
  mkState ls (_level s) (_manualLevel s) (_firstLevel s) (_startLevel s)
    (timer s) (canload s) (media s) (nextAutoLevel s)
    (levelLoadingRetryDelay s) (config_startLevel s) (events s).

Definition set__level (l : option Z) (s : State) : State :=
  mkState (_levels s) l (_manualLevel s) (_firstLevel s) (_startLevel s)
    (timer s) (canload s) (media s) (nextAutoLevel s)
    (levelLoadingRetryDelay s) (config_startLevel s) (events s).

Definition set__manualLevel (l : Z) (s : State) : State :=
  mkState (_levels s) (_level s) l (_firstLevel s) (_startLevel s)
    (timer s) (canload s) (media s) (nextAutoLevel s)
    (levelLoadingRetryDelay s) (config_startLevel s) (events s).

Definition set__firstLevel (l : option Z) (s : State) : State :=
  mkState (_levels s) (_level s) (_manualLevel s) l (_startLevel s)
    (timer s) (canload s) (media s) (nextAutoLevel s)
    (levelLoadingRetryDelay s) (config_startLevel s) (events s).

Definition set__startLevel (l : option Z) (s : State) : State :=
  mkState (_levels s) (_level s) (_manualLevel s) (_firstLevel s) l
    (timer s) (canload s) (media s) (nextAutoLevel s)
    (levelLoadingRetryDelay s) (config_startLevel s) (events s).

Definition set_timer (t : option Z) (s : State) : State :=
  mkState (_levels s) (_level s) (_manualLevel s) (_firstLevel s)
    (_startLevel s) t (canload s) (media s) (nextAutoLevel s)
    (levelLoadingRetryDelay s) (config_startLevel s) (events s).

Definition set_canload (b : bool) (s : State) : State :=
  mkState (_levels s) (_level s) (_manualLevel s) (_firstLevel s)
    (_startLevel s) (timer s) b (media s) (nextAutoLevel s)
    (levelLoadingRetryDelay s) (config_startLevel s) (events s).

Definition set_nextAutoLevel (l : Z) (s : State) : State :=
  mkState (_levels s) (_level s) (_manualLevel s) (_firstLevel s)
    (_startLevel s) (timer s) (canload s) (media s) (Some l)
    (levelLoadingRetryDelay s) (config_startLevel s) (events s).

(** [hls.trigger(event, data)] *)
Definition trigger (e : Event) (s : State) : State :=
  mkState (_levels s) (_level s) (_manualLevel s) (_firstLevel s)
    (_startLevel s) (timer s) (canload s) (media s) (nextAutoLevel s)
    (levelLoadingRetryDelay s) (config_startLevel s) (events s ++ [e]).

(** The controller after its constructor, for a given [hls]. *)
Definition init (m : option Media) (retryDelay : Z) (cfgStart : option Z) : State :=
  mkState None None (-1) None None None false m None retryDelay cfgStart [].

(** [cleanTimer()] *)
Definition cleanTimer (s : State) : State := set_timer None s.

(** [destroy()] *)
Definition destroy (s : State) : State :=
  set__manualLevel (-1) (cleanTimer s).

(** [tick()] *)
Definition tick (s : State) : option State :=
  match _level s with
  | Some levelId =>
      if canload s then
        ls ← _levels s;
        match js_nth ls levelId with
        | Some lv =>
            Some (trigger (LEVEL_LOADING (js_nth (url lv) (urlId lv)) levelId (urlId lv)) s)
        | None => Some s
        end
      else Some s
  | None => Some s
  end.

(** [startLoad()]: each level's load errors are reset and the details of
    a live level are dropped; a pending timer is run at once. *)
Definition startLoad_level (lv : Level) : Level :=
  let lv := set_loadError 0 lv in
  match details lv with
  | Some d => if live d then set_details None lv else lv
  | None => lv
  end.

Definition startLoad (s : State) : option State :=
  let s := set_canload true s in
  let s := match _levels s with
           | Some ls => set_levels (Some (map startLoad_level ls)) s
           | None => s
           end in
  match timer s with
  | Some _ => tick s
  | None => Some s
  end.

(** [stopLoad()] *)
Definition stopLoad (s : State) : State := set_canload false s.

(** [s.indexOf(sub) !== -1] *)
Definition includes (sub s : string) : bool :=
  match String.index 0 sub s with
  | Some _ => true
  | None => false
  end.

(** The audio codec kept for a level: erased on Chrome and Firefox when it
    is mp4a.40.34. *)
Definition kept_audioCodec `{Env} (c : option string) : option string :=
  if chromeOrFirefox && truthy_str c && includes "mp4a.40.34" (default "" c)
  then None else c.

(** The level object created for the first manifest entry of a bitrate. *)
Definition new_level `{Env} (m : ManifestLevel) : Level :=
  mkLevel (m_bitrate m) [m_url m] 0 None 0 false
    (kept_audioCodec (m_audioCodec m)) (m_videoCodec m) None.

(** [levelSet[bitrate].url.push(u)]: [levelSet] holds exactly the levels
    pushed so far, keyed by bitrate, and shares the level objects with
    [levels]; [None] when no level has that bitrate yet. *)
Fixpoint push_url (b : Z) (u : string) (ls : list Level) : option (list Level) :=
  match ls with
  | [] => None
  | l :: ls' =>
      if bitrate l =? b then Some (set_url (url l ++ [u]) l :: ls')
      else cons l <$> push_url b u ls'
  end.

(** The [forEach] over [data.levels] that regroups redundant levels. *)
Fixpoint regroup `{Env} (ms : list ManifestLevel) (acc : list Level) : list Level :=
  match ms with
  | [] => acc
  | m :: ms' =>
      regroup ms'
        (match push_url (m_bitrate m) (m_url m) acc with
         | Some acc' => acc'
         | None => acc ++ [new_level m]
         end)
  end.

(** Whether any level of the manifest signals a video codec, or an audio
    codec or audio group. *)
Definition videoCodecFound (ms : list ManifestLevel) : bool :=
  existsb (fun m => truthy_str (m_videoCodec m)) ms.

Definition audioCodecFound (ms : list ManifestLevel) : bool :=
  existsb (fun m => truthy_str (m_audioCodec m) || truthy_str (m_attrs_AUDIO m)) ms.

(** [!codec || isCodecSupportedInMp4(codec, kind)] *)
Definition codec_ok `{Env} (c : option string) (kind : option string) : bool :=
  negb (truthy_str c) || isCodecSupportedInMp4 (default "" c) kind.

(** [levels.sort((a, b) => a.bitrate - b.bitrate)] *)
Fixpoint insert_level (x : Level) (ls : list Level) : list Level :=
  match ls with
  | [] => [x]
  | y :: ls' =>
      if bitrate x <=? bitrate y then x :: ls else y :: insert_level x ls'
  end.

Definition sort_levels (ls : list Level) : list Level :=
  foldr insert_level [] ls.

(** Index of the first level with the given bitrate, counting from [i]. *)
Fixpoint find_bitrate (b : Z) (ls : list Level) (i : Z) : option Z :=
  match ls with
  | [] => None
  | l :: ls' => if bitrate l =? b then Some i else find_bitrate b ls' (i + 1)
  end.

(** The levels kept from a manifest, in manifest order: regrouped by
    bitrate, without the audio-only levels when both kinds of codec are
    signalled, without the levels whose codecs are not supported. *)
Definition manifest_levels `{Env} (data : ManifestData) : list Level :=
  let levels := regroup (m_levels data) [] in
  let levels :=
    if videoCodecFound (m_levels data) && audioCodecFound (m_levels data)
    then List.filter (fun l => truthy_str (videoCodec l)) levels
    else levels in
  List.filter (fun l => codec_ok (audioCodec l) None && codec_ok (videoCodec l) None)
    levels.

Definition manifest_audioTracks `{Env} (data : ManifestData) : list AudioTrack :=
  match m_audioTracks data with
  | Some ts => List.filter (fun t => codec_ok (track_audioCodec t) (Some "audio")) ts
  | None => []
  end.

(** [onManifestLoaded(data)] *)
Definition onManifestLoaded `{Env} (data : ManifestData) (s : State) : State :=
  let audioTracks := manifest_audioTracks data in
  match manifest_levels data with
  | first :: _ =>
      let bitrateStart := bitrate first in
      let levels := sort_levels (manifest_levels data) in
      let s := set_levels (Some levels) s in
      let s := match find_bitrate bitrateStart levels 0 with
               | Some i => set__firstLevel (Some i) s
               | None => s
               end in
      trigger (MANIFEST_PARSED levels audioTracks (_firstLevel s)
                 (audioCodecFound (m_levels data)) (videoCodecFound (m_levels data))
                 (0 <? Z.of_nat (length audioTracks))) s
  | [] =>
      trigger (ERROR MEDIA_ERROR MANIFEST_INCOMPATIBLE_CODECS_ERROR true None
                 "no level with compatible codecs found in manifest") s
  end.

(** [setLevelInternal(newLevel)]; [None] when [_levels] is undefined. *)
Definition setLevelInternal (newLevel : Z) (s : State) : option State :=
  levels ← _levels s;
  if (0 <=? newLevel) && (newLevel <? Z.of_nat (length levels)) then
    let s := cleanTimer s in
    let s :=
      if decide (_level s = Some newLevel) then s
      else
        let s := set__level (Some newLevel) s in
        match js_nth levels newLevel with
        | Some lp =>
            let lp := set_lvl_level newLevel lp in
            let s := set_levels (Some (js_set levels newLevel lp)) s in
            trigger (LEVEL_SWITCHING lp) (trigger (LEVEL_SWITCH lp) s)
        | None => s
        end in
    levels ← _levels s;
    lv ← js_nth levels newLevel;
    match details lv with
    | Some d =>
        if live d
        then Some (trigger (LEVEL_LOADING (js_nth (url lv) (urlId lv)) newLevel (urlId lv)) s)
        else Some s
    | None =>
        Some (trigger (LEVEL_LOADING (js_nth (url lv) (urlId lv)) newLevel (urlId lv)) s)
    end
  else
    Some (trigger (ERROR OTHER_ERROR LEVEL_SWITCH_ERROR false (Some newLevel)
                     "invalid level idx") s).

(** The [level] setter. *)
Definition set_level (newLevel : Z) (s : State) : option State :=
  match _levels s with
  | Some levels =>
      if newLevel <? Z.of_nat (length levels) then
        if decide (_level s = Some newLevel) then
          (* [levels[newLevel].details === undefined] is evaluated *)
          lv ← js_nth levels newLevel;
          match details lv with
          | None => setLevelInternal newLevel s
          | Some _ => Some s
          end
        else setLevelInternal newLevel s
      else Some s
  | None => Some s
  end.

(** The [manualLevel] setter. *)
Definition set_manualLevel (newLevel : Z) (s : State) : option State :=
  let s := set__manualLevel newLevel s in
  let s := match _startLevel s with
           | None => set__startLevel (Some newLevel) s
           | Some _ => s
           end in
  if newLevel =? -1 then Some s else set_level newLevel s.

(** The [startLevel] getter. *)
Definition get_startLevel (s : State) : option Z :=
  match _startLevel s with
  | None =>
      match config_startLevel s with
      | Some c => Some c
      | None => _firstLevel s
      end
  | Some l => Some l
  end.

(** The [nextLoadLevel] getter and setter. *)
Definition get_nextLoadLevel (s : State) : option Z :=
  if _manualLevel s =? -1 then nextAutoLevel s else Some (_manualLevel s).

Definition set_nextLoadLevel (nextLevel : Z) (s : State) : option State :=
  s ← set_level nextLevel s;
  Some (if _manualLevel s =? -1 then set_nextAutoLevel nextLevel s else s).

(** The level an error is charged to, with the [levelError] and
    [fragmentError] flags: the [switch] on [data.details].  The outer
    [None] is the [TypeError] of reading [data.frag.level] or
    [data.context.level] when the payload has no fragment or context. *)
Definition error_level (data : ErrorData) : option (option Z * bool * bool) :=
  match err_details data with
  | FRAG_LOAD_ERROR | FRAG_LOAD_TIMEOUT | FRAG_LOOP_LOADING_ERROR
  | KEY_LOAD_ERROR | KEY_LOAD_TIMEOUT =>
      f ← err_frag data; Some (Some (frag_level f), false, true)
  | LEVEL_LOAD_ERROR | LEVEL_LOAD_TIMEOUT =>
      l ← err_context_level data; Some (Some l, true, false)
  | REMUX_ALLOC_ERROR => Some (err_level data, false, false)
  | _ => Some (None, false, false)
  end.

(** The media is attached and buffered at the current position and half a
    second later. *)
Definition mediaBuffered `{Env} (m : option Media) : bool :=
  match m with
  | Some m => isBuffered m (currentTime m) && isBuffered m (currentTime m + (1 # 2))%Q
  | None => false
  end.

(** [onError(data)]: the new state with the payload as the handler left
    it. *)
Definition onError `{Env} (data : ErrorData) (s : State) : option (State * ErrorData) :=
  if err_fatal data then
    Some (match err_type data with
          | NETWORK_ERROR => cleanTimer s
          | _ => s
          end, data)
  else
    r ← error_level data;
    let levelError : bool := snd (fst (r : option Z * bool * bool)) in
    let fragmentError : bool := snd r in
    match fst (fst r) with
    | None => Some (s, data)
    | Some levelIndex =>
        levels ← _levels s;
        level ← js_nth levels levelIndex;
        let level := set_loadError (loadError level + 1) level in
        let level := set_fragmentError fragmentError level in
        let redundantLevels := Z.of_nat (length (url level)) in
        if (1 <? redundantLevels) && (loadError level <? redundantLevels) then
          let level := set_urlId (Z.rem (urlId level + 1) redundantLevels) level in
          let level := set_details None level in
          Some (set_levels (Some (js_set levels levelIndex level)) s, data)
        else
          let s := set_levels (Some (js_set levels levelIndex level)) s in
          if (_manualLevel s =? -1) && negb (levelIndex =? 0) then
            Some (set_nextAutoLevel (Z.max 0 (levelIndex - 1)) s, data)
          else if match details level with Some d => live d | None => false end then
            Some (if levelError then set__level None s else s, data)
          else if levelError then
            if mediaBuffered (media s) then
              Some (set_timer (Some (levelLoadingRetryDelay s)) s,
                    set_err_levelRetry true data)
            else
              Some (cleanTimer (set__level None s), set_err_fatal true data)
          else Some (s, data)
    end.

(** [onFragLoaded({frag})] *)
Definition onFragLoaded (frag : option Fragment) (s : State) : option State :=
  match frag with
  | Some frag =>
      if String.eqb (frag_type frag) "main" then
        levels ← _levels s;
        match js_nth levels (frag_level frag) with
        | Some level =>
            let level := set_fragmentError false level in
            let level := set_loadError 0 level in
            Some (set_levels (Some (js_set levels (frag_level frag) level)) s)
        | None => Some s
        end
      else Some s
  | None => Some s
  end.

(** The delay the reload timer is armed with, in ms. *)
Definition reloadInterval (newDetails : LevelDetails) (curDetails : option LevelDetails)
    (now trequest : Q) : Z :=
  let base :=
    (1000 * (if truthy_num (averagetargetduration newDetails)
             then default 0 (averagetargetduration newDetails)
             else targetduration newDetails))%Q in
  let halved :=
    match curDetails with
    | Some cur => if endSN newDetails =? endSN cur then (base / 2)%Q else base
    | None => base
    end in
  Z.max 1000 (Math_round (halved - (now - trequest))%Q).

(** [onLevelLoaded(data)], with the value of [performance.now()]. *)
Definition onLevelLoaded (data : LevelLoadedData) (now : Q) (s : State) : option State :=
  if decide (Some (ll_level data) = _level s) then
    levels ← _levels s;
    curLevel ← js_nth levels (ll_level data);
    let curLevel' :=
      if fragmentError curLevel then curLevel else set_loadError 0 curLevel in
    let s := set_levels (Some (js_set levels (ll_level data) curLevel')) s in
    let newDetails := ll_details data in
    if live newDetails then
      Some (set_timer
              (Some (reloadInterval newDetails (details curLevel') now (ll_trequest data))) s)
    else Some (cleanTimer s)
  else Some s.

(** [levels.filter((level, index) => index !== i)] *)
Fixpoint remove_index {A} (i : Z) (k : Z) (l : list A) : list A :=
  match l with
  | [] => []
  | x :: l' => if k =? i then remove_index i (k + 1) l' else x :: remove_index i (k + 1) l'
  end.

(** [onLevelRemoved(data)] *)
Definition onLevelRemoved (i : Z) (s : State) : option State :=
  levels ← _levels s;
  Some (set_levels (Some (remove_index i 0 levels)) s).

(** What happens to the controller: its event handlers, its public
    setters, a timer firing, and the stream controller storing the details
    of a loaded playlist in the level ([level.details = newDetails]). *)
Inductive Action :=
| ManifestLoaded (data : ManifestData)
| LevelLoaded (data : LevelLoadedData) (now : Q)
| FragLoaded (frag : option Fragment)
| Error (data : ErrorData)
| LevelRemoved (i : Z)
| SetLevel (newLevel : Z)
| SetManualLevel (newLevel : Z)
| SetNextLoadLevel (nextLevel : Z)
| SetFirstLevel (newLevel : Z)
| SetStartLevel (newLevel : Z)
| StartLoad
| StopLoad
| Tick
| Destroy
| DetailsStored (i : Z) (d : LevelDetails).

Definition store_details (i : Z) (d : LevelDetails) (s : State) : State :=
  match _levels s with
  | Some levels =>
      match js_nth levels i with
      | Some lv => set_levels (Some (js_set levels i (set_details (Some d) lv))) s
      | None => s
      end
  | None => s
  end.

Definition step `{Env} (a : Action) (s : State) : option State :=
  match a with
  | ManifestLoaded data => Some (onManifestLoaded data s)
  | LevelLoaded data now => onLevelLoaded data now s
  | FragLoaded frag => onFragLoaded frag s
  | Error data => fst <$> onError data s
  | LevelRemoved i => onLevelRemoved i s
  | SetLevel n => set_level n s
  | SetManualLevel n => set_manualLevel n s
  | SetNextLoadLevel n => set_nextLoadLevel n s
  | SetFirstLevel n => Some (set__firstLevel (Some n) s)
  | SetStartLevel n => Some (set__startLevel (Some n) s)
  | StartLoad => startLoad s
  | StopLoad => Some (stopLoad s)
  | Tick => tick s
  | Destroy => Some (destroy s)
  | DetailsStored i d => Some (store_details i d s)
  end.

(** The states the controller can be in: those a sequence of actions
    leads to from the constructor's. *)
Inductive reachable `{Env} : State -> Prop :=
| reachable_init m delay cfgStart : reachable (init m delay cfgStart)
| reachable_step a s s' : reachable s -> step a s = Some s' -> reachable s'.

(** [onError] applied to a run of errors, each payload as delivered. *)
Fixpoint onErrors `{Env} (ds : list ErrorData) (s : State) : option State :=
  match ds with
  | [] => Some s
  | d :: ds' => s' ← fst <$> onError d s; onErrors ds' s'
  end.

(** Every level of the list has its selected URL index inside its URLs. *)
Definition urlId_in_range (l : Level) : Prop :=
  0 <= urlId l < Z.of_nat (length (url l)).

Definition urlIds_ok (s : State) : Prop :=
  forall levels, _levels s = Some levels -> Forall urlId_in_range levels.

(** The actions of a list, in order; [None] as soon as one raises. *)
Fixpoint run `{Env} (acts : list Action) (s : State) : option State :=
  match acts with
  | [] => Some s
  | a :: acts' => s' ← step a s; run acts' s'
  end.

(** The level at an index of the controller's list. *)
Definition level_at (s : State) (i : Z) : option Level :=
  ls ← _levels s; js_nth ls i.

(** A non-fatal fragment, key or level load error charged to level [i]. *)
Definition is_load_error_of (i : Z) (d : ErrorData) : bool :=
  negb (err_fatal d)
  && match err_details d with
     | FRAG_LOAD_ERROR | FRAG_LOAD_TIMEOUT | FRAG_LOOP_LOADING_ERROR
     | KEY_LOAD_ERROR | KEY_LOAD_TIMEOUT =>
         match err_frag d with
         | Some f => frag_level f =? i
         | None => false
         end
     | LEVEL_LOAD_ERROR | LEVEL_LOAD_TIMEOUT =>
         match err_context_level d with
         | Some l => l =? i
         | None => false
         end
     | _ => false
     end.

(** The LEVEL_LOADING requests among some events: URL, level, URL id. *)
Definition level_loadings (es : list Event) : list (option string * Z * Z) :=
  omap (fun e => match e with
                 | LEVEL_LOADING u l i => Some (u, l, i)
                 | _ => None
                 end) es.

(** *** An example session: a low level with one URL and a high level
    with three redundant URLs *)

Definition example_manifest : ManifestData :=
  mkManifestData
    [mkManifestLevel 800000 "http://a/low.m3u8" (Some "mp4a.40.2") (Some "avc1.42e01e") None;
     mkManifestLevel 2000000 "http://a/high.m3u8" (Some "mp4a.40.2") (Some "avc1.4d401f") None;
     mkManifestLevel 2000000 "http://b/high.m3u8" (Some "mp4a.40.2") (Some "avc1.4d401f") None;
     mkManifestLevel 2000000 "http://c/high.m3u8" (Some "mp4a.40.2") (Some "avc1.4d401f") None]
    None.

Definition example_init : State := init None 1000 None.

(** The controller once the manifest is loaded. *)
Definition example_loaded : State :=
  @onManifestLoaded example_env example_manifest example_init.

Definition example_high : Level :=
  mkLevel 2000000 ["http://a/high.m3u8"; "http://b/high.m3u8"; "http://c/high.m3u8"]
    0 None 0 false (Some "mp4a.40.2") (Some "avc1.4d401f") None.

(** A non-fatal load error of a main fragment of level [lvl]. *)
Definition example_frag_error (lvl : Z) : ErrorData :=
  mkErrorData NETWORK_ERROR FRAG_LOAD_ERROR false
    (Some (mkFragment "main" lvl (SNnum 7) 0 false 0 10)) None None None false.

(** A live playlist: target duration 6 s, average 4 s. *)
Definition example_live_details (endSN : Z) : LevelDetails :=
  mkDetails true endSN 6 (Some 4%Q).

(** The high level selected, its live playlist loaded and stored. *)
Definition example_live_actions : list Action :=
  [ManifestLoaded example_manifest; SetLevel 1;
   LevelLoaded (mkLevelLoadedData 1 (example_live_details 10) 0) 0;
   DetailsStored 1 (example_live_details 10)].

(** The high level selected and its first playlist request answered. *)
Definition example_selected : State :=
  default example_init (@run example_env (take 3 example_live_actions) example_init).

(** The reload interval as the specification words it: target duration
    x 1000 ms, halved when the end sequence number is that of the previous
    playlist, less the request latency, at least 1000 ms. *)
Definition claimed_reloadInterval (newDetails : LevelDetails)
    (previous : option LevelDetails) (now trequest : Q) : Q :=
  let nominal := (targetduration newDetails * 1000)%Q in
  let interval :=
    match previous with
    | Some prev => if endSN newDetails =? endSN prev then (nominal / 2)%Q else nominal
    | None => nominal
    end in
  Qmax 1000 (interval - (now - trequest)).

(** A fragment of the main playlist. *)
Definition is_main (frag : option Fragment) : bool :=
  match frag with
  | Some f => String.eqb (frag_type f) "main"
  | None => false
  end.

(** The current level, when there is one, is not negative. *)
Definition level_nonneg (s : State) : Prop :=
  forall l, _level s = Some l -> 0 <= l.

(** How a level of the new list relates to one of the old list: every
    level of [o'] comes from a level of [o] by [R]. *)
Definition levels_rel (R : Level -> Level -> Prop) (o o' : option (list Level)) : Prop :=
  forall ls', o' = Some ls' ->
    exists ls, o = Some ls /\ forall l', l' ∈ ls' -> exists l, l ∈ ls /\ R l l'.

(** A level as the manifest load leaves it: its first URL selected. *)
Definition fresh (l : Level) : Prop :=
  urlId l = 0 /\ (0 < length (url l))%nat.

(** The level keeps its URLs and the selected one. *)
Definition keeps_urlId (l l' : Level) : Prop :=
  url l' = url l /\ urlId l' = urlId l.

(** The level keeps its URLs and selects the next one, cyclically. *)
Definition rotates_urlId (l l' : Level) : Prop :=
  url l' = url l
  /\ 1 < Z.of_nat (length (url l))
  /\ urlId l' = (urlId l + 1) mod Z.of_nat (length (url l)).

(** The step from [s] to [s'] keeps every level's URLs and selected URL,
    and a current level that is not negative. *)
Definition keeps (s s' : State) : Prop :=
  levels_rel keeps_urlId (_levels s) (_levels s')
  /\ (level_nonneg s -> level_nonneg s').

(** What an action may do to the selected URLs: a manifest load installs
    levels that select their first URL (or leaves the list alone), an
    error may rotate, every other action keeps them. *)
Definition urlId_mutation (a : Action) (s s' : State) : Prop :=
  match a with
  | ManifestLoaded _ =>
      _levels s' = _levels s
      \/ exists ls', _levels s' = Some ls'
           /\ Forall fresh ls'
  | Error _ =>
      levels_rel (fun l l' => keeps_urlId l l' \/ rotates_urlId l l')
        (_levels s) (_levels s')
  | _ => levels_rel keeps_urlId (_levels s) (_levels s')
  end.

(** The fields of a level that no handler writes once the manifest is
    loaded. *)
Definition static (l : Level) : Z * list string * option string * option string :=
  (bitrate l, url l, audioCodec l, videoCodec l).

(** The levels are in strictly increasing order of bitrate. *)
Definition bitrates_increasing (s : State) : Prop :=
  forall ls, _levels s = Some ls -> StronglySorted Z.lt (map bitrate ls).

(** Every level passes the codec check of the manifest load. *)
Definition supported `{Env} (l : Level) : Prop :=
  codec_ok (audioCodec l) None = true /\ codec_ok (videoCodec l) None = true.

Definition codecs_supported `{Env} (s : State) : Prop :=
  forall ls, _levels s = Some ls -> Forall supported ls.

(** The step from [s] to [s'] keeps the static fields of the levels, in
    order, but for levels it removes. *)
Definition statics_kept (s s' : State) : Prop :=
  forall ls', _levels s' = Some ls' ->
    exists ls, _levels s = Some ls /\ map static ls' `sublist_of` map static ls.

(** The URLs of the first level of bitrate [b] in a list. *)
Definition urls_of (b : Z) (ls : list Level) : list string :=
  match List.find (fun l => bitrate l =? b) ls with
  | Some l => url l
  | None => []
  end.

(** A playlist request names a URL. *)
Definition names_url (e : Event) : Prop :=
  match e with
  | LEVEL_LOADING u _ _ => u <> None
  | _ => True
  end.

(** The step from [s] to [s'] only adds events, each with property [P]. *)
Definition emits (P : Event -> Prop) (s s' : State) : Prop :=
  exists new, events s' = events s ++ new /\ Forall P new.

(** A non-fatal level load error or timeout. *)
Definition is_level_error (d : ErrorData) : bool :=
  negb (err_fatal d)
  && match err_details d with
     | LEVEL_LOAD_ERROR | LEVEL_LOAD_TIMEOUT => true
     | _ => false
     end.

(** The fields of the controller that a level switch leaves alone. *)
Definition settings (s : State) : Z * option Z * option Z * option Z * bool * option Z :=
  (_manualLevel s, _firstLevel s, _startLevel s, nextAutoLevel s, canload s,
   config_startLevel s).

(** A browser that plays H.264 and AAC only, and a manifest whose two
    levels are both HEVC. *)
Definition example_strict_env : Env :=
  {| isBuffered := in_ranges;
     isCodecSupportedInMp4 := fun c _ => String.prefix "avc1" c || String.prefix "mp4a" c;
     chromeOrFirefox := true |}.

Definition example_hevc_manifest : ManifestData :=
  mkManifestData
    [mkManifestLevel 800000 "http://a/low.m3u8" (Some "mp4a.40.2") (Some "hvc1.1.6.L93.B0") None;
     mkManifestLevel 2000000 "http://a/high.m3u8" (Some "mp4a.40.2") (Some "hvc1.1.6.L120.B0") None]
    None.

(** The high level of the example selected, its live playlist loaded and
    stored, the reload timer armed. *)
Definition example_live : State :=
  default example_init (@run example_env example_live_actions example_init).

(** A non-fatal load error of the playlist of level [lvl]. *)
Definition example_level_error (lvl : Z) : ErrorData :=
  mkErrorData NETWORK_ERROR LEVEL_LOAD_ERROR false None (Some lvl) None None false.

End LevelController.

(** ** Audio stream controller (src/controller/audio-stream-controller.ts) *)

Module AudioStreamController.

(** The states of a stream controller ([State], base-stream-controller). *)
Inductive StateT :=
| STOPPED
| STARTING
| IDLE
| PAUSED
| KEY_LOADING
| FRAG_LOADING
| FRAG_LOADING_WAITING_RETRY
| WAITING_TRACK
| PARSING
| PARSED
| BUFFER_FLUSHING
| ENDED
| ERROR
| WAITING_INIT_PTS.

(** A JavaScript number as [Number.isFinite] tells them apart. *)
Inductive JsNum :=
| Num (q : Q)
| PosInfinity
| NegInfinity
| NaN.

(** [Number.isFinite(x)], [x] possibly [undefined]. *)
Definition Number_isFinite (x : option JsNum) : bool :=
  match x with
  | Some (Num _) => true
  | _ => false
  end.

(** The playlist of an audio track, as far as [doTick] reads it. *)
Record InitSegment := mkInitSegment {
  init_frag : Fragment;          (* the init segment is a fragment itself *)
  init_data : bool               (* initSegment.data is set *)
}.

Record TrackDetails := mkTrackDetails {
  fragments : list Fragment;
  live : bool;
  PTSKnown : bool;
  startSN : Z;
  endSN : Z;
  initSegment : option InitSegment
}.

Record Track := mkTrack {
  details : option TrackDetails
}.

(** The fields of [hls.config] the controller reads. *)
Record Config := mkConfig {
  maxBufferLength : Q;
  maxMaxBufferLength : Q;
  maxBufferHole : Q;
  maxFragLookUpTolerance : Q;
  startFragPrefetch : bool;
  fragLoadingMaxRetry : Z;
  fragLoadingRetryDelay : Q;
  fragLoadingMaxRetryTimeout : Q
}.

Definition set_maxMaxBufferLength (x : Q) (c : Config) : Config :=
  mkConfig (maxBufferLength c) x (maxBufferHole c) (maxFragLookUpTolerance c)
    (startFragPrefetch c) (fragLoadingMaxRetry c) (fragLoadingRetryDelay c)
    (fragLoadingMaxRetryTimeout c).

(** [fragmentTracker.getState(frag)] *)
Inductive FragmentState :=
| NOT_LOADED
| APPENDING
| PARTIAL
| OK.

(** The result of [BufferHelper.bufferInfo]. *)
Record BufferInfo := mkBufferInfo {
  bi_len : Q;
  bi_start : Q;
  bi_end : Q;
  bi_nextStart : option Q
}.

(** An end offset: a number or [Number.POSITIVE_INFINITY]. *)
Inductive Offset :=
| Finite (q : Q)
| POSITIVE_INFINITY.

(** The events the modelled handlers trigger. *)
Inductive Event :=
| Ev_BUFFER_EOS (type : string)
| Ev_KEY_LOADING (frag : Fragment)
| Ev_FRAG_LOADING (frag : Fragment)
| Ev_BUFFER_FLUSHING (startOffset : Q) (endOffset : Offset) (type : string).

(** The controller's fields that the modelled handlers read or write. *)
Record State := mkState {
  state : StateT;
  levels : option (list Track);    (* the audio tracks *)
  trackId : Z;
  media : option Media;    (* the media element *)
  mediaBuffer : option Media;    (* the audio source buffer *)
  videoBuffer : option Media;
  loadedmetadata : bool;
  startFragRequested : bool;
  nextLoadPosition : option Q;    (* None: not a finite number *)
  fragPrevious : option Fragment;
  fragCurrent : option Fragment;
  audioSwitch : bool;
  initPTS : gmap Z JsNum;    (* this.initPTS[cc] *)
  videoTrackCC : Z;
  fragLoadError : Z;
  retryDate : Q;
  config : Config;    (* hls.config, shared and mutable *)
  events : list Event    (* hls.trigger, oldest first *)
}.

Definition set_state (x : StateT) (s : State) : State :=
  mkState x (levels s) (trackId s) (media s) (mediaBuffer s) (videoBuffer s)
    (loadedmetadata s) (startFragRequested s) (nextLoadPosition s)
    (fragPrevious s) (fragCurrent s) (audioSwitch s) (initPTS s)
    (videoTrackCC s) (fragLoadError s) (retryDate s) (config s) (events s).

Definition set_media (x : option Media) (s : State) : State :=
  mkState (state s) (levels s) (trackId s) x (mediaBuffer s) (videoBuffer s)
    (loadedmetadata s) (startFragRequested s) (nextLoadPosition s)
    (fragPrevious s) (fragCurrent s) (audioSwitch s) (initPTS s)
    (videoTrackCC s) (fragLoadError s) (retryDate s) (config s) (events s).

Definition set_nextLoadPosition (x : option Q) (s : State) : State :=
  mkState (state s) (levels s) (trackId s) (media s) (mediaBuffer s)
    (videoBuffer s) (loadedmetadata s) (startFragRequested s) x
    (fragPrevious s) (fragCurrent s) (audioSwitch s) (initPTS s)
    (videoTrackCC s) (fragLoadError s) (retryDate s) (config s) (events s).

Definition set_fragCurrent (x : option Fragment) (s : State) : State :=
  mkState (state s) (levels s) (trackId s) (media s) (mediaBuffer s)
    (videoBuffer s) (loadedmetadata s) (startFragRequested s)
    (nextLoadPosition s) (fragPrevious s) x (audioSwitch s) (initPTS s)
    (videoTrackCC s) (fragLoadError s) (retryDate s) (config s) (events s).

Definition set_startFragRequested (x : bool) (s : State) : State :=
  mkState (state s) (levels s) (trackId s) (media s) (mediaBuffer s)
    (videoBuffer s) (loadedmetadata s) x (nextLoadPosition s)
    (fragPrevious s) (fragCurrent s) (audioSwitch s) (initPTS s)
    (videoTrackCC s) (fragLoadError s) (retryDate s) (config s) (events s).

Definition set_loadedmetadata (x : bool) (s : State) : State :=
  mkState (state s) (levels s) (trackId s) (media s) (mediaBuffer s)
    (videoBuffer s) x (startFragRequested s) (nextLoadPosition s)
    (fragPrevious s) (fragCurrent s) (audioSwitch s) (initPTS s)
    (videoTrackCC s) (fragLoadError s) (retryDate s) (config s) (events s).

Definition set_initPTS (x : gmap Z JsNum) (s : State) : State :=
  mkState (state s) (levels s) (trackId s) (media s) (mediaBuffer s)
    (videoBuffer s) (loadedmetadata s) (startFragRequested s)
    (nextLoadPosition s) (fragPrevious s) (fragCurrent s) (audioSwitch s) x
    (videoTrackCC s) (fragLoadError s) (retryDate s) (config s) (events s).

Definition set_videoTrackCC (x : Z) (s : State) : State :=
  mkState (state s) (levels s) (trackId s) (media s) (mediaBuffer s)
    (videoBuffer s) (loadedmetadata s) (startFragRequested s)
    (nextLoadPosition s) (fragPrevious s) (fragCurrent s) (audioSwitch s)
    (initPTS s) x (fragLoadError s) (retryDate s) (config s) (events s).

Definition set_fragLoadError (x : Z) (s : State) : State :=
  mkState (state s) (levels s) (trackId s) (media s) (mediaBuffer s)
    (videoBuffer s) (loadedmetadata s) (startFragRequested s)
    (nextLoadPosition s) (fragPrevious s) (fragCurrent s) (audioSwitch s)
    (initPTS s) (videoTrackCC s) x (retryDate s) (config s) (events s).

Definition set_retryDate (x : Q) (s : State) : State :=
  mkState (state s) (levels s) (trackId s) (media s) (mediaBuffer s)
    (videoBuffer s) (loadedmetadata s) (startFragRequested s)
    (nextLoadPosition s) (fragPrevious s) (fragCurrent s) (audioSwitch s)
    (initPTS s) (videoTrackCC s) (fragLoadError s) x (config s) (events s).

Definition set_config (x : Config) (s : State) : State :=
  mkState (state s) (levels s) (trackId s) (media s) (mediaBuffer s)
    (videoBuffer s) (loadedmetadata s) (startFragRequested s)
    (nextLoadPosition s) (fragPrevious s) (fragCurrent s) (audioSwitch s)
    (initPTS s) (videoTrackCC s) (fragLoadError s) (retryDate s) x
    (events s).

Definition set_events (x : list Event) (s : State) : State :=
  mkState (state s) (levels s) (trackId s) (media s) (mediaBuffer s)
    (videoBuffer s) (loadedmetadata s) (startFragRequested s)
    (nextLoadPosition s) (fragPrevious s) (fragCurrent s) (audioSwitch s)
    (initPTS s) (videoTrackCC s) (fragLoadError s) (retryDate s) (config s)
    x.
(** [hls.trigger(event, data)] *)
Definition trigger (e : Event) (s : State) : State :=
  set_events (events s ++ [e]) s.

(** The collaborators of [doTick] that live in other files:
    [BufferHelper.bufferInfo], the base class's [_streamEnded], the
    fragment finders and the fragment tracker. *)
Class StreamEnv := {
  bufferInfo : option Media -> Q -> Q -> BufferInfo;
  _streamEnded : State -> BufferInfo -> TrackDetails -> bool;
  findFragWithCC : list Fragment -> Z -> option Fragment;
  findFragmentByPTS : option Fragment -> list Fragment -> Q -> Q -> option Fragment;
  getState : Fragment -> FragmentState
}.

(** [x < y] on numbers, and [===] on sequence numbers. *)
Definition Qltb (x y : Q) : bool := negb (Qle_bool y x).

Definition SN_eqb (a b : SN) : bool :=
  match a, b with
  | SNnum n, SNnum m => n =? m
  | SNinit, SNinit => true
  | _, _ => false
  end.

(** [media.currentTime = t] on the media element; [None] without one. *)
Definition seek (t : Q) (s : State) : option State :=
  m ← media s;
  Some (set_media (Some (mkMedia t (seeking m) (buffered m))) s).

(** Modelled from the spec: [_loadInitSegment] and [_loadFragForPlayback]
    belong to the base stream controller, which is not among the modelled
    files; "on dispatching a load, transitions to FRAG_LOADING". *)
Definition _loadFragForPlayback (frag : Fragment) (s : State) : State :=
  trigger (Ev_FRAG_LOADING frag) (set_state FRAG_LOADING s).

(** Modelled from the spec: [_loadInitSegment], of the base stream
    controller like [_loadFragForPlayback]; it dispatches the load of the
    init segment. *)
Definition _loadInitSegment (frag : Fragment) (s : State) : State :=
  trigger (Ev_FRAG_LOADING frag) (set_state FRAG_LOADING s).

(** The end of the IDLE case of [doTick], once a fragment is chosen: load
    its key, load it, or wait for the video track's init PTS. *)
Definition loadFragment `{StreamEnv} (frag : Fragment) (trackDetails : TrackDetails)
    (audioSwitch : bool) (s : State) : State :=
  if frag_encrypted frag then
    trigger (Ev_KEY_LOADING frag) (set_state KEY_LOADING s)
  else
    let fragState := getState frag in
    let s := set_fragCurrent (Some frag) s in
    let s := set_startFragRequested true s in
    let prevPos := nextLoadPosition s in
    let s := match frag_sn frag with
             | SNnum _ => set_nextLoadPosition (Some (frag_start frag + frag_duration frag)%Q) s
             | SNinit => s
             end in
    if audioSwitch || match fragState with NOT_LOADED => true | _ => false end then
      match frag_sn frag with
      | SNinit => _loadInitSegment frag s
      | SNnum _ =>
          if defined (initSegment trackDetails)
             || Number_isFinite (initPTS s !! frag_cc frag)
          then _loadFragForPlayback frag s
          else set_nextLoadPosition prevPos (set_state WAITING_INIT_PTS s)
      end
    else s.

(** How far the choice of the next fragment got: the tick is over
    ([Done], a [return] or [break]), or it goes on with a buffer end or a
    candidate fragment. *)
Inductive Flow (A : Type) :=
| Done (s : State)
| Go (a : A) (s : State).
Arguments Done {A} s.
Arguments Go {A} a s.

(** The buffer end to search from: the [if (audioSwitch)] block. *)
Definition switch_bufferEnd (audioSwitch : bool) (trackDetails : TrackDetails)
    (info : BufferInfo) (pos start : Q) (s : State) : option (Flow Q) :=
  if audioSwitch then
    if live trackDetails && negb (PTSKnown trackDetails) then Some (Go 0%Q s)
    else if PTSKnown trackDetails && Qltb pos start then
      if Qltb start (bi_end info) || truthy_num (bi_nextStart info) then
        s ← seek (start + (5 # 100))%Q s; Some (Go pos s)
      else Some (Done s)
    else Some (Go pos s)
  else Some (Go (bi_end info) s).

(** The candidate fragment for a buffer end: the init segment if its data
    is missing, the first fragment before the playlist starts, else the
    fragment found by PTS, stepped past the one just loaded. *)
Definition chooseFragment `{StreamEnv} (trackDetails : TrackDetails) (info : BufferInfo)
    (bufferEnd start end_ : Q) (s : State) : option (Flow (option Fragment)) :=
  let frags := fragments trackDetails in
  if match initSegment trackDetails with
     | Some i => negb (init_data i)
     | None => false
     end
  then Some (Go (init_frag <$> initSegment trackDetails) s)
  else if Qltb bufferEnd start then
    frag ← head frags;
    let frag :=
      if (-1 <? videoTrackCC s) && negb (frag_cc frag =? videoTrackCC s)
      then findFragWithCC frags (videoTrackCC s) else Some frag in
    if live trackDetails then
      let nextBuffered :=
        if truthy_num (bi_nextStart info) then default 0%Q (bi_nextStart info)
        else start in
      s ← seek (nextBuffered + (5 # 100))%Q s; Some (Done s)
    else Some (Go frag s)
  else
    let tol := maxFragLookUpTolerance (config s) in
    let foundFrag :=
      if Qltb bufferEnd end_ then
        let tol := if Qltb (end_ - tol)%Q bufferEnd then 0%Q else tol in
        findFragmentByPTS (fragPrevious s) frags bufferEnd tol
      else last frags in
    match foundFrag with
    | Some frag =>
        match fragPrevious s with
        | Some prev =>
            if (frag_level frag =? frag_level prev)
               && SN_eqb (frag_sn frag) (frag_sn prev) then
              match frag_sn frag with
              | SNnum n =>
                  if n <? endSN trackDetails then
                    next ← js_nth frags (n + 1 - startSN trackDetails);
                    Some (Go (Some next) s)
                  else Some (Go None s)
              | SNinit => Some (Go None s)
              end
            else Some (Go (Some frag) s)
        | None => Some (Go (Some frag) s)
        end
    | None => Some (Go None s)
    end.

(** The IDLE case of [doTick]. *)
Definition doTick_IDLE `{StreamEnv} (s : State) : option State :=
  match levels s with
  | None => Some s
  | Some lvls =>
      if negb (defined (media s))
         && (startFragRequested s || negb (startFragPrefetch (config s)))
      then Some s
      else
        pos ← (if loadedmetadata s
               then m ← media s; Some (Some (currentTime m))
               else Some (nextLoadPosition s));
        match pos, js_nth lvls (trackId s) with
        | None, _ | _, None => Some s
        | Some pos, Some levelInfo =>
            let audioBuffer := if defined (mediaBuffer s) then mediaBuffer s else media s in
            let mainBuffer := if defined (videoBuffer s) then videoBuffer s else media s in
            let info := bufferInfo audioBuffer pos (maxBufferHole (config s)) in
            let mainBufferInfo := bufferInfo mainBuffer pos (maxBufferHole (config s)) in
            let maxConfigBuffer :=
              Qmin (maxBufferLength (config s)) (maxMaxBufferLength (config s)) in
            let maxBufLen := Qmax maxConfigBuffer (bi_len mainBufferInfo) in
            let audioSwitch := audioSwitch s in
            if Qltb (bi_len info) maxBufLen || audioSwitch then
              match details levelInfo with
              | None => Some (set_state WAITING_TRACK s)
              | Some trackDetails =>
                  if negb audioSwitch && _streamEnded s info trackDetails then
                    Some (set_state ENDED (trigger (Ev_BUFFER_EOS "audio") s))
                  else
                    lastFrag ← last (fragments trackDetails);
                    firstFrag ← head (fragments trackDetails);
                    let end_ := (frag_start lastFrag + frag_duration lastFrag)%Q in
                    let start := frag_start firstFrag in
                    r ← switch_bufferEnd audioSwitch trackDetails info pos start s;
                    match r with
                    | Done s => Some s
                    | Go bufferEnd s =>
                        r ← chooseFragment trackDetails info bufferEnd start end_ s;
                        match r with
                        | Done s | Go None s => Some s
                        | Go (Some frag) s =>
                            Some (loadFragment frag trackDetails audioSwitch s)
                        end
                    end
              end
            else Some s
        end
  end.

(** [doTick()], with the value of [performance.now()]. *)
Definition doTick `{StreamEnv} (now : Q) (s : State) : option State :=
  match state s with
  | ERROR | PAUSED | BUFFER_FLUSHING => Some s
  | STARTING => Some (set_loadedmetadata false (set_state WAITING_TRACK s))
  | IDLE => doTick_IDLE s
  | WAITING_TRACK =>
      match levels s with
      | Some lvls =>
          match js_nth lvls (trackId s) with
          | Some t =>
              if defined (details t) then Some (set_state WAITING_INIT_PTS s)
              else Some s
          | None => Some s
          end
      | None => Some s
      end
  | FRAG_LOADING_WAITING_RETRY =>
      let isSeeking := match media s with Some m => seeking m | None => false end in
      if Qeq_bool (retryDate s) 0 || Qle_bool (retryDate s) now || isSeeking
      then Some (set_state IDLE s)
      else Some s
  | WAITING_INIT_PTS =>
      if Number_isFinite (initPTS s !! videoTrackCC s)
      then Some (set_state IDLE s)
      else Some s
  | STOPPED | FRAG_LOADING | KEY_LOADING | PARSING | PARSED | ENDED => Some s
  end.

(** Modelled from the spec: [tick] belongs to the task loop, which is not
    among the modelled files; an "immediate tick" runs [doTick] at once. *)
Definition tick `{StreamEnv} (now : Q) (s : State) : option State := doTick now s.

(** [onInitPtsFound({ frag, initPTS })] *)
Definition onInitPtsFound `{StreamEnv} (frag : Fragment) (pts : JsNum) (now : Q)
    (s : State) : option State :=
  let cc := frag_cc frag in
  let s := set_initPTS (<[cc := pts]> (initPTS s)) s in
  let s := set_videoTrackCC cc s in
  match state s with
  | WAITING_INIT_PTS => tick now s
  | _ => Some s
  end.

(** [onKeyLoaded()] *)
Definition onKeyLoaded `{StreamEnv} (now : Q) (s : State) : option State :=
  match state s with
  | KEY_LOADING => tick now (set_state IDLE s)
  | _ => Some s
  end.

(** The backoff delay of the [loadError]-th failed load, in ms. *)
Definition retryDelay (c : Config) (loadError : Z) : Q :=
  Qmin (Qpower 2 (loadError - 1) * fragLoadingRetryDelay c)
       (fragLoadingMaxRetryTimeout c).

(** [frag && frag.type !== 'audio'] *)
Definition not_audio (frag : option Fragment) : bool :=
  match frag with
  | Some f => negb (String.eqb (frag_type f) "audio")
  | None => false
  end.

(** [onError(data)], with the value of [performance.now()]. *)
Definition onError `{Env} (data : ErrorData) (now : Q) (s : State)
    : option (State * ErrorData) :=
  if not_audio (err_frag data) then Some (s, data) else
  match err_details data with
  | FRAG_LOAD_ERROR | FRAG_LOAD_TIMEOUT =>
      if err_fatal data then Some (s, data) else
      let loadError := if fragLoadError s =? 0 then 1 else fragLoadError s + 1 in
      if loadError <=? fragLoadingMaxRetry (config s) then
        let s := set_fragLoadError loadError s in
        let delay := retryDelay (config s) loadError in
        let s := set_retryDate (now + delay)%Q s in
        Some (set_state FRAG_LOADING_WAITING_RETRY s, data)
      else
        Some (set_state ERROR s, set_err_fatal true data)
  | AUDIO_TRACK_LOAD_ERROR | AUDIO_TRACK_LOAD_TIMEOUT
  | KEY_LOAD_ERROR | KEY_LOAD_TIMEOUT =>
      match state s with
      | ERROR => Some (s, data)
      | _ => Some (set_state (if err_fatal data then ERROR else IDLE) s, data)
      end
  | BUFFER_FULL_ERROR =>
      if match err_parent data with Some p => String.eqb p "audio" | None => false end
         && match state s with PARSING | PARSED => true | _ => false end
      then
        m ← media s;
        let t := currentTime m in
        let mediaBuffered :=
          match mediaBuffer s with
          | Some b => isBuffered b t && isBuffered b (t + (1 # 2))%Q
          | None => false
          end in
        if mediaBuffered then
          let c := config s in
          let s :=
            if Qle_bool (maxBufferLength c) (maxMaxBufferLength c)
            then set_config (set_maxMaxBufferLength (maxMaxBufferLength c / 2)%Q c) s
            else s in
          Some (set_state IDLE s, data)
        else
          let s := set_fragCurrent None s in
          let s := set_state BUFFER_FLUSHING s in
          Some (trigger (Ev_BUFFER_FLUSHING 0%Q POSITIVE_INFINITY "audio") s, data)
      else Some (s, data)
  | _ => Some (s, data)
  end.

(** [onError] over a run of fragment-load errors; each payload is
    returned as the handler left it. *)
Fixpoint onErrors `{Env} (ds : list (ErrorData * Q)) (s : State)
    : option (State * list ErrorData) :=
  match ds with
  | [] => Some (s, [])
  | (d, now) :: ds' =>
      r ← onError d now s;
      r' ← onErrors ds' (fst r);
      Some (fst r', snd r :: snd r')
  end.

(** A non-fatal load error or timeout of an audio fragment. *)
Definition is_frag_load_error (d : ErrorData) : bool :=
  negb (err_fatal d) && negb (not_audio (err_frag d))
  && match err_details d with
     | FRAG_LOAD_ERROR | FRAG_LOAD_TIMEOUT => true
     | _ => false
     end.

(** The backoff delay as the specification words it:
    min(retry delay x 2^(k-1), maximum retry timeout). *)
Definition claimed_delay (c : Config) (k : Z) : Q :=
  Qmin (fragLoadingRetryDelay c * 2 ^ (k - 1)) (fragLoadingMaxRetryTimeout c).

(** A capacity error of the audio source buffer. *)
Definition is_audio_buffer_full (d : ErrorData) : bool :=
  negb (not_audio (err_frag d))
  && match err_details d with BUFFER_FULL_ERROR => true | _ => false end
  && match err_parent d with Some p => String.eqb p "audio" | None => false end.

(** The playback position and the half second after it are buffered in
    the audio source buffer. *)
Definition position_buffered `{Env} (s : State) (m : Media) : bool :=
  match mediaBuffer s with
  | Some b => isBuffered b (currentTime m) && isBuffered b (currentTime m + (1 # 2))%Q
  | None => false
  end.

(** The chosen fragment still has to be loaded: an audio switch is
    pending, or the fragment tracker has not seen the fragment. *)
Definition to_load `{StreamEnv} (frag : Fragment) (audioSwitch : bool) : bool :=
  audioSwitch || match getState frag with NOT_LOADED => true | _ => false end.

(** The chosen fragment cannot be loaded yet: it is a media fragment of
    a track without init segment, and the video track has published no
    finite init PTS for its continuity counter. *)
Definition init_pts_missing (frag : Fragment) (trackDetails : TrackDetails)
    (s : State) : Prop :=
  frag_encrypted frag = false
  /\ (exists n, frag_sn frag = SNnum n)
  /\ initSegment trackDetails = None
  /\ Number_isFinite (initPTS s !! frag_cc frag) = false.

(** A step inside a tick that keeps the state and the init PTS table. *)
Definition same_core (s s0 : State) : Prop :=
  state s0 = state s /\ initPTS s0 = initPTS s.

(** The details of the selected audio track are available. *)
Definition track_details (s : State) : option TrackDetails :=
  lvls ← levels s; t ← js_nth lvls (trackId s); details t.

(** *** An example session: an alternate audio track of two fragments,
    the second after a discontinuity *)

Definition example_config : Config :=
  mkConfig 30 600 (1 # 2) (1 # 4) true 6 1000 64000.

Definition example_frag (sn cc : Z) (start : Q) : Fragment :=
  mkFragment "audio" 0 (SNnum sn) cc false start 10.

Definition example_track : Track :=
  mkTrack (Some (mkTrackDetails [example_frag 0 0 0; example_frag 1 1 10]
                   false false 0 1 None)).

(** The controller in a given state: media attached at position 0 with
    the given buffered ranges, loading to start at 12 s. *)
Definition example_state (st : StateT) (ranges : list (Q * Q)) : State :=
  mkState st (Some [example_track]) 0
    (Some (mkMedia 0 false ranges)) (Some (mkMedia 0 false ranges)) None
    false false (Some 12%Q) None None false ∅ (-1) 0 0 example_config [].

(** Collaborators for the example: nothing is buffered at the load
    position, the stream has not ended, fragments are found by their time
    range or continuity counter, and none is loaded yet. *)
Definition example_stream_env : StreamEnv :=
  {| bufferInfo := fun _ pos _ => mkBufferInfo 0 pos pos None;
     _streamEnded := fun _ _ _ => false;
     findFragWithCC := fun frags cc =>
       List.find (fun f => frag_cc f =? cc) frags;
     findFragmentByPTS := fun _ frags bufferEnd _ =>
       List.find (fun f => Qle_bool (frag_start f) bufferEnd
                           && Qltb bufferEnd (frag_start f + frag_duration f)%Q) frags;
     getState := fun _ => NOT_LOADED |}.

(** The example controller short of buffer ceiling: the secondary
    ceiling (10 s) is below the primary one (30 s), and the position is
    buffered. *)
Definition example_tight : State :=
  set_config (set_maxMaxBufferLength 10 example_config)
    (example_state PARSING [(0, 10)%Q]).

(** The video track has published the init PTS of continuity counter 0;
    the audio controller is idle and about to load at 12 s, inside the
    fragment of continuity counter 1. *)
Definition example_video_frag : Fragment :=
  mkFragment "main" 0 (SNnum 0) 0 false 0 10.

Definition example_idle : State :=
  set_videoTrackCC 0
    (set_initPTS (<[0 := Num 900000]> ∅) (example_state IDLE [])).

(** A non-fatal load error of an audio fragment. *)
Definition example_load_error : ErrorData :=
  mkErrorData NETWORK_ERROR FRAG_LOAD_ERROR false (Some (example_frag 1 1 10))
    None None None false.

(** A capacity error reported for the audio source buffer. *)
Definition example_buffer_full : ErrorData :=
  mkErrorData MEDIA_ERROR BUFFER_FULL_ERROR false None None None (Some "audio") false.

(** A capacity error reported for the video source buffer. *)
Definition example_video_buffer_full : ErrorData :=
  mkErrorData MEDIA_ERROR BUFFER_FULL_ERROR false None None None (Some "main") false.

(** An error of loading a key or the playlist of an audio track, not of
    a fragment of another playlist. *)
Definition is_key_or_track_error (d : ErrorData) : bool :=
  negb (not_audio (err_frag d))
  && match err_details d with
     | AUDIO_TRACK_LOAD_ERROR | AUDIO_TRACK_LOAD_TIMEOUT
     | KEY_LOAD_ERROR | KEY_LOAD_TIMEOUT => true
     | _ => false
     end.

(** The media element is seeking. *)
Definition isSeeking (s : State) : bool :=
  match media s with
  | Some m => seeking m
  | None => false
  end.

(** The controller is in the ERROR state. *)
Definition in_error (s : State) : bool :=
  match state s with
  | ERROR => true
  | _ => false
  end.

(** What a tick in IDLE may do: nothing but wait for the track or the
    init PTS, request a key, request a fragment, or signal the end of the
    stream. *)
Inductive TickOutcome (s s' : State) : Prop :=
| tick_quiet :
    events s' = events s ->
    state s' = IDLE \/ state s' = WAITING_TRACK \/ state s' = WAITING_INIT_PTS ->
    TickOutcome s s'
| tick_key frag :
    events s' = events s ++ [Ev_KEY_LOADING frag] ->
    state s' = KEY_LOADING -> frag_encrypted frag = true ->
    TickOutcome s s'
| tick_frag frag :
    events s' = events s ++ [Ev_FRAG_LOADING frag] ->
    state s' = FRAG_LOADING -> frag_encrypted frag = false ->
    fragCurrent s' = Some frag ->
    TickOutcome s s'
| tick_ended :
    events s' = events s ++ [Ev_BUFFER_EOS "audio"] ->
    state s' = ENDED -> audioSwitch s = false ->
    TickOutcome s s'.

(** A load error of the key of an audio fragment. *)
Definition example_key_error (fatal : bool) : ErrorData :=
  mkErrorData NETWORK_ERROR KEY_LOAD_ERROR fatal (Some (example_frag 1 1 10))
    None None None false.

End AudioStreamController.

(** ** AAC demuxer (src/demux/aacdemuxer.ts) *)

Module AACDemuxer.

(** A [Uint8Array]: its bytes, each in 0..255. *)
Definition Bytes := list Z.

(** [data[i]] used as a number: a read outside the array is [undefined],
    which bit operations take as 0 and no byte value equals. *)
Definition byte_at (data : Bytes) (i : Z) : option Z := js_nth data i.

(** [data.slice(offset)] and [data.subarray(a, b)], for indices in order. *)
Definition slice (data : Bytes) (offset : Z) : Bytes :=
  drop (Z.to_nat offset) data.

Definition subarray (data : Bytes) (a b : Z) : Bytes :=
  take (Z.to_nat b - Z.to_nat a) (drop (Z.to_nat a) data).

(** An AAC sample and the frame it was cut from. *)
Record Sample := mkSample {
  unit_ : Bytes;
  pts : Q;
  dts : Q
}.

(** What [ADTS.appendFrame] returns: the sample and the frame's length. *)
Record Frame := mkFrame {
  frame_sample : Sample;
  frame_length : Z
}.

(** The audio track, shared by all the calls of a demuxing session. *)
Record Track := mkTrack {
  samples : list Sample;
  samplerate : option Z;
  manifestCodec : option string
}.

Definition push_sample (x : Sample) (t : Track) : Track :=
  mkTrack (samples t ++ [x]) (samplerate t) (manifestCodec t).

Record Id3Sample := mkId3Sample {
  id3_pts : Q;
  id3_dts : Q;
  id3_data : Bytes
}.

(** The demuxer's fields. *)
Record State := mkState {
  _audioTrack : Track;
  frameIndex : Z;
  cachedData : Bytes
}.

(** The ADTS and ID3 parsers the demuxer calls (./adts, ../demux/id3).
    [appendFrame] also pushes the sample on the track, which [demux] does
    for it here. *)
Class Parsers := {
  ADTS_isHeader : Bytes -> Z -> bool;
  ADTS_getFullFrameLength : Bytes -> Z -> Z;
  ADTS_initTrackConfig : Track -> Bytes -> Z -> Track;
  ADTS_appendFrame : Track -> Bytes -> Z -> Q -> Z -> option Frame;
  ID3_isHeader : Bytes -> Z -> bool;
  ID3_getID3Data : Bytes -> Z -> option Bytes;
  ID3_getTimeStamp : Bytes -> option Q
}.

(** How a call ends: it returns, it raises a [TypeError], or the bound on
    the number of loop iterations is used up. *)
Inductive Outcome (A : Type) :=
| Returned (a : A)
| Threw
| OutOfFuel.
Arguments Returned {A} a.
Arguments Threw {A}.
Arguments OutOfFuel {A}.

(** [resetInitSegment(audioCodec, videoCodec, duration)] *)
Definition resetInitSegment (audioCodec : option string) (s : State) : State :=
  mkState (mkTrack [] None audioCodec) (frameIndex s) (cachedData s).

(** The state of a new demuxer, after [resetInitSegment]. *)
Definition init (audioCodec : option string) : State :=
  mkState (mkTrack [] None audioCodec) 0 [].

(** The [while (offset <= length)] loop of [demux]; [basePTS] is the
    local [pts], [stamp] and [id3Samples] are the loop's other locals.  The
    result keeps the track, the frame index and the bytes cached when the
    loop breaks. *)
Fixpoint demux_loop `{Parsers} (fuel : nat) (data : Bytes) (basePTS : Q) (offset : Z)
    (stamp : Q) (id3Samples : list Id3Sample) (s : State) : Outcome State :=
  match fuel with
  | O => OutOfFuel
  | S fuel =>
      let length := Z.of_nat (length data) in
      if offset <=? length then
        if ADTS_isHeader data offset && (offset + 5 <? length)
           && (ADTS_getFullFrameLength data offset <? length - offset) then
          let track := ADTS_initTrackConfig (_audioTrack s) data offset in
          match ADTS_appendFrame track data offset basePTS (frameIndex s) with
          | Some frame =>
              demux_loop fuel data basePTS (offset + frame_length frame)
                (pts (frame_sample frame)) id3Samples
                (mkState (push_sample (frame_sample frame) track)
                   (frameIndex s + 1) (cachedData s))
          | None =>
              Returned (mkState track (frameIndex s) (slice data offset))
          end
        else if ID3_isHeader data offset then
          match ID3_getID3Data data offset with
          | Some id3Data =>
              demux_loop fuel data basePTS (offset + Z.of_nat (List.length id3Data))
                stamp (id3Samples ++ [mkId3Sample stamp stamp id3Data]) s
          | None => Threw
          end
        else
          Returned (mkState (_audioTrack s) (frameIndex s) (slice data offset))
      else Returned s
  end.

(** [demux(data, timeOffset)] *)
Definition demux `{Parsers} (data : Bytes) (timeOffset : Q) (s : State) : Outcome State :=
  let cached := 0 <? Z.of_nat (length (cachedData s)) in
  let data := if cached then cachedData s ++ data else data in
  let s := if cached then mkState (_audioTrack s) (frameIndex s) [] else s in
  let id3Data := default [] (ID3_getID3Data data 0) in
  let timestamp := ID3_getTimeStamp id3Data in
  let pts := match timestamp with
             | Some t => (t * 90)%Q
             | None => (timeOffset * 90000)%Q
             end in
  demux_loop (S (length data)) data pts (Z.of_nat (length id3Data)) pts
    [mkId3Sample pts pts id3Data] s.

(** [flush(timeOffset)] *)
Definition flush (s : State) : State :=
  mkState (_audioTrack s) 0 (cachedData s).

(** [demux] called on each chunk in turn, with one time offset. *)
Fixpoint demux_chunks `{Parsers} (chunks : list Bytes) (timeOffset : Q) (s : State)
    : Outcome State :=
  match chunks with
  | [] => Returned s
  | c :: chunks' =>
      match demux c timeOffset s with
      | Returned s' => demux_chunks chunks' timeOffset s'
      | Threw => Threw
      | OutOfFuel => OutOfFuel
      end
  end.

(** *** The ADTS and ID3 framing *)

(** A byte as an operand of [&], [|] and the shifts. *)
Definition u8 (data : Bytes) (i : Z) : Z := default 0 (byte_at data i).

(** Modelled from the spec: [ADTS.isHeader] (./adts is not among the
    modelled files) finds "the frame-sync pattern (12 sync bits +
    fixed-layer bits)": 1111 1111 1111 x00x, with a second byte to read. *)
Definition adts_isHeader (data : Bytes) (offset : Z) : bool :=
  (offset + 1 <? Z.of_nat (length data))
  && bool_decide (byte_at data offset = Some 255)
  && (Z.land (u8 data (offset + 1)) 246 =? 240).

(** Modelled from the spec: the header of an ADTS frame is 7 bytes, or 9
    with a CRC (protection-absent bit clear). *)
Definition adts_getHeaderLength (data : Bytes) (offset : Z) : Z :=
  if Z.land (u8 data (offset + 1)) 1 =? 0 then 9 else 7.

(** Modelled from the spec: "the declared frame length", the 13-bit field
    of the ADTS header that counts the header and the payload. *)
Definition adts_getFullFrameLength (data : Bytes) (offset : Z) : Z :=
  Z.lor (Z.lor (Z.shiftl (Z.land (u8 data (offset + 3)) 3) 11)
               (Z.shiftl (u8 data (offset + 4)) 3))
        (Z.shiftr (Z.land (u8 data (offset + 5)) 224) 5).

(** Modelled from the spec: the table of sample rates of ./adts, which
    is not among the modelled files; the rates an ADTS header can name,
    by index. *)
Definition adts_samplingRates : list Z :=
  [96000; 88200; 64000; 48000; 44100; 32000; 24000; 22050; 16000; 12000;
   11025; 8000; 7350].

(** Modelled from the spec: [ADTS.initTrackConfig] reads the track
    configuration off the first header when the track has none yet. *)
Definition adts_initTrackConfig (track : Track) (data : Bytes) (offset : Z) : Track :=
  match samplerate track with
  | Some _ => track
  | None =>
      mkTrack (samples track)
        (js_nth adts_samplingRates (Z.shiftr (Z.land (u8 data (offset + 2)) 60) 2))
        (manifestCodec track)
  end.

(** Modelled from the spec: the time of a frame in the 90 kHz clock,
    1024 samples at the track's rate. *)
Definition adts_frameDuration (track : Track) : Q :=
  match samplerate track with
  | Some r => (1024 * 90000 / inject_Z r)%Q
  | None => 0%Q
  end.

(** Modelled from the spec: [ADTS.appendFrame] "validates the declared
    frame length fits within the remaining buffer, and extracts one frame
    per header found", stamped "frame index x samples-per-frame /
    sample-rate" after the base time. *)
Definition adts_appendFrame (track : Track) (data : Bytes) (offset : Z) (basePTS : Q)
    (frameIndex : Z) : option Frame :=
  let headerLength := adts_getHeaderLength data offset in
  let frameLength := adts_getFullFrameLength data offset - headerLength in
  if (0 <? frameLength)
     && (offset + headerLength + frameLength <=? Z.of_nat (length data)) then
    let stamp := (basePTS + inject_Z frameIndex * adts_frameDuration track)%Q in
    Some (mkFrame
            (mkSample (subarray data (offset + headerLength)
                         (offset + headerLength + frameLength)) stamp stamp)
            (frameLength + headerLength))
  else None.

(** Modelled from the spec: the "optional leading timed-metadata header"
    is an ID3v2 tag (../demux/id3 is not among the modelled files): 'ID3',
    two version bytes below 0xFF, a flags byte, four size bytes below
    0x80. *)
Definition id3_isHeader (data : Bytes) (offset : Z) : bool :=
  (offset + 10 <=? Z.of_nat (length data))
  && bool_decide (byte_at data offset = Some 73)
  && bool_decide (byte_at data (offset + 1) = Some 68)
  && bool_decide (byte_at data (offset + 2) = Some 51)
  && (u8 data (offset + 3) <? 255) && (u8 data (offset + 4) <? 255)
  && (u8 data (offset + 6) <? 128) && (u8 data (offset + 7) <? 128)
  && (u8 data (offset + 8) <? 128) && (u8 data (offset + 9) <? 128).

(** Modelled from the spec: the tag's declared size, four 7-bit digits. *)
Definition id3_readSize (data : Bytes) (offset : Z) : Z :=
  Z.lor (Z.lor (Z.shiftl (Z.land (u8 data offset) 127) 21)
               (Z.shiftl (Z.land (u8 data (offset + 1)) 127) 14))
        (Z.lor (Z.shiftl (Z.land (u8 data (offset + 2)) 127) 7)
               (Z.land (u8 data (offset + 3)) 127)).

(** Modelled from the spec: the bytes of the tag at [offset], header
    included, as far as the buffer holds them. *)
Definition id3_getID3Data (data : Bytes) (offset : Z) : option Bytes :=
  if id3_isHeader data offset
  then Some (subarray data offset (offset + 10 + id3_readSize data (offset + 6)))
  else None.

(** The parsers, for a given decoder of the timestamp a tag may carry. *)
Definition parsers (getTimeStamp : Bytes -> option Q) : Parsers :=
  {| ADTS_isHeader := adts_isHeader;
     ADTS_getFullFrameLength := adts_getFullFrameLength;
     ADTS_initTrackConfig := adts_initTrackConfig;
     ADTS_appendFrame := adts_appendFrame;
     ID3_isHeader := id3_isHeader;
     ID3_getID3Data := id3_getID3Data;
     ID3_getTimeStamp := getTimeStamp |}.

(** The state the loop returns from an offset, with the ADTS and ID3
    framing, for which it always returns. *)
Definition loop (getTimeStamp : Bytes -> option Q) (data : Bytes) (basePTS : Q)
    (offset : Z) (s : State) : State :=
  match @demux_loop (parsers getTimeStamp)
          (S (Z.to_nat (Z.of_nat (length data) - offset)))
          data basePTS offset basePTS [] s with
  | Returned s' => s'
  | _ => s
  end.

(** No ID3 tag starts anywhere in the bytes; [id3_free] checks it. *)
Definition no_id3 (data : Bytes) : Prop :=
  forall offset, id3_isHeader data offset = false.

Definition id3_free (data : Bytes) : bool :=
  forallb (fun o => negb (id3_isHeader data (Z.of_nat o))) (seq 0 (length data)).

(** The local [pts] of a call of [demux] on bytes that start with no ID3
    tag. *)
Definition base_pts (getTimeStamp : Bytes -> option Q) (timeOffset : Q) : Q :=
  match getTimeStamp [] with
  | Some t => (t * 90)%Q
  | None => (timeOffset * 90000)%Q
  end.

(** *** A stream of three frames *)

(** An ADTS frame without CRC: AAC-LC, 44.1 kHz, stereo, two payload
    bytes; 9 bytes in all. *)
Definition frame9 (a b : Z) : Bytes := [255; 241; 80; 128; 1; 63; 252; a; b].

Definition frame_1 : Bytes := frame9 17 18.
Definition frame_2 : Bytes := frame9 33 34.
Definition frame_3 : Bytes := frame9 49 50.

(** Two whole frames and the first three header bytes of the third; then
    the rest of the third frame. *)
Definition chunk_1 : Bytes := frame_1 ++ frame_2 ++ take 3 frame_3.
Definition chunk_2 : Bytes := drop 3 frame_3.

(** The parsers on a stream whose tags carry no timestamp. *)
Definition plain_parsers : Parsers := parsers (fun _ => None).

End AACDemuxer.

(** ** Audio stream controller: parsing, appending and track switching
    (src/controller/audio-stream-controller.ts) *)

Module AudioStreamBuffering.
Import AudioStreamController.

(** The payload of BUFFER_APPENDING. *)
Record AppendObj := mkAppendObj {
  ao_type : string;
  ao_data : list Z;
  ao_parent : string;
  ao_content : string
}.

(** [this.stats], as far as the controller writes it. *)
Record LoaderStats := mkLoaderStats {
  tparsed : option Q;
  tbuffered : option Q
}.

(** A track of a parsed init segment, and the tracks of one. *)
Record InitTrack := mkInitTrack {
  it_container : string;
  it_codec : string;
  it_levelCodec : option string;
  it_id : option string;
  it_initSegment : option (list Z)
}.

Record InitTracks := mkInitTracks {
  t_audio : option InitTrack;
  t_video : option InitTrack
}.

(** The remuxed audio of a fragment; [r_endPTS] and [r_endDTS] are
    [None] when they are not finite numbers. *)
Record RemuxedTrack := mkRemuxedTrack {
  r_type : string;
  r_startPTS : Q;
  r_endPTS : option Q;
  r_startDTS : Q;
  r_endDTS : option Q;
  r_data1 : option (list Z);
  r_data2 : option (list Z)
}.

(** The payload of AUDIO_TRACK_LOADED; [details.startTimeOffset] is kept
    beside the details. *)
Record TrackLoadedData := mkTrackLoadedData {
  tl_details : TrackDetails;
  tl_startTimeOffset : option JsNum;
  tl_id : Z
}.

(** The events of the controller, in the order of [hls.trigger]: those
    of the loading handlers ([Core]) and those of the handlers below. *)
Inductive Signal :=
| Core (e : Event)
| FRAG_BUFFERED (stats : LoaderStats) (frag : Fragment) (id : string)
| AUDIO_TRACK_SWITCHED (id : Z)
| BUFFER_APPENDING (a : AppendObj)
| BUFFER_CODECS (tracks : InitTracks)
| MEDIA_ERROR_fatal.

(** The controller: the fields of the loading handlers ([core]) and the
    fields the handlers below read or write; [readyState] is
    [media.readyState]. *)
Record Controller := mkController {
  core : State;
  appended : bool;
  pendingBuffering : bool;
  pendingData : option (list AppendObj);
  waitingFragment : option Fragment;
  transmuxer : bool;
  stats : option LoaderStats;
  readyState : Z;
  startPosition : Q;
  trace : list Signal
}.

Definition set_core (x : State) (c : Controller) : Controller :=
  mkController x (appended c) (pendingBuffering c) (pendingData c)
    (waitingFragment c) (transmuxer c) (stats c) (readyState c)
    (startPosition c) (trace c).

Definition set_appended (x : bool) (c : Controller) : Controller :=
  mkController (core c) x (pendingBuffering c) (pendingData c)
    (waitingFragment c) (transmuxer c) (stats c) (readyState c)
    (startPosition c) (trace c).

Definition set_pendingBuffering (x : bool) (c : Controller) : Controller :=
  mkController (core c) (appended c) x (pendingData c)
    (waitingFragment c) (transmuxer c) (stats c) (readyState c)
    (startPosition c) (trace c).

Definition set_pendingData (x : option (list AppendObj)) (c : Controller) : Controller :=
  mkController (core c) (appended c) (pendingBuffering c) x
    (waitingFragment c) (transmuxer c) (stats c) (readyState c)
    (startPosition c) (trace c).

Definition set_waitingFragment (x : option Fragment) (c : Controller) : Controller :=
  mkController (core c) (appended c) (pendingBuffering c) (pendingData c)
    x (transmuxer c) (stats c) (readyState c) (startPosition c) (trace c).

Definition set_transmuxer (x : bool) (c : Controller) : Controller :=
  mkController (core c) (appended c) (pendingBuffering c) (pendingData c)
    (waitingFragment c) x (stats c) (readyState c) (startPosition c) (trace c).

Definition set_stats (x : option LoaderStats) (c : Controller) : Controller :=
  mkController (core c) (appended c) (pendingBuffering c) (pendingData c)
    (waitingFragment c) (transmuxer c) x (readyState c) (startPosition c)
    (trace c).

Definition set_startPosition (x : Q) (c : Controller) : Controller :=
  mkController (core c) (appended c) (pendingBuffering c) (pendingData c)
    (waitingFragment c) (transmuxer c) (stats c) (readyState c) x (trace c).

Definition set_trace (x : list Signal) (c : Controller) : Controller :=
  mkController (core c) (appended c) (pendingBuffering c) (pendingData c)
    (waitingFragment c) (transmuxer c) (stats c) (readyState c)
    (startPosition c) x.

(** A write to a field of the loading handlers. *)
Definition upd (f : State -> State) (c : Controller) : Controller :=
  set_core (f (core c)) c.

Definition set_levels (x : option (list Track)) (s : State) : State :=
  mkState (state s) x (trackId s) (media s) (mediaBuffer s) (videoBuffer s)
    (loadedmetadata s) (startFragRequested s) (nextLoadPosition s)
    (fragPrevious s) (fragCurrent s) (audioSwitch s) (initPTS s)
    (videoTrackCC s) (fragLoadError s) (retryDate s) (config s) (events s).

Definition set_trackId (x : Z) (s : State) : State :=
  mkState (state s) (levels s) x (media s) (mediaBuffer s) (videoBuffer s)
    (loadedmetadata s) (startFragRequested s) (nextLoadPosition s)
    (fragPrevious s) (fragCurrent s) (audioSwitch s) (initPTS s)
    (videoTrackCC s) (fragLoadError s) (retryDate s) (config s) (events s).

Definition set_mediaBuffer (x : option Media) (s : State) : State :=
  mkState (state s) (levels s) (trackId s) (media s) x (videoBuffer s)
    (loadedmetadata s) (startFragRequested s) (nextLoadPosition s)
    (fragPrevious s) (fragCurrent s) (audioSwitch s) (initPTS s)
    (videoTrackCC s) (fragLoadError s) (retryDate s) (config s) (events s).

Definition set_videoBuffer (x : option Media) (s : State) : State :=
  mkState (state s) (levels s) (trackId s) (media s) (mediaBuffer s) x
    (loadedmetadata s) (startFragRequested s) (nextLoadPosition s)
    (fragPrevious s) (fragCurrent s) (audioSwitch s) (initPTS s)
    (videoTrackCC s) (fragLoadError s) (retryDate s) (config s) (events s).

Definition set_fragPrevious (x : option Fragment) (s : State) : State :=
  mkState (state s) (levels s) (trackId s) (media s) (mediaBuffer s)
    (videoBuffer s) (loadedmetadata s) (startFragRequested s)
    (nextLoadPosition s) x (fragCurrent s) (audioSwitch s) (initPTS s)
    (videoTrackCC s) (fragLoadError s) (retryDate s) (config s) (events s).

Definition set_audioSwitch (x : bool) (s : State) : State :=
  mkState (state s) (levels s) (trackId s) (media s) (mediaBuffer s)
    (videoBuffer s) (loadedmetadata s) (startFragRequested s)
    (nextLoadPosition s) (fragPrevious s) (fragCurrent s) x (initPTS s)
    (videoTrackCC s) (fragLoadError s) (retryDate s) (config s) (events s).

(** [hls.trigger(event, data)], for an event of the handlers below and
    for one of the loading handlers.  The listeners of the other
    controllers are not run inside a handler: what they trigger in turn
    comes as a later call. *)
Definition trigger (e : Signal) (c : Controller) : Controller :=
  set_trace (trace c ++ [e]) c.

Definition trigger_core (e : Event) (c : Controller) : Controller :=
  trigger (Core e) (upd (AudioStreamController.trigger e) c).

(** A loading handler run on the controller: the events it triggers go
    to the trace. *)
Definition run_core (f : State -> option State) (c : Controller) : option Controller :=
  s ← f (core c);
  Some (set_trace
          (trace c ++ map Core (drop (length (events (core c))) (events s)))
          (set_core s c)).

(** [this.tick()], with the value of [performance.now()]. *)
Definition tick `{StreamEnv} (now : Q) (c : Controller) : option Controller :=
  run_core (AudioStreamController.tick now) c.

(** The collaborators of ./level-helper, which is not among the modelled
    files: [updateFragPTSDTS] updates the details and the fragment in
    place (its last argument, the end DTS, is [None] when it is not a
    finite number), [mergeDetails] the new details. *)
Class LevelHelper := {
  updateFragPTSDTS :
    option TrackDetails -> Fragment -> Q -> Q -> Q -> option Q
    -> option TrackDetails * Fragment;
  mergeDetails : TrackDetails -> TrackDetails -> TrackDetails
}.

Definition is_PARSING (s : StateT) : bool :=
  match s with PARSING => true | _ => false end.

Definition is_PARSED (s : StateT) : bool :=
  match s with PARSED => true | _ => false end.

(** [onAudioTracksUpdated(data)] *)
Definition onAudioTracksUpdated (audioTracks : option (list Track)) (c : Controller)
    : Controller :=
  upd (set_levels audioTracks) c.

(** [onAudioTrackSwitching(data)], with [data.url] and [data.id]; the
    tick timer it starts is not modelled. *)
Definition onAudioTrackSwitching `{StreamEnv} (url : option string) (id : Z) (now : Q)
    (c : Controller) : option Controller :=
  let altAudio := truthy_str url in
  let c := upd (set_trackId id) c in
  let c := upd (set_fragCurrent None) c in
  let c := upd (set_state PAUSED) c in
  let c := set_waitingFragment None c in
  let c := if altAudio then c else set_transmuxer false c in
  let c := if altAudio
           then upd (set_state IDLE) (upd (set_audioSwitch true) c)
           else c in
  tick now c.

Definition set_PTSKnown (b : bool) (d : TrackDetails) : TrackDetails :=
  mkTrackDetails (fragments d) (live d) b (startSN d) (endSN d) (initSegment d).

(** [onAudioTrackLoaded(data)] *)
Definition onAudioTrackLoaded `{StreamEnv} `{LevelHelper} (data : TrackLoadedData)
    (now : Q) (c : Controller) : option Controller :=
  match levels (core c) with
  | None => Some c
  | Some lvls =>
      let newDetails := tl_details data in
      track ← js_nth lvls (tl_id data);
      let newDetails :=
        if live newDetails then
          match details track with
          | Some curDetails =>
              if 0 <? Z.of_nat (length (fragments newDetails))
              then mergeDetails curDetails newDetails
              else set_PTSKnown false newDetails
          | None => set_PTSKnown false newDetails
          end
        else set_PTSKnown false newDetails in
      let c := upd (set_levels
                      (Some (js_set lvls (tl_id data) (mkTrack (Some newDetails))))) c in
      let c :=
        if startFragRequested (core c) then c
        else
          let c :=
            if Qeq_bool (startPosition c) (-1) then
              match tl_startTimeOffset data with
              | Some (Num q) => set_startPosition q c
              | _ => set_startPosition 0 c
              end
            else c in
          upd (set_nextLoadPosition (Some (startPosition c))) c in
      let c := match state (core c) with
               | WAITING_TRACK => upd (set_state IDLE) c
               | _ => c
               end in
      tick now c
  end.

(** [onBufferReset()] *)
Definition onBufferReset (c : Controller) : Controller :=
  upd (set_loadedmetadata false)
    (upd (set_videoBuffer None) (upd (set_mediaBuffer None) c)).

(** [onBufferCreated(data)], with the [buffer] of [data.tracks.audio]
    and of [data.tracks.video], for the tracks that are there. *)
Definition onBufferCreated (audio video : option (option Media)) (c : Controller)
    : Controller :=
  let c := match audio with
           | Some buffer => upd (set_loadedmetadata true) (upd (set_mediaBuffer buffer) c)
           | None => c
           end in
  match video with
  | Some buffer => upd (set_videoBuffer buffer) c
  | None => c
  end.

(** [_checkAppendedParsed()] *)
Definition _checkAppendedParsed `{StreamEnv} (now : Q) (c : Controller)
    : option Controller :=
  if is_PARSED (state (core c)) && (negb (appended c) || negb (pendingBuffering c)) then
    c ← match fragCurrent (core c) with
        | Some frag =>
            let c := upd (set_fragPrevious (Some frag)) c in
            st ← stats c;
            let st := mkLoaderStats (tparsed st) (Some now) in
            let c := set_stats (Some st) c in
            let c := trigger (FRAG_BUFFERED st frag "audio") c in
            _ ← (if defined (mediaBuffer (core c)) then mediaBuffer (core c)
                 else media (core c));
            let c :=
              if audioSwitch (core c) && appended c
              then trigger (AUDIO_TRACK_SWITCHED (trackId (core c)))
                     (upd (set_audioSwitch false) c)
              else c in
            Some (upd (set_state IDLE) c)
        | None => Some c
        end;
    tick now c
  else Some c.

(** [onBufferAppended(data)], with [data.parent] and [data.pending]. *)
Definition onBufferAppended `{StreamEnv} (parent : string) (pending : Z) (now : Q)
    (c : Controller) : option Controller :=
  if String.eqb parent "audio" then
    if is_PARSING (state (core c)) || is_PARSED (state (core c)) then
      _checkAppendedParsed now (set_pendingBuffering (0 <? pending) c)
    else Some c
  else Some c.

(** [onBufferFlushed()] *)
Definition onBufferFlushed `{StreamEnv} (now : Q) (c : Controller) : option Controller :=
  match pendingData c with
  | Some (a :: pending) =>
      let c := foldl (fun c a => trigger (BUFFER_APPENDING a) c) c (a :: pending) in
      let c := set_appended true c in
      let c := set_pendingData (Some []) c in
      Some (upd (set_state PARSED) c)
  | _ =>
      let c := upd (set_state IDLE) c in
      let c := upd (set_fragPrevious None) c in
      tick now c
  end.

(** [_endParsing()], which [_handleTransmuxerFlush] calls. *)
Definition _endParsing `{StreamEnv} (now : Q) (c : Controller) : option Controller :=
  if is_PARSING (state (core c)) then
    st ← stats c;
    let c := set_stats (Some (mkLoaderStats (Some now) (tbuffered st))) c in
    let c := upd (set_state PARSED) c in
    _checkAppendedParsed now c
  else Some c.

Definition _handleTransmuxerFlush `{StreamEnv} (now : Q) (c : Controller)
    : option Controller :=
  _endParsing now c.

(** [_bufferInitSegment(frag, tracks)] *)
Definition _bufferInitSegment `{StreamEnv} (tracks : InitTracks) (now : Q)
    (c : Controller) : option Controller :=
  if is_PARSING (state (core c)) then
    match t_audio tracks with
    | None => Some c
    | Some track =>
        let track :=
          mkInitTrack (it_container track) (it_codec track) (Some (it_codec track))
            (Some "audio") (it_initSegment track) in
        let c := trigger (BUFFER_CODECS (mkInitTracks (Some track) None)) c in
        let c :=
          match it_initSegment track with
          | Some bytes =>
              let appendObj := mkAppendObj "audio" bytes "audio" "initSegment" in
              if audioSwitch (core c) then set_pendingData (Some [appendObj]) c
              else
                trigger (BUFFER_APPENDING appendObj)
                  (set_pendingBuffering true (set_appended true c))
          | None => c
          end in
        tick now c
    end
  else Some c.

(** The append objects of the buffers of a remuxed track that hold data. *)
Definition data_objs (data : RemuxedTrack) : list AppendObj :=
  omap (fun buffer =>
          match buffer with
          | Some (b :: bytes) => Some (mkAppendObj (r_type data) (b :: bytes) "audio" "data")
          | _ => None
          end) [r_data1 data; r_data2 data].

(** The [forEach] that appends the pending objects, each only in PARSING. *)
Definition append_pending (objs : list AppendObj) (c : Controller) : Controller :=
  foldl (fun c a =>
           if is_PARSING (state (core c))
           then trigger (BUFFER_APPENDING a) (set_pendingBuffering true c)
           else c) c objs.

(** [_bufferFragmentData(frag, data)], called with the current fragment;
    the elementary streams of a fragment are not modelled. *)
Definition _bufferFragmentData `{StreamEnv} `{LevelHelper} (data : RemuxedTrack) (now : Q)
    (c : Controller) : option Controller :=
  if is_PARSING (state (core c)) then
    frag ← fragCurrent (core c);
    let endPTS := default (r_startPTS data + frag_duration frag)%Q (r_endPTS data) in
    let endDTS :=
      match r_endPTS data with
      | Some _ => r_endDTS data
      | None => Some (r_startDTS data + frag_duration frag)%Q
      end in
    let switching := audioSwitch (core c) in
    let pending := pendingData c in
    match levels (core c) with
    | None => Some c
    | Some lvls =>
        track ← js_nth lvls (trackId (core c));
        let r := updateFragPTSDTS (details track) frag (r_startPTS data) endPTS
                   (r_startDTS data) endDTS in
        let c := upd (set_levels (Some (js_set lvls (trackId (core c)) (mkTrack (fst r))))) c in
        let c := upd (set_fragCurrent (Some (snd r))) c in
        let flush :=
          switching
          && match media (core c) with
             | Some m => negb (readyState c =? 0) && Qle_bool (r_startPTS data) (currentTime m)
             | None => false
             end in
        let c :=
          if flush
          then trigger_core (Ev_BUFFER_FLUSHING 0 POSITIVE_INFINITY "audio")
                 (upd (set_state BUFFER_FLUSHING) c)
          else c in
        let c :=
          if switching
          then trigger (AUDIO_TRACK_SWITCHED (trackId (core c)))
                 (upd (set_audioSwitch false) c)
          else c in
        match pending with
        | None => Some (trigger MEDIA_ERROR_fatal c)
        | Some pending =>
            let c :=
              if audioSwitch (core c) then c
              else
                let pending := pending ++ data_objs data in
                let c := set_pendingData (Some pending) c in
                if negb flush && (0 <? Z.of_nat (length pending)) then
                  set_appended true
                    (set_pendingData (Some []) (append_pending pending c))
                else c in
            tick now c
        end
    end
  else Some c.

(** A trace and a controller without the times of [this.stats]. *)
Definition untimed_signal (e : Signal) : Signal :=
  match e with
  | FRAG_BUFFERED _ frag id => FRAG_BUFFERED (mkLoaderStats None None) frag id
  | e => e
  end.

Definition untimed (c : Controller) : Controller :=
  set_stats None (set_trace (map untimed_signal (trace c)) c).

(** The states in which a tick does nothing. *)
Definition parked (st : StateT) : bool :=
  match st with
  | IDLE | STARTING | WAITING_TRACK | FRAG_LOADING_WAITING_RETRY | WAITING_INIT_PTS => false
  | _ => true
  end.

(** *** An example controller *)

(** Collaborators for the example: the fragment and the details are left
    as they are, and new details replace the current ones. *)
Definition example_level_helper : LevelHelper :=
  {| updateFragPTSDTS := fun d frag _ _ _ _ => (d, frag);
     mergeDetails := fun _ newDetails => newDetails |}.

(** The example controller parsing the second fragment of its track,
    with or without an audio switch pending and with or without data
    appended and awaited; the media element has data. *)
Definition example_controller (switching appending : bool) : Controller :=
  mkController
    (set_audioSwitch switching
       (set_fragCurrent (Some (example_frag 1 1 10)) (example_state PARSING [])))
    appending appending (Some []) None true (Some (mkLoaderStats None None)) 4 0 [].

(** The remuxed audio of the example fragment: one buffer of two bytes. *)
Definition example_remuxed : RemuxedTrack :=
  mkRemuxedTrack "audio" 0 (Some 10%Q) 0 (Some 10%Q) (Some [1; 2]) None.

(** The tracks of an init segment of three bytes, with a video track. *)
Definition example_init_tracks : InitTracks :=
  mkInitTracks (Some (mkInitTrack "audio/mp4" "mp4a.40.2" None None (Some [0; 0; 24])))
               (Some (mkInitTrack "video/mp4" "avc1.42e01e" None None None)).

End AudioStreamBuffering.

(** ** Timeline controller: cue ranges and CEA-608 bytes
    (the Timeline Controller of src/controller/audio-stream-controller.ts) *)

Module TimelineController.

(** The cue handler of the configuration ([hls.config.cueHandler]), which
    is not among the modelled files: the caption screens it reads and the
    cues it creates. *)
Class CueHandler := {
  Screen : Type;
  Cue : Type;
  createCues : Q -> Q -> Screen -> list Cue
}.

(** [intersection(x1, x2, y1, y2)] *)
Definition intersection (x1 x2 y1 y2 : Q) : Q := (Qmin x2 y2 - Qmax x1 y1)%Q.

(** [overlap / (endTime - startTime) > 0.5] on numbers: a positive
    overlap over a zero duration is [Infinity], and 0 / 0 is [NaN], which
    no comparison holds of. *)
Definition mostly_overlaps (overlap startTime endTime : Q) : bool :=
  if Qeq_bool (endTime - startTime) 0 then negb (Qle_bool overlap 0)
  else negb (Qle_bool (overlap / (endTime - startTime)) (1 # 2)).

(** The controller: the time ranges of the cues parsed so far, the
    setting [config.renderNatively], the cues added to the text track of
    each channel that exists ([this[channel]]), and the events triggered,
    oldest first. *)
Section Controller.
Context `{CueHandler}.

Inductive Event :=
| CUES_PARSED (cues : list Cue) (track : string).

Record State := mkState {
  cueRanges : list (Q * Q);
  renderNatively : bool;
  textTracks : gmap string (list Cue);
  events : list Event
}.

Definition set_cueRanges (x : list (Q * Q)) (s : State) : State :=
  mkState x (renderNatively s) (textTracks s) (events s).

Definition set_textTracks (x : gmap string (list Cue)) (s : State) : State :=
  mkState (cueRanges s) (renderNatively s) x (events s).

Definition trigger (e : Event) (s : State) : State :=
  mkState (cueRanges s) (renderNatively s) (textTracks s) (events s ++ [e]).

(** The loop of [addCues] over the ranges, from index [i - 1] down to 0:
    the ranges it leaves, and [None] when it returns from [addCues], else
    the flag [merged]. *)
Fixpoint merge_ranges (i : nat) (startTime endTime : Q) (merged : bool)
    (ranges : list (Q * Q)) : list (Q * Q) * option bool :=
  match i with
  | O => (ranges, Some merged)
  | S i =>
      match ranges !! i with
      | Some cueRange =>
          let overlap := intersection (fst cueRange) (snd cueRange) startTime endTime in
          if Qle_bool 0 overlap then
            let ranges :=
              <[i := (Qmin (fst cueRange) startTime, Qmax (snd cueRange) endTime)]> ranges in
            if mostly_overlaps overlap startTime endTime then (ranges, None)
            else merge_ranges i startTime endTime true ranges
          else merge_ranges i startTime endTime merged ranges
      | None => (ranges, Some merged)
      end
  end.

(** [addCues(channel, startTime, endTime, screen)], for times that are
    finite numbers; [None] is the [TypeError] of adding a cue to a text
    track that does not exist. *)
Definition addCues (channel : string) (startTime endTime : Q) (screen : Screen)
    (s : State) : option State :=
  match merge_ranges (length (cueRanges s)) startTime endTime false (cueRanges s) with
  | (ranges, None) => Some (set_cueRanges ranges s)
  | (ranges, Some merged) =>
      let ranges := if merged then ranges else ranges ++ [(startTime, endTime)] in
      let s := set_cueRanges ranges s in
      let cues := createCues startTime endTime screen in
      if renderNatively s then
        match cues with
        | [] => Some s
        | _ =>
            track ← textTracks s !! channel;
            Some (set_textTracks (<[channel := track ++ cues]> (textTracks s)) s)
        end
      else Some (trigger (CUES_PARSED cues channel) s)
  end.

End Controller.

(** A byte of the array as an operand of [&]: a read outside the array
    is [undefined], which [&] takes as 0. *)
Definition and_operand (byteArray : list Z) (i : Z) : Z := default 0 (js_nth byteArray i).

(** The loop of [extractCea608Data] with [n] rounds to go. *)
Fixpoint cea608_loop (n : nat) (byteArray : list Z) (position : Z)
    (actualCCBytes : list Z) : list Z :=
  match n with
  | O => actualCCBytes
  | S n =>
      let tmpByte := and_operand byteArray position in
      let ccbyte1 := Z.land 127 (and_operand byteArray (position + 1)) in
      let ccbyte2 := Z.land 127 (and_operand byteArray (position + 2)) in
      let ccValid := negb (Z.land 4 tmpByte =? 0) in
      let ccType := Z.land 3 tmpByte in
      let position := position + 3 in
      if (ccbyte1 =? 0) && (ccbyte2 =? 0) then
        cea608_loop n byteArray position actualCCBytes
      else if ccValid && (ccType =? 0) then
        cea608_loop n byteArray position (actualCCBytes ++ [ccbyte1; ccbyte2])
      else cea608_loop n byteArray position actualCCBytes
  end.

(** [extractCea608Data(byteArray)], on an array of bytes. *)
Definition extractCea608Data (byteArray : list Z) : list Z :=
  let count := Z.land (and_operand byteArray 0) 31 in
  cea608_loop (Z.to_nat count) byteArray 2 [].

(** The time range of a cue is inside a recorded range, or apart from
    it. *)
Definition covers (startTime endTime : Q) (r : Q * Q) : Prop :=
  (fst r <= startTime)%Q /\ (endTime <= snd r)%Q.

Definition apart (startTime endTime : Q) (r : Q * Q) : Prop :=
  Qle_bool 0 (intersection (fst r) (snd r) startTime endTime) = false.

(** From index [i] on, every range covers the cue or is apart from it. *)
Definition settled (startTime endTime : Q) (ranges : list (Q * Q)) (i : nat) : Prop :=
  forall k r,
    (i <= k)%nat -> ranges !! k = Some r ->
    apart startTime endTime r \/ covers startTime endTime r.

(** A range overlaps more than half of the cue. *)
Definition overlaps_most (startTime endTime : Q) (r : Q * Q) : bool :=
  let overlap := intersection (fst r) (snd r) startTime endTime in
  Qle_bool 0 overlap && mostly_overlaps overlap startTime endTime.

(** *** An example: captions of one channel *)

(** A cue handler for the example: a screen is a line of text, and one
    cue is created for it. *)
Definition example_cues : CueHandler :=
  {| Screen := string;
     Cue := Q * Q * string;
     createCues := fun startTime endTime screen => [(startTime, endTime, screen)] |}.

Definition example_timeline : @State example_cues :=
  @mkState example_cues [(0, 2)%Q; (10, 12)%Q] false ∅ [].

(** A user-data payload of three byte pairs: a valid pair of type 0, an
    empty pair, and a valid pair of another type. *)
Definition example_cc_bytes : list Z :=
  [195; 255; 252; 148; 44; 252; 128; 128; 253; 200; 229].

End TimelineController.

(** ** Array reads and writes *)

Section ArrayFacts.
Context {A : Type}.
Implicit Types (l : list A) (i j : Z) (x y : A).

Lemma js_nth_Some l i x :
  js_nth l i = Some x -> 0 <= i < Z.of_nat (length l).
Proof.
  unfold js_nth. destruct (Z.ltb_spec i 0) as [Hi | Hi]; [discriminate |].
  intros Hl. apply lookup_lt_Some in Hl. lia.
Qed.

Lemma js_nth_in_range l i :
  0 <= i < Z.of_nat (length l) -> exists x, js_nth l i = Some x.
Proof.
  intros [Hi Hlt]. unfold js_nth.
  destruct (Z.ltb_spec i 0) as [Hneg | _]; [lia |].
  destruct (lookup_lt_is_Some_2 l (Z.to_nat i)) as [x Hx]; [lia | eauto].
Qed.

Lemma js_nth_None_ge l i :
  Z.of_nat (length l) <= i -> js_nth l i = None.
Proof.
  intros Hi. unfold js_nth.
  destruct (Z.ltb_spec i 0) as [_ | _]; [reflexivity |].
  apply lookup_ge_None. lia.
Qed.

Lemma js_nth_set_eq l i x y :
  js_nth l i = Some x -> js_nth (js_set l i y) i = Some y.
Proof.
  intros Hx. pose proof (js_nth_Some _ _ _ Hx) as [Hi Hlt].
  unfold js_nth, js_set.
  destruct (Z.ltb_spec i 0) as [Hneg | _]; [lia |].
  apply list_lookup_insert_eq. lia.
Qed.

Lemma js_nth_set_ne l i j y :
  i <> j -> js_nth (js_set l i y) j = js_nth l j.
Proof.
  intros Hne. unfold js_nth, js_set.
  destruct (Z.ltb_spec j 0) as [_ | Hj]; [reflexivity |].
  destruct (Z.ltb_spec i 0) as [_ | Hi]; [reflexivity |].
  apply list_lookup_insert_ne. lia.
Qed.

Lemma js_set_length l i y : length (js_set l i y) = length l.
Proof.
  unfold js_set. destruct (i <? 0); [reflexivity | apply length_insert].
Qed.

Lemma js_nth_elem_of l i x : js_nth l i = Some x -> x ∈ l.
Proof.
  unfold js_nth. destruct (i <? 0); [discriminate |].
  intros Hx. eapply list_elem_of_lookup_2; eauto.
Qed.

(** A level written over one of the list is the only new element. *)
Lemma elem_of_js_set l i y z :
  z ∈ js_set l i y -> z = y \/ z ∈ l.
Proof.
  unfold js_set. destruct (i <? 0); [auto |].
  intros Hz. apply list_elem_of_lookup in Hz as [k Hk].
  destruct (decide (Z.to_nat i = k)) as [Heq | Hne].
  - subst k. destruct (decide (Z.to_nat i < length l)%nat) as [Hlt | Hge].
    + rewrite list_lookup_insert_eq in Hk by exact Hlt. left. congruence.
    + rewrite list_insert_ge in Hk by lia. right.
      eapply list_elem_of_lookup_2; eauto.
  - rewrite list_lookup_insert_ne in Hk by exact Hne. right.
    eapply list_elem_of_lookup_2; eauto.
Qed.

End ArrayFacts.

(** ** Level controller: properties *)

Section LevelControllerFacts.
Import LevelController.
Context {env : Env}.

Lemma levels_rel_refl (R : Level -> Level -> Prop) o :
  (forall l, R l l) -> levels_rel R o o.
Proof. intros HR ls' ->. exists ls'. split; [reflexivity | eauto]. Qed.

Lemma levels_rel_weaken (R R' : Level -> Level -> Prop) o o' :
  (forall l l', R l l' -> R' l l') -> levels_rel R o o' -> levels_rel R' o o'.
Proof.
  intros HRR' Hrel ls' Hls'. destruct (Hrel ls' Hls') as (ls & Hls & Hall).
  exists ls. split; [exact Hls |]. intros l' Hl'.
  destruct (Hall l' Hl') as (l & Hl & HR). eauto.
Qed.

Lemma levels_rel_trans (R : Level -> Level -> Prop) o1 o2 o3 :
  (forall a b c, R a b -> R b c -> R a c) ->
  levels_rel R o1 o2 -> levels_rel R o2 o3 -> levels_rel R o1 o3.
Proof.
  intros Htr H12 H23 ls3 H3.
  destruct (H23 ls3 H3) as (ls2 & H2 & Hall2).
  destruct (H12 ls2 H2) as (ls1 & H1 & Hall1).
  exists ls1. split; [exact H1 |]. intros l3 Hl3.
  destruct (Hall2 l3 Hl3) as (l2 & Hl2 & HR2).
  destruct (Hall1 l2 Hl2) as (l1 & Hl1 & HR1). eauto.
Qed.

Lemma levels_rel_js_set (R : Level -> Level -> Prop) ls i l l' :
  (forall x, R x x) -> js_nth ls i = Some l -> R l l' ->
  levels_rel R (Some ls) (Some (js_set ls i l')).
Proof.
  intros Hrefl Hi HR ls' [= <-]. exists ls. split; [reflexivity |].
  intros z Hz. apply elem_of_js_set in Hz as [-> | Hz].
  - exists l. split; [eapply js_nth_elem_of; exact Hi | exact HR].
  - exists z. split; [exact Hz | apply Hrefl].
Qed.

Lemma keeps_urlId_refl l : keeps_urlId l l.
Proof. split; reflexivity. Qed.

Lemma keeps_urlId_trans a b c :
  keeps_urlId a b -> keeps_urlId b c -> keeps_urlId a c.
Proof. intros [H1 H2] [H3 H4]. split; congruence. Qed.

Lemma keeps_nothing s s' :
  _levels s' = _levels s -> _level s' = _level s ->
  keeps s s'.
Proof.
  intros Hl Hc. unfold keeps. rewrite Hl. split; [apply levels_rel_refl, keeps_urlId_refl |].
  unfold level_nonneg. rewrite Hc. auto.
Qed.

(** The handler returns a state with the same levels and current level. *)
Ltac unchanged := intros [= <-]; apply keeps_nothing; reflexivity.

Lemma setLevelInternal_keeps n s s' :
  setLevelInternal n s = Some s' -> keeps s s'.
Proof.
  unfold setLevelInternal.
  destruct (_levels s) as [ls |] eqn:Hls; cbn [mbind option_bind]; [| discriminate].
  destruct (Z.leb_spec 0 n) as [Hn | Hn]; cbn [andb];
    [| unchanged].
  destruct (Z.ltb_spec n (Z.of_nat (length ls))) as [Hlt | Hge];
    [| unchanged].
  destruct (js_nth_in_range ls n (conj Hn Hlt)) as [lv Hlv].
  destruct (decide (_level (cleanTimer s) = Some n)) as [Hcur | Hcur].
  - cbn. rewrite Hls. cbn. rewrite Hlv. cbn.
    destruct (details lv) as [d |]; [destruct (live d) |];
      unchanged.
  - cbn. rewrite Hlv. cbn. rewrite (js_nth_set_eq _ _ _ _ Hlv). cbn.
    assert (Hrel : levels_rel keeps_urlId (_levels s)
                     (Some (js_set ls n (set_lvl_level n lv)))).
    { rewrite Hls.
      eapply levels_rel_js_set; [apply keeps_urlId_refl | exact Hlv |].
      split; reflexivity. }
    destruct (details lv) as [d |]; [destruct (live d) |];
      intros [= <-];
      (split; [exact Hrel | intros _ l [= <-]; exact Hn]).
Qed.

Lemma set_level_keeps n s s' :
  set_level n s = Some s' ->
  keeps s s'.
Proof.
  unfold set_level.
  destruct (_levels s) as [ls |] eqn:Hls.
  2: { unchanged. }
  destruct (n <? Z.of_nat (length ls)).
  2: { unchanged. }
  destruct (decide (_level s = Some n)); [| apply setLevelInternal_keeps].
  destruct (js_nth ls n) as [lv |]; cbn [mbind option_bind]; [| discriminate].
  destruct (details lv); [| apply setLevelInternal_keeps].
  unchanged.
Qed.

Lemma set_manualLevel_keeps n s s' :
  set_manualLevel n s = Some s' ->
  keeps s s'.
Proof.
  unfold set_manualLevel.
  set (s1 := match _startLevel (set__manualLevel n s) with
             | Some _ => set__manualLevel n s
             | None => set__startLevel (Some n) (set__manualLevel n s)
             end).
  assert (H1 : _levels s1 = _levels s /\ _level s1 = _level s)
    by (subst s1; destruct (_startLevel _); split; reflexivity).
  destruct H1 as [Hl Hc].
  destruct (n =? -1).
  - intros [= <-]. apply keeps_nothing; assumption.
  - intros Hs. apply set_level_keeps in Hs as [Hrel Hnn].
    rewrite Hl in Hrel. split; [exact Hrel |].
    intros H. apply Hnn. unfold level_nonneg. rewrite Hc. exact H.
Qed.

Lemma set_nextLoadLevel_keeps n s s' :
  set_nextLoadLevel n s = Some s' ->
  keeps s s'.
Proof.
  unfold set_nextLoadLevel.
  destruct (set_level n s) as [s1 |] eqn:Hs1; cbn [mbind option_bind]; [| discriminate].
  apply set_level_keeps in Hs1 as [Hrel Hnn].
  intros [= <-].
  destruct (_manualLevel s1 =? -1); split; assumption.
Qed.

Lemma tick_keeps s s' :
  tick s = Some s' ->
  keeps s s'.
Proof.
  unfold tick.
  destruct (_level s) as [levelId |].
  2: { unchanged. }
  destruct (canload s).
  2: { unchanged. }
  destruct (_levels s) as [ls |] eqn:Hls; cbn [mbind option_bind]; [| discriminate].
  destruct (js_nth ls levelId); unchanged.
Qed.

Lemma levels_rel_map (R : Level -> Level -> Prop) (f : Level -> Level) ls :
  (forall l, R l (f l)) -> levels_rel R (Some ls) (Some (map f ls)).
Proof.
  intros Hf ls' [= <-]. exists ls. split; [reflexivity |].
  intros l' Hl'. apply list_elem_of_fmap in Hl' as (l & -> & Hl). eauto.
Qed.

Lemma startLoad_keeps s s' :
  startLoad s = Some s' ->
  keeps s s'.
Proof.
  unfold startLoad.
  set (s1 := match _levels (set_canload true s) with
             | Some ls => set_levels (Some (map startLoad_level ls)) (set_canload true s)
             | None => set_canload true s
             end).
  assert (H1 : levels_rel keeps_urlId (_levels s) (_levels s1)
               /\ _level s1 = _level s).
  { subst s1. cbn [_levels set_canload].
    destruct (_levels s) as [ls |] eqn:Hls; cbn; rewrite ?Hls.
    - split; [| reflexivity]. apply levels_rel_map. intros l.
      unfold startLoad_level. cbn.
      destruct (details l) as [d |]; [destruct (live d) |]; split; reflexivity.
    - split; [| reflexivity]. apply levels_rel_refl, keeps_urlId_refl. }
  destruct H1 as [Hrel Hc].
  assert (Hnn : level_nonneg s -> level_nonneg s1)
    by (unfold level_nonneg; rewrite Hc; auto).
  destruct (timer s1).
  - intros Ht. apply tick_keeps in Ht as [Hrel' Hnn']. split; [| auto].
    eapply levels_rel_trans; [apply keeps_urlId_trans | exact Hrel | exact Hrel'].
  - intros [= <-]. split; assumption.
Qed.

Lemma onFragLoaded_keeps frag s s' :
  onFragLoaded frag s = Some s' -> keeps s s'.
Proof.
  unfold onFragLoaded.
  destruct frag as [f |]; [| unchanged].
  destruct (String.eqb (frag_type f) "main");
    [| unchanged].
  destruct (_levels s) as [ls |] eqn:Hls; cbn [mbind option_bind]; [| discriminate].
  destruct (js_nth ls (frag_level f)) as [lv |] eqn:Hlv;
    intros [= <-]; [| apply keeps_nothing; reflexivity].
  split; [| intros H; exact H]. rewrite Hls. cbn.
  eapply levels_rel_js_set; [apply keeps_urlId_refl | exact Hlv |].
  split; reflexivity.
Qed.

Lemma onLevelLoaded_keeps data now s s' :
  onLevelLoaded data now s = Some s' -> keeps s s'.
Proof.
  unfold onLevelLoaded.
  destruct (decide (Some (ll_level data) = _level s));
    [| unchanged].
  destruct (_levels s) as [ls |] eqn:Hls; cbn [mbind option_bind]; [| discriminate].
  destruct (js_nth ls (ll_level data)) as [lv |] eqn:Hlv;
    cbn [mbind option_bind]; [| discriminate].
  assert (Hrel : levels_rel keeps_urlId (_levels s)
            (Some (js_set ls (ll_level data)
                     (if fragmentError lv then lv else set_loadError 0 lv)))).
  { rewrite Hls.
    eapply levels_rel_js_set; [apply keeps_urlId_refl | exact Hlv |].
    destruct (fragmentError lv); split; reflexivity. }
  destruct (live (ll_details data)); intros [= <-];
    (split; [exact Hrel | intros H; exact H]).
Qed.

Lemma elem_of_remove_index {A} (i k : Z) (l : list A) x :
  x ∈ remove_index i k l -> x ∈ l.
Proof.
  revert k. induction l as [| y l IH]; intros k; cbn; [auto |].
  destruct (k =? i).
  - intros Hx. right. eauto.
  - intros Hx. apply elem_of_cons in Hx as [-> | Hx]; [left | right; eauto].
Qed.

Lemma onLevelRemoved_keeps i s s' :
  onLevelRemoved i s = Some s' -> keeps s s'.
Proof.
  unfold onLevelRemoved.
  destruct (_levels s) as [ls |] eqn:Hls; cbn [mbind option_bind]; [| discriminate].
  intros [= <-]. split; [| intros H; exact H]. rewrite Hls. cbn.
  intros ls' [= <-]. exists ls. split; [reflexivity |].
  intros l' Hl'. exists l'. split; [| apply keeps_urlId_refl].
  eapply elem_of_remove_index; exact Hl'.
Qed.

Lemma store_details_keeps i d s : keeps s (store_details i d s).
Proof.
  unfold store_details.
  destruct (_levels s) as [ls |] eqn:Hls; [| apply keeps_nothing; reflexivity].
  destruct (js_nth ls i) as [lv |] eqn:Hlv; [| apply keeps_nothing; reflexivity].
  split; [| intros H; exact H]. rewrite Hls. cbn.
  eapply levels_rel_js_set; [apply keeps_urlId_refl | exact Hlv |].
  split; reflexivity.
Qed.

Lemma onError_mutation d s s' d' :
  urlIds_ok s -> onError d s = Some (s', d') ->
  levels_rel (fun l l' => keeps_urlId l l' \/ rotates_urlId l l')
    (_levels s) (_levels s')
  /\ (level_nonneg s -> level_nonneg s').
Proof.
  intros Hok.
  assert (Hsame : forall t : State, _levels t = _levels s ->
            levels_rel (fun l l' => keeps_urlId l l' \/ rotates_urlId l l')
              (_levels s) (_levels t)).
  { intros t ->. apply levels_rel_refl. intros l. left. apply keeps_urlId_refl. }
  unfold onError.
  destruct (err_fatal d).
  { intros [= <- <-]. split.
    - apply Hsame. destruct (err_type d); reflexivity.
    - unfold level_nonneg. destruct (err_type d); auto. }
  destruct (error_level d) as [[[levelIndex levelError] fragErr] |];
    cbn [mbind option_bind fst snd]; [| discriminate].
  destruct levelIndex as [levelIndex |];
    [| intros [= <- <-]; split; [apply Hsame; reflexivity | auto]].
  destruct (_levels s) as [ls |] eqn:Hls; cbn [mbind option_bind]; [| discriminate].
  destruct (js_nth ls levelIndex) as [lv |] eqn:Hlv;
    cbn [mbind option_bind]; [| discriminate].
  cbn [url set_fragmentError set_loadError loadError urlId].
  set (N := Z.of_nat (length (url lv))).
  assert (Hkeep : forall lv', keeps_urlId lv lv' ->
            levels_rel (fun l l' => keeps_urlId l l' \/ rotates_urlId l l')
              (Some ls) (Some (js_set ls levelIndex lv'))).
  { intros lv' Hk. eapply levels_rel_js_set; [| exact Hlv | left; exact Hk].
    intros x. left. apply keeps_urlId_refl. }
  destruct (Z.ltb_spec 1 N) as [HN | HN]; cbn [andb].
  - destruct (Z.ltb_spec (loadError lv + 1) N) as [Hlt | Hge].
    + intros [= <- <-]. split; [| intros H; exact H]. cbn.
      eapply levels_rel_js_set; [| exact Hlv |].
      * intros x. left. apply keeps_urlId_refl.
      * right. split; [reflexivity |]. split; [exact HN |]. cbn.
        fold N. apply Z.rem_mod_nonneg; [| lia].
        specialize (Hok ls Hls). rewrite Forall_forall in Hok.
        pose proof (Hok lv (js_nth_elem_of _ _ _ Hlv)) as [H0 _]. lia.
    + cbn.
      destruct ((_manualLevel s =? -1) && negb (levelIndex =? 0)).
      { intros [= <- <-]. split; [| intros H; exact H]. cbn.
        apply Hkeep. split; reflexivity. }
      destruct (match details lv with Some d0 => live d0 | None => false end).
      { intros [= <- <-]. split.
        - destruct levelError; cbn; apply Hkeep; split; reflexivity.
        - destruct levelError; [intros _ l; discriminate | intros H; exact H]. }
      destruct levelError.
      * destruct (mediaBuffered (media s)); intros [= <- <-]; cbn.
        -- split; [apply Hkeep; split; reflexivity | intros H; exact H].
        -- split; [apply Hkeep; split; reflexivity | intros _ l; discriminate].
      * intros [= <- <-]. split; [| intros H; exact H]. cbn.
        apply Hkeep. split; reflexivity.
  - cbn.
    destruct ((_manualLevel s =? -1) && negb (levelIndex =? 0)).
    { intros [= <- <-]. split; [| intros H; exact H]. cbn.
      apply Hkeep. split; reflexivity. }
    destruct (match details lv with Some d0 => live d0 | None => false end).
    { intros [= <- <-]. split.
      - destruct levelError; cbn; apply Hkeep; split; reflexivity.
      - destruct levelError; [intros _ l; discriminate | intros H; exact H]. }
    destruct levelError.
    * destruct (mediaBuffered (media s)); intros [= <- <-]; cbn.
      -- split; [apply Hkeep; split; reflexivity | intros H; exact H].
      -- split; [apply Hkeep; split; reflexivity | intros _ l; discriminate].
    * intros [= <- <-]. split; [| intros H; exact H]. cbn.
      apply Hkeep. split; reflexivity.
Qed.

Lemma push_url_fresh b u ls ls' :
  Forall fresh ls -> push_url b u ls = Some ls' -> Forall fresh ls'.
Proof.
  revert ls'. induction ls as [| l ls IH]; intros ls' Hall; cbn; [discriminate |].
  apply Forall_cons in Hall as [[Hid Hlen] Hall].
  destruct (bitrate l =? b).
  - intros [= <-]. constructor; [| exact Hall].
    split; [exact Hid |]. cbn. rewrite length_app. lia.
  - destruct (push_url b u ls) as [ls1 |]; cbn; [| discriminate].
    intros [= <-]. constructor; [split; assumption | eauto].
Qed.

Lemma regroup_fresh ms acc :
  Forall fresh acc -> Forall fresh (regroup ms acc).
Proof.
  revert acc. induction ms as [| m ms IH]; intros acc Hacc; cbn; [exact Hacc |].
  apply IH.
  destruct (push_url (m_bitrate m) (m_url m) acc) as [acc' |] eqn:Hpush.
  - eapply push_url_fresh; eauto.
  - apply Forall_app. split; [exact Hacc |].
    constructor; [| constructor]. split; cbn; [reflexivity | lia].
Qed.

Lemma filter_Forall {A} (P : A -> Prop) (f : A -> bool) (l : list A) :
  Forall P l -> Forall P (List.filter f l).
Proof.
  induction 1 as [| x l Hx Hl IH]; cbn; [constructor |].
  destruct (f x); [constructor; assumption | assumption].
Qed.

Lemma insert_level_Forall (P : Level -> Prop) x ls :
  P x -> Forall P ls -> Forall P (insert_level x ls).
Proof.
  intros Hx. induction 1 as [| y ls Hy Hls IH]; cbn.
  - constructor; [exact Hx | constructor].
  - destruct (bitrate x <=? bitrate y); repeat constructor; assumption.
Qed.

Lemma sort_levels_Forall (P : Level -> Prop) ls :
  Forall P ls -> Forall P (sort_levels ls).
Proof.
  unfold sort_levels. induction 1 as [| x ls Hx Hls IH]; cbn; [constructor |].
  apply insert_level_Forall; assumption.
Qed.

Lemma onManifestLoaded_fresh data s :
  (_levels (onManifestLoaded data s) = _levels s
   \/ exists ls', _levels (onManifestLoaded data s) = Some ls' /\ Forall fresh ls')
  /\ _level (onManifestLoaded data s) = _level s.
Proof.
  unfold onManifestLoaded.
  assert (Hkept : Forall fresh (manifest_levels data)).
  { unfold manifest_levels. apply filter_Forall.
    assert (Hg : Forall fresh (regroup (m_levels data) []))
      by (apply regroup_fresh; constructor).
    destruct (_ && _); [apply filter_Forall |]; exact Hg. }
  destruct (manifest_levels data) as [| first rest] eqn:Hk.
  - split; [left |]; reflexivity.
  - set (sorted := sort_levels (first :: rest)).
    assert (Hs : Forall fresh sorted) by (apply sort_levels_Forall; exact Hkept).
    destruct (find_bitrate (bitrate first) sorted 0); cbn;
      (split; [right; exists sorted; split; [reflexivity | exact Hs] | reflexivity]).
Qed.

Lemma step_mutation a s s' :
  urlIds_ok s -> step a s = Some s' ->
  urlId_mutation a s s' /\ (level_nonneg s -> level_nonneg s').
Proof.
  intros Hok. destruct a; cbn [step urlId_mutation].
  - intros [= <-]. destruct (onManifestLoaded_fresh data s) as [Hl Hc].
    split; [exact Hl |]. unfold level_nonneg. rewrite Hc. auto.
  - apply onLevelLoaded_keeps.
  - apply onFragLoaded_keeps.
  - destruct (onError data s) as [[s1 d1] |] eqn:He; cbn; [| discriminate].
    intros [= <-]. eapply onError_mutation; eauto.
  - apply onLevelRemoved_keeps.
  - apply set_level_keeps.
  - apply set_manualLevel_keeps.
  - apply set_nextLoadLevel_keeps.
  - unchanged.
  - unchanged.
  - apply startLoad_keeps.
  - unchanged.
  - apply tick_keeps.
  - unchanged.
  - intros [= <-]. apply store_details_keeps.
Qed.

Lemma levels_rel_urlIds_ok o o' :
  levels_rel (fun l l' => keeps_urlId l l' \/ rotates_urlId l l') o o' ->
  (forall ls, o = Some ls -> Forall urlId_in_range ls) ->
  forall ls', o' = Some ls' -> Forall urlId_in_range ls'.
Proof.
  intros Hrel Hok ls' Hls'. destruct (Hrel ls' Hls') as (ls & Hls & Hall).
  specialize (Hok ls Hls). rewrite Forall_forall in Hok.
  apply Forall_forall. intros l' Hl'.
  destruct (Hall l' Hl') as (l & Hl & HR). specialize (Hok l Hl).
  unfold urlId_in_range in *.
  destruct HR as [[Hu Hi] | (Hu & HN & Hi)]; rewrite Hu, Hi; [exact Hok |].
  apply Z.mod_pos_bound. lia.
Qed.

Lemma mutation_urlIds_ok a s s' :
  urlIds_ok s -> urlId_mutation a s s' -> urlIds_ok s'.
Proof.
  intros Hok Hmut.
  assert (Hk : levels_rel keeps_urlId (_levels s) (_levels s') -> urlIds_ok s').
  { intros Hrel. unfold urlIds_ok. eapply levels_rel_urlIds_ok; [| exact Hok].
    eapply levels_rel_weaken; [| exact Hrel]. intros l l' H. left. exact H. }
  destruct a; cbn [urlId_mutation] in Hmut; try (apply Hk; exact Hmut).
  - destruct Hmut as [Heq | (ls' & Hls' & Hall)].
    + unfold urlIds_ok. rewrite Heq. exact Hok.
    + intros ls Hls. rewrite Hls' in Hls. injection Hls as <-.
      eapply Forall_impl; [exact Hall |].
      intros l [Hid Hlen]. unfold urlId_in_range. lia.
  - unfold urlIds_ok. eapply levels_rel_urlIds_ok; [exact Hmut | exact Hok].
Qed.

Lemma reachable_inv s : reachable s -> urlIds_ok s /\ level_nonneg s.
Proof.
  induction 1 as [m delay cfgStart | a s s' Hreach [Hok Hnn] Hstep].
  - split; [intros ls; discriminate | intros l; discriminate].
  - destruct (step_mutation a s s' Hok Hstep) as [Hmut Hnn'].
    split; [eapply mutation_urlIds_ok; eauto | auto].
Qed.

(** C10: in every state the level controller can reach, every level
    has 0 <= urlId < url.length, before and after any further action; the
    manifest load installs levels with urlId 0 (or leaves the list alone),
    a handled error either keeps a level's urlId or moves it to
    (urlId + 1) modulo the number of its URLs, and every other action
    keeps every urlId. *)
Theorem urlId_stays_in_range (a : Action) (s s' : State) :
  reachable s -> step a s = Some s' ->
  urlIds_ok s /\ urlIds_ok s' /\ urlId_mutation a s s'.
Proof.
  intros Hreach Hstep.
  destruct (reachable_inv s Hreach) as [Hok _].
  destruct (step_mutation a s s' Hok Hstep) as [Hmut _].
  split; [exact Hok |]. split; [| exact Hmut].
  eapply mutation_urlIds_ok; eauto.
Qed.
Lemma is_load_error_of_level i d :
  is_load_error_of i d = true ->
  err_fatal d = false
  /\ exists levelError fragmentError,
       error_level d = Some (Some i, levelError, fragmentError).
Proof.
  unfold is_load_error_of, error_level.
  destruct (err_fatal d); cbn [negb andb]; [discriminate |].
  intros Hd. split; [reflexivity |].
  destruct (err_details d); try discriminate;
    try (destruct (err_frag d) as [f |]; [| discriminate];
         apply Z.eqb_eq in Hd; subst i; cbn; eauto);
    try (destruct (err_context_level d) as [l |]; [| discriminate];
         apply Z.eqb_eq in Hd; subst i; cbn; eauto).
Qed.

(** A load error while URLs remain untried selects the next URL and drops
    the cached details. *)
Lemma onError_rotates i d s lv :
  is_load_error_of i d = true -> level_at s i = Some lv ->
  1 < Z.of_nat (length (url lv)) ->
  loadError lv + 1 < Z.of_nat (length (url lv)) -> 0 <= urlId lv ->
  exists s' lv',
    onError d s = Some (s', d) /\ level_at s' i = Some lv'
    /\ url lv' = url lv /\ loadError lv' = loadError lv + 1
    /\ urlId lv' = (urlId lv + 1) mod Z.of_nat (length (url lv))
    /\ details lv' = None
    /\ nextAutoLevel s' = nextAutoLevel s /\ _manualLevel s' = _manualLevel s.
Proof.
  intros Hd Hlv HN Hle Hid.
  destruct (is_load_error_of_level i d Hd) as (Hfatal & le & fe & Hlevel).
  unfold level_at in Hlv.
  destruct (_levels s) as [ls |] eqn:Hls; cbn in Hlv; [| discriminate].
  unfold onError. rewrite Hfatal, Hlevel. cbn [mbind option_bind fst snd].
  rewrite Hls. cbn [mbind option_bind]. rewrite Hlv. cbn [mbind option_bind].
  cbn [url set_fragmentError set_loadError loadError urlId].
  destruct (Z.ltb_spec 1 (Z.of_nat (length (url lv)))) as [_ | ?]; [| lia].
  destruct (Z.ltb_spec (loadError lv + 1) (Z.of_nat (length (url lv))))
    as [_ | ?]; [| lia].
  cbn [andb]. eexists _, _. split; [reflexivity |].
  unfold level_at. cbn. rewrite (js_nth_set_eq _ _ _ _ Hlv).
  split; [reflexivity |]. cbn.
  repeat split. apply Z.rem_mod_nonneg; lia.
Qed.

(** A load error once every URL has failed keeps the URL and, in auto
    mode above the lowest level, asks for the level below. *)
Lemma onError_exhausted i d s lv :
  is_load_error_of i d = true -> level_at s i = Some lv ->
  Z.of_nat (length (url lv)) <= loadError lv + 1 ->
  exists s' d' lv',
    onError d s = Some (s', d') /\ level_at s' i = Some lv'
    /\ url lv' = url lv /\ loadError lv' = loadError lv + 1
    /\ urlId lv' = urlId lv /\ details lv' = details lv
    /\ (_manualLevel s = -1 -> i <> 0 -> nextAutoLevel s' = Some (i - 1)).
Proof.
  intros Hd Hlv Hle.
  destruct (is_load_error_of_level i d Hd) as (Hfatal & le & fe & Hlevel).
  unfold level_at in Hlv.
  destruct (_levels s) as [ls |] eqn:Hls; cbn in Hlv; [| discriminate].
  pose proof (js_nth_Some _ _ _ Hlv) as [Hi _].
  unfold onError. rewrite Hfatal, Hlevel. cbn [mbind option_bind fst snd].
  rewrite Hls. cbn [mbind option_bind]. rewrite Hlv. cbn [mbind option_bind].
  cbn [url set_fragmentError set_loadError loadError urlId].
  destruct (Z.ltb_spec (loadError lv + 1) (Z.of_nat (length (url lv))))
    as [? | _]; [lia |].
  rewrite andb_false_r.
  set (lv1 := set_fragmentError fe (set_loadError (loadError lv + 1) lv)).
  set (s1 := set_levels (Some (js_set ls i lv1)) s).
  assert (Hat : forall t, _levels t = _levels s1 -> level_at t i = Some lv1).
  { intros t Ht. unfold level_at. rewrite Ht. cbn.
    apply (js_nth_set_eq _ _ _ _ Hlv). }
  change (_manualLevel s1) with (_manualLevel s).
  destruct (Z.eqb_spec (_manualLevel s) (-1)) as [Hm | Hm]; cbn [andb].
  - destruct (Z.eqb_spec i 0) as [Hz | Hz]; cbn [negb].
    + destruct (match details lv1 with Some d0 => live d0 | None => false end).
      { eexists _, _, lv1. split; [reflexivity |].
        split; [apply Hat; destruct le; reflexivity |].
        repeat split. intros _ Hc. contradiction. }
      destruct le.
      * destruct (mediaBuffered (media s1)); eexists _, _, lv1;
          (split; [reflexivity |]); (split; [apply Hat; reflexivity |]);
          repeat split; intros _ Hc; contradiction.
      * eexists _, _, lv1. split; [reflexivity |].
        split; [apply Hat; reflexivity |].
        repeat split. intros _ Hc. contradiction.
    + eexists _, _, lv1. split; [reflexivity |].
      split; [apply Hat; reflexivity |].
      repeat split. intros _ _. cbn. f_equal. lia.
  - destruct (match details lv1 with Some d0 => live d0 | None => false end).
    { eexists _, _, lv1. split; [reflexivity |].
      split; [apply Hat; destruct le; reflexivity |].
      repeat split. intros Hc. contradiction. }
    destruct le.
    * destruct (mediaBuffered (media s1)); eexists _, _, lv1;
        (split; [reflexivity |]); (split; [apply Hat; reflexivity |]);
        repeat split; intros Hc; contradiction.
    * eexists _, _, lv1. split; [reflexivity |].
      split; [apply Hat; reflexivity |].
      repeat split. intros Hc. contradiction.
Qed.

Lemma onErrors_app ds1 ds2 s :
  onErrors (ds1 ++ ds2) s = onErrors ds1 s ≫= onErrors ds2.
Proof.
  revert s. induction ds1 as [| d ds1 IH]; intros s; cbn; [reflexivity |].
  destruct (onError d s) as [[s1 d1] |]; cbn; [apply IH | reflexivity].
Qed.

(** A run of load errors that leaves some URL untried rotates once per
    error. *)
Lemma rotation_run i ds : forall s lv,
  level_at s i = Some lv ->
  1 < Z.of_nat (length (url lv)) ->
  0 <= urlId lv -> 0 <= loadError lv ->
  Forall (fun d => is_load_error_of i d = true) ds ->
  loadError lv + Z.of_nat (length ds) < Z.of_nat (length (url lv)) ->
  exists s' lv',
    onErrors ds s = Some s' /\ level_at s' i = Some lv'
    /\ url lv' = url lv
    /\ loadError lv' = loadError lv + Z.of_nat (length ds)
    /\ urlId lv' = (if decide (ds = []) then urlId lv
                    else (urlId lv + Z.of_nat (length ds))
                           mod Z.of_nat (length (url lv)))
    /\ (ds <> [] -> details lv' = None)
    /\ nextAutoLevel s' = nextAutoLevel s /\ _manualLevel s' = _manualLevel s.
Proof.
  induction ds as [| d ds IH]; intros s lv Hlv HN Hid Hle Hall Hlen.
  - exists s, lv. cbn. rewrite Z.add_0_r. repeat split; auto; contradiction.
  - apply Forall_cons in Hall as [Hd Hall]. cbn [length] in Hlen.
    destruct (onError_rotates i d s lv Hd Hlv HN ltac:(lia) Hid)
      as (s1 & lv1 & Hs1 & Hlv1 & Hu1 & Hl1 & Hi1 & Hd1 & Hn1 & Hm1).
    assert (Hid1 : 0 <= urlId lv1 < Z.of_nat (length (url lv)))
      by (rewrite Hi1; apply Z.mod_pos_bound; lia).
    destruct (IH s1 lv1 Hlv1) as (s' & lv' & Hs' & Hlv' & Hu' & Hl' & Hi' & Hd' & Hn' & Hm');
      [rewrite Hu1; lia | lia | lia | exact Hall | rewrite Hu1, Hl1; lia |].
    exists s', lv'. cbn [onErrors]. rewrite Hs1. cbn.
    split; [exact Hs' |]. split; [exact Hlv' |].
    split; [congruence |]. split; [rewrite Hl', Hl1; cbn [length]; lia |].
    split.
    + rewrite Hi'. cbn [length]. destruct (decide (ds = [])) as [-> | Hne].
      * rewrite Hi1. reflexivity.
      * rewrite Hu1, Hi1. rewrite Zplus_mod_idemp_l. f_equal. lia.
    + split; [| split; congruence].
      intros _. destruct ds as [| d2 ds2].
      * cbn in Hs'. injection Hs' as <-. rewrite Hlv1 in Hlv'.
        injection Hlv' as <-. exact Hd1.
      * apply Hd'. discriminate.
Qed.

(** C3: for a level with N > 1 redundant URLs and loadError 0, each of
    the first N-1 consecutive non-fatal fragment, key or level load errors
    moves urlId to the next URL modulo N and sets details to undefined;
    the N-th error leaves urlId where the (N-1)-th put it and, when no
    level is pinned manually and the level index is not 0, sets
    nextAutoLevel to levelIndex - 1. *)
Theorem failover_rotates_then_switches_down
    (i : Z) (s : State) (lv : Level) (ds : list ErrorData) (d : ErrorData) :
  let N := Z.of_nat (length (url lv)) in
  reachable s -> level_at s i = Some lv ->
  1 < N -> loadError lv = 0 ->
  Forall (fun d => is_load_error_of i d = true) (ds ++ [d]) ->
  Z.of_nat (length ds) = N - 1 ->
  (forall k : nat, (0 < k <= length ds)%nat ->
     exists sk lk,
       onErrors (take k ds) s = Some sk /\ level_at sk i = Some lk
       /\ loadError lk = Z.of_nat k
       /\ urlId lk = (urlId lv + Z.of_nat k) mod N
       /\ details lk = None
       /\ nextAutoLevel sk = nextAutoLevel s)
  /\ exists s' l',
       onErrors (ds ++ [d]) s = Some s' /\ level_at s' i = Some l'
       /\ loadError l' = N
       /\ urlId l' = (urlId lv + (N - 1)) mod N
       /\ (_manualLevel s = -1 -> i <> 0 -> nextAutoLevel s' = Some (i - 1)).
Proof.
  intros N Hreach Hlv HN Hle Hall Hlen.
  assert (Hrange : 0 <= urlId lv < N).
  { apply reachable_inv in Hreach as [Hok _]. unfold level_at in Hlv.
    destruct (_levels s) as [ls |] eqn:Hls; cbn in Hlv; [| discriminate].
    specialize (Hok ls Hls). rewrite Forall_forall in Hok.
    apply (Hok lv), (js_nth_elem_of _ _ _ Hlv). }
  destruct Hrange as [Hid HidN].
  apply Forall_app in Hall as [Hds Hd]. apply Forall_cons in Hd as [Hd _].
  split.
  - intros k [Hk0 Hk].
    destruct (rotation_run i (take k ds) s lv Hlv HN Hid) as
      (sk & lk & Hsk & Hlk & Hu & Hl & Hi & Hdt & Hn & _).
    + lia.
    + apply Forall_take. exact Hds.
    + rewrite length_take. fold N. lia.
    + assert (Hlen_k : length (take k ds) = k) by (rewrite length_take; lia).
      assert (Hne : take k ds <> [])
        by (intros Hnil; rewrite Hnil in Hlen_k; cbn in Hlen_k; lia).
      exists sk, lk. rewrite Hlen_k in *.
      destruct (decide (take k ds = [])); [contradiction |].
      repeat split; auto. lia.
  - destruct (rotation_run i ds s lv Hlv HN Hid) as
      (s1 & l1 & Hs1 & Hl1 & Hu & Hl & Hi & Hdt & Hn & Hm);
      [lia | exact Hds | fold N; lia |].
    destruct (onError_exhausted i d s1 l1 Hd Hl1) as
      (s' & d' & l' & Hs' & Hl' & Hu' & Hle' & Hi' & Hdt' & Hauto);
      [rewrite Hu, Hl; fold N; lia |].
    exists s', l'. rewrite onErrors_app, Hs1. cbn. rewrite Hs'. cbn.
    split; [reflexivity |]. split; [exact Hl' |].
    split; [rewrite Hle', Hl; lia |].
    split.
    + rewrite Hi', Hi. fold N.
      destruct (decide (ds = [])) as [-> | _]; [| rewrite Hlen; reflexivity].
      cbn in Hlen. replace (N - 1) with 0 by lia. rewrite Z.add_0_r.
      symmetry. apply Z.mod_small. lia.
    + rewrite Hm in Hauto. exact Hauto.
Qed.
Lemma events_trigger e s : events (trigger e s) = events s ++ [e].
Proof. reflexivity. Qed.

Lemma level_loadings_app es1 es2 :
  level_loadings (es1 ++ es2) = level_loadings es1 ++ level_loadings es2.
Proof. apply omap_app. Qed.

(** C8: in a reachable state with a level list loaded, assigning a
    negative index to [level] triggers the non-fatal error OTHER_ERROR /
    LEVEL_SWITCH_ERROR with reason 'invalid level idx', leaves the current
    level and the level list unchanged and requests no LEVEL_LOADING;
    assigning an index at or beyond the number of levels changes nothing
    and triggers nothing. *)
Theorem invalid_level_index (n : Z) (s : State) (ls : list Level) :
  reachable s -> _levels s = Some ls ->
  (n < 0 ->
     exists s',
       set_level n s = Some s'
       /\ events s' = events s ++ [ERROR OTHER_ERROR LEVEL_SWITCH_ERROR false (Some n)
                                     "invalid level idx"]
       /\ _level s' = _level s /\ _levels s' = _levels s
       /\ level_loadings (events s') = level_loadings (events s))
  /\ (Z.of_nat (length ls) <= n -> set_level n s = Some s).
Proof.
  intros Hreach Hls. apply reachable_inv in Hreach as [_ Hnn].
  unfold set_level. rewrite Hls. split.
  - intros Hn.
    destruct (Z.ltb_spec n (Z.of_nat (length ls))) as [_ | ?]; [| lia].
    destruct (decide (_level s = Some n)) as [Hcur | _];
      [apply Hnn in Hcur; lia |].
    unfold setLevelInternal. rewrite Hls. cbn [mbind option_bind].
    destruct (Z.leb_spec 0 n) as [? | _]; [lia |]. cbn [andb].
    eexists. split; [reflexivity |].
    split; [reflexivity |]. split; [reflexivity |]. split; [exact Hls |].
    change (events (trigger ?e s)) with (events s ++ [e]).
    rewrite level_loadings_app. apply app_nil_r.
  - intros Hn.
    destruct (Z.ltb_spec n (Z.of_nat (length ls))) as [? | _]; [lia | reflexivity].
Qed.

(** C6 (amended): assigning a valid index to [level] requests exactly
    one LEVEL_LOADING, for the level's selected URL, when the level's
    details are undefined, or when the index differs from the current
    level and the cached details are live; otherwise it requests none.
    Assigning the current level again does not reload cached live details. *)
Theorem level_setter_load_condition (n : Z) (s : State) (lv : Level) :
  level_at s n = Some lv ->
  exists s' new,
    set_level n s = Some s' /\ events s' = events s ++ new
    /\ level_loadings new =
         if negb (defined (details lv))
            || (negb (bool_decide (_level s = Some n))
                && match details lv with Some d => live d | None => false end)
         then [(js_nth (url lv) (urlId lv), n, urlId lv)]
         else [].
Proof.
  unfold level_at. intros Hlv.
  destruct (_levels s) as [ls |] eqn:Hls; cbn in Hlv; [| discriminate].
  pose proof (js_nth_Some _ _ _ Hlv) as [Hn Hlt].
  assert (Hint : forall s0, _levels s0 = Some ls -> _level s0 = Some n ->
            events s0 = events s ->
            exists s' new,
              (levels ← _levels s0;
               lv0 ← js_nth levels n;
               match details lv0 with
               | Some d =>
                   if live d
                   then Some (trigger (LEVEL_LOADING (js_nth (url lv0) (urlId lv0)) n
                                         (urlId lv0)) s0)
                   else Some s0
               | None =>
                   Some (trigger (LEVEL_LOADING (js_nth (url lv0) (urlId lv0)) n
                                    (urlId lv0)) s0)
               end) = Some s'
              /\ events s' = events s ++ new
              /\ level_loadings new =
                   if negb (defined (details lv))
                      || match details lv with Some d => live d | None => false end
                   then [(js_nth (url lv) (urlId lv), n, urlId lv)]
                   else []).
  { intros s0 Hls0 _ Hev. rewrite Hls0. cbn [mbind option_bind]. rewrite Hlv.
    cbn [mbind option_bind].
    destruct (details lv) as [d |]; [destruct (live d) |]; cbn.
    - eexists _, [_]. split; [reflexivity |].
      rewrite events_trigger, Hev. split; reflexivity.
    - exists s0, []. split; [reflexivity |]. rewrite Hev, app_nil_r.
      split; reflexivity.
    - eexists _, [_]. split; [reflexivity |].
      rewrite events_trigger, Hev. split; reflexivity. }
  unfold set_level. rewrite Hls.
  destruct (Z.ltb_spec n (Z.of_nat (length ls))) as [_ | ?]; [| lia].
  destruct (decide (_level s = Some n)) as [Hcur | Hcur].
  - rewrite Hlv. cbn [mbind option_bind].
    rewrite (bool_decide_eq_true_2 _ Hcur). cbn [negb andb].
    rewrite orb_false_r.
    destruct (details lv) as [d |] eqn:Hd; cbn [defined negb].
    + exists s, []. rewrite app_nil_r. repeat split.
    + unfold setLevelInternal. rewrite Hls. cbn [mbind option_bind].
      destruct (Z.leb_spec 0 n) as [_ | ?]; [| lia].
      destruct (Z.ltb_spec n (Z.of_nat (length ls))) as [_ | ?]; [| lia].
      cbn [andb].
      destruct (decide (_level (cleanTimer s) = Some n)) as [_ | Hc];
        [| exfalso; apply Hc; exact Hcur].
      destruct (Hint (cleanTimer s) Hls Hcur eq_refl) as (s' & new & H1 & H2 & H3).
      exists s', new. split; [exact H1 |]. split; [exact H2 | exact H3].
  - rewrite (bool_decide_eq_false_2 _ Hcur). cbn [negb andb].
    unfold setLevelInternal. rewrite Hls. cbn [mbind option_bind].
    destruct (Z.leb_spec 0 n) as [_ | ?]; [| lia].
    destruct (Z.ltb_spec n (Z.of_nat (length ls))) as [_ | ?]; [| lia].
    cbn [andb].
    destruct (decide (_level (cleanTimer s) = Some n)) as [Hc | _];
      [exfalso; apply Hcur; exact Hc |].
    cbn. rewrite Hlv. cbn. rewrite (js_nth_set_eq _ _ _ _ Hlv). cbn.
    destruct (details lv) as [d |]; [destruct (live d) |]; cbn.
    + eexists _, [_; _; _]. split; [reflexivity |].
      rewrite !events_trigger, <- !app_assoc. split; reflexivity.
    + eexists _, [_; _]. split; [reflexivity |].
      rewrite !events_trigger, <- !app_assoc. split; reflexivity.
    + eexists _, [_; _; _]. split; [reflexivity |].
      rewrite !events_trigger, <- !app_assoc. split; reflexivity.
Qed.

(** C4 (amended): a playlist loaded for the current level arms the
    reload timer, when the playlist is live, with 1000 x the average
    target duration (the target duration when the playlist has no average,
    or a zero one), halved when the end sequence number equals that of the
    level's cached details, less the time since the request, rounded to
    the nearest integer and raised to at least 1000 ms; when the playlist
    is not live the timer is cleared. *)
Theorem reload_interval_formula
    (data : LevelLoadedData) (now : Q) (s : State) (cur : Level) :
  _level s = Some (ll_level data) ->
  level_at s (ll_level data) = Some cur ->
  exists s',
    onLevelLoaded data now s = Some s'
    /\ timer s' =
         let newDetails := ll_details data in
         let duration :=
           match averagetargetduration newDetails with
           | Some a => if Qeq_bool a 0 then targetduration newDetails else a
           | None => targetduration newDetails
           end in
         let nominal := (1000 * duration)%Q in
         let stale :=
           match details cur with
           | Some previous => endSN newDetails =? endSN previous
           | None => false
           end in
         if live newDetails then
           Some (Z.max 1000
                   (Math_round ((if stale then nominal / 2 else nominal)
                                - (now - ll_trequest data))))
         else None.
Proof.
  intros Hcur Hlv. unfold level_at in Hlv.
  destruct (_levels s) as [ls |] eqn:Hls; cbn in Hlv; [| discriminate].
  unfold onLevelLoaded. rewrite Hcur.
  destruct (decide (Some (ll_level data) = Some (ll_level data))) as [_ | Hne];
    [| contradiction].
  rewrite Hls. cbn [mbind option_bind]. rewrite Hlv. cbn [mbind option_bind].
  cbv zeta.
  destruct (live (ll_details data)); [| eexists; split; reflexivity].
  eexists. split; [reflexivity |]. cbn [timer set_timer].
  unfold reloadInterval, truthy_num.
  assert (Hd : details (if fragmentError cur then cur else set_loadError 0 cur)
               = details cur) by (destruct (fragmentError cur); reflexivity).
  rewrite Hd.
  destruct (averagetargetduration (ll_details data)) as [a |]; cbn [default negb].
  - destruct (Qeq_bool a 0); cbn [negb];
      (destruct (details cur) as [p |]; [| reflexivity]);
      destruct (endSN (ll_details data) =? endSN p); reflexivity.
  - destruct (details cur) as [p |]; [| reflexivity].
    destruct (endSN (ll_details data) =? endSN p); reflexivity.
Qed.
(** C9: on FRAG_LOADED the handler resets [loadError] to 0 and
    [fragmentError] to false on the level of the fragment, only when the
    fragment's type is 'main'; for any other fragment no level's error
    counters change; and no other field of any level (bitrate, URL list,
    urlId, details, codecs) changes in any case. *)
Theorem onFragLoaded_resets_only_main_errors
    (frag : option Fragment) (s : State) (ls : list Level) :
  _levels s = Some ls ->
  exists ls',
    onFragLoaded frag s = Some (set_levels (Some ls') s)
    /\ length ls' = length ls
    /\ forall j lv, js_nth ls j = Some lv ->
         exists lv',
           js_nth ls' j = Some lv'
           /\ bitrate lv' = bitrate lv /\ url lv' = url lv
           /\ urlId lv' = urlId lv /\ details lv' = details lv
           /\ audioCodec lv' = audioCodec lv /\ videoCodec lv' = videoCodec lv
           /\ lvl_level lv' = lvl_level lv
           /\ if is_main frag && bool_decide (Some j = frag_level <$> frag)
              then loadError lv' = 0 /\ fragmentError lv' = false
              else loadError lv' = loadError lv
                   /\ fragmentError lv' = fragmentError lv.
Proof.
  intros Hls.
  assert (Hsame : set_levels (Some ls) s = s)
    by (destruct s; unfold set_levels; cbn in *; subst; reflexivity).
  assert (Hkeep : forall j lv, js_nth ls j = Some lv ->
            exists lv', js_nth ls j = Some lv'
              /\ bitrate lv' = bitrate lv /\ url lv' = url lv
              /\ urlId lv' = urlId lv /\ details lv' = details lv
              /\ audioCodec lv' = audioCodec lv /\ videoCodec lv' = videoCodec lv
              /\ lvl_level lv' = lvl_level lv
              /\ loadError lv' = loadError lv
              /\ fragmentError lv' = fragmentError lv)
    by (intros j lv Hj; exists lv; repeat split; assumption).
  assert (Hnone : forall b : bool, b = false ->
            exists ls',
              Some s = Some (set_levels (Some ls') s)
              /\ length ls' = length ls
              /\ forall j lv, js_nth ls j = Some lv ->
                   exists lv',
                     js_nth ls' j = Some lv'
                     /\ bitrate lv' = bitrate lv /\ url lv' = url lv
                     /\ urlId lv' = urlId lv /\ details lv' = details lv
                     /\ audioCodec lv' = audioCodec lv /\ videoCodec lv' = videoCodec lv
                     /\ lvl_level lv' = lvl_level lv
                     /\ if b
                        then loadError lv' = 0 /\ fragmentError lv' = false
                        else loadError lv' = loadError lv
                             /\ fragmentError lv' = fragmentError lv).
  { intros b ->. exists ls. rewrite Hsame.
    split; [reflexivity |]. split; [reflexivity |]. exact Hkeep. }
  unfold onFragLoaded, is_main.
  destruct frag as [f |];
    [| destruct (Hnone false eq_refl) as [ls' H']; exists ls'; exact H'].
  destruct (String.eqb (frag_type f) "main") eqn:Hmain;
    [| destruct (Hnone false eq_refl) as [ls' H']; exists ls'; exact H'].
  rewrite Hls. cbn [mbind option_bind fmap option_fmap option_map andb].
  destruct (js_nth ls (frag_level f)) as [lv0 |] eqn:Hlv0.
  - exists (js_set ls (frag_level f) (set_loadError 0 (set_fragmentError false lv0))).
    split; [reflexivity |]. split; [apply js_set_length |].
    intros j lv Hj.
    destruct (decide (j = frag_level f)) as [-> | Hne].
    + rewrite bool_decide_eq_true_2 by reflexivity.
      rewrite Hlv0 in Hj. injection Hj as <-.
      eexists. split; [eapply js_nth_set_eq; exact Hlv0 |].
      cbn. repeat split; reflexivity.
    + rewrite bool_decide_eq_false_2 by congruence.
      rewrite js_nth_set_ne by congruence.
      destruct (Hkeep j lv Hj) as [lv' Hlv']. exists lv'. exact Hlv'.
  - exists ls. rewrite Hsame. split; [reflexivity |]. split; [reflexivity |].
    intros j lv Hj.
    rewrite bool_decide_eq_false_2
      by (intros [= ->]; pose proof (js_nth_Some _ _ _ Hj); congruence).
    destruct (Hkeep j lv Hj) as [lv' Hlv']. exists lv'. exact Hlv'.
Qed.

End LevelControllerFacts.

(** ** Level controller: the example session *)

Section LevelControllerExamples.
Import LevelController.

(** Level -1 assigned once the example manifest is loaded. *)
Lemma invalid_level_index_example :
  @reachable example_env example_loaded
  /\ exists s',
       set_level (-1) example_loaded = Some s'
       /\ _level s' = _level example_loaded
       /\ level_loadings (events s') = [].
Proof.
  assert (Hr : @reachable example_env example_loaded).
  { eapply (@reachable_step example_env (ManifestLoaded example_manifest));
      [apply reachable_init | reflexivity]. }
  split; [exact Hr |].
  destruct (@invalid_level_index example_env (-1) example_loaded _ Hr eq_refl)
    as [Hneg _].
  destruct (Hneg ltac:(lia)) as (s' & Hs' & _ & Hl & _ & Hload).
  exists s'. split; [exact Hs' |]. split; [exact Hl |].
  rewrite Hload. reflexivity.
Defined.

(** The high level is current and its live playlist is cached: assigning
    level 1 again changes nothing and requests no reload. *)
Lemma current_live_level_not_reloaded :
  exists s lv d,
    @run example_env example_live_actions example_init = Some s
    /\ _level s = Some 1 /\ level_at s 1 = Some lv
    /\ details lv = Some d /\ live d = true
    /\ set_level 1 s = Some s.
Proof.
  eexists _, _, _. split; [vm_compute; reflexivity |].
  repeat split.
Qed.

(** A first live playlist with target duration 6 s and average 4 s: the
    timer is armed with 4000 ms, where the target duration gives 6000.
    And one without average, loaded 0.4 ms after its request: the timer is
    armed with 6000 ms, the rounding of 5999.6. *)
Lemma reload_interval_uses_average_duration :
  exists s s' s'',
    @run example_env (take 2 example_live_actions) example_init = Some s
    /\ onLevelLoaded (mkLevelLoadedData 1 (example_live_details 10) 0) 0 s = Some s'
    /\ timer s' = Some 4000
    /\ (claimed_reloadInterval (example_live_details 10) None 0 0 == 6000)%Q
    /\ onLevelLoaded (mkLevelLoadedData 1 (mkDetails true 10 6 None) 0) (2 # 5) s
         = Some s''
    /\ timer s'' = Some 6000
    /\ (claimed_reloadInterval (mkDetails true 10 6 None) None (2 # 5) 0
        == 29998 # 5)%Q.
Proof.
  eexists _, _, _. split; [vm_compute; reflexivity |].
  split; [vm_compute; reflexivity |]. split; [reflexivity |].
  split; [reflexivity |]. split; [vm_compute; reflexivity |].
  split; reflexivity.
Qed.

(** Three load errors in a row on the high level, which has three URLs. *)
Lemma failover_example :
  @reachable example_env example_loaded
  /\ level_at example_loaded 1 = Some example_high
  /\ exists s' l',
       @onErrors example_env
         [example_frag_error 1; example_frag_error 1; example_frag_error 1]
         example_loaded = Some s'
       /\ level_at s' 1 = Some l' /\ loadError l' = 3 /\ urlId l' = 2
       /\ nextAutoLevel s' = Some 0.
Proof.
  assert (Hr : @reachable example_env example_loaded).
  { eapply (@reachable_step example_env (ManifestLoaded example_manifest));
      [apply reachable_init | reflexivity]. }
  split; [exact Hr |]. split; [reflexivity |].
  destruct (@failover_rotates_then_switches_down example_env 1 example_loaded
              example_high [example_frag_error 1; example_frag_error 1]
              (example_frag_error 1))
    as [_ (s' & l' & Hs' & Hl' & Hle & Hid & Hauto)].
  - exact Hr.
  - reflexivity.
  - reflexivity.
  - reflexivity.
  - repeat constructor.
  - reflexivity.
  - exists s', l'. split; [exact Hs' |]. split; [exact Hl' |].
    split; [exact Hle |]. split; [exact Hid |].
    apply Hauto; [reflexivity | discriminate].
Defined.

(** A live playlist with average target duration 4 s, loaded 250 ms
    after its request: 4000 ms less 250 ms. *)
Lemma reload_interval_example :
  _level example_selected = Some 1
  /\ exists s',
       onLevelLoaded (mkLevelLoadedData 1 (example_live_details 10) 100) 350
         example_selected = Some s'
       /\ timer s' = Some 3750.
Proof.
  split; [reflexivity |].
  destruct (reload_interval_formula
              (mkLevelLoadedData 1 (example_live_details 10) 100) 350
              example_selected
              (set_lvl_level 1 example_high) eq_refl eq_refl)
    as (s' & Hs' & Ht).
  exists s'. split; [exact Hs' |]. rewrite Ht. reflexivity.
Defined.

(** The high level selected for the first time: its playlist is requested
    from its first URL. *)
Lemma level_setter_load_example :
  level_at example_loaded 1 = Some example_high
  /\ exists s' new,
       set_level 1 example_loaded = Some s'
       /\ events s' = events example_loaded ++ new
       /\ level_loadings new = [(Some "http://a/high.m3u8", 1, 0)].
Proof.
  split; [reflexivity |].
  destruct (level_setter_load_condition 1 example_loaded example_high eq_refl)
    as (s' & new & Hs' & Hev & Hload).
  exists s', new. split; [exact Hs' |]. split; [exact Hev | exact Hload].
Defined.

(** An audio fragment loaded: the level list keeps its two levels. *)
Lemma onFragLoaded_example :
  exists ls',
    onFragLoaded (Some (mkFragment "audio" 1 (SNnum 3) 0 false 0 10)) example_loaded
      = Some (set_levels (Some ls') example_loaded)
    /\ length ls' = 2%nat.
Proof.
  destruct (onFragLoaded_resets_only_main_errors
              (Some (mkFragment "audio" 1 (SNnum 3) 0 false 0 10)) example_loaded
              _ eq_refl) as (ls' & Hs' & Hlen & _).
  exists ls'. split; [exact Hs' | exact Hlen].
Defined.

(** The invariant before and after a load error on the high level. *)
Lemma urlId_in_range_example :
  @reachable example_env example_loaded
  /\ urlIds_ok example_loaded
  /\ exists s',
       @step example_env (Error (example_frag_error 1)) example_loaded = Some s'
       /\ urlIds_ok s'.
Proof.
  assert (Hr : @reachable example_env example_loaded).
  { eapply (@reachable_step example_env (ManifestLoaded example_manifest));
      [apply reachable_init | reflexivity]. }
  split; [exact Hr |].
  destruct (@step example_env (Error (example_frag_error 1)) example_loaded)
    as [s' |] eqn:Hs'; [| discriminate Hs'].
  destruct (@urlId_stays_in_range example_env _ _ _ Hr Hs') as (Hok & Hok' & _).
  split; [exact Hok |]. exists s'. split; [reflexivity | exact Hok'].
Defined.
End LevelControllerExamples.

(** ** Audio stream controller: properties *)

Section AudioStreamControllerFacts.
Import AudioStreamController.
Context {env : Env} {senv : StreamEnv}.

Lemma is_frag_load_error_inv d :
  is_frag_load_error d = true ->
  err_fatal d = false /\ not_audio (err_frag d) = false
  /\ (err_details d = FRAG_LOAD_ERROR \/ err_details d = FRAG_LOAD_TIMEOUT).
Proof.
  unfold is_frag_load_error. intros H.
  apply andb_prop in H as [H Hd]. apply andb_prop in H as [Hf Hn].
  apply negb_true_iff in Hf, Hn.
  repeat split; try assumption.
  destruct (err_details d); try discriminate; auto.
Qed.

(** Below the retry ceiling a failed load is retried after the backoff
    delay. *)
Lemma onError_retries d now s :
  is_frag_load_error d = true ->
  0 <= fragLoadError s ->
  fragLoadError s + 1 <= fragLoadingMaxRetry (config s) ->
  onError d now s =
    Some (set_state FRAG_LOADING_WAITING_RETRY
            (set_retryDate (now + retryDelay (config s) (fragLoadError s + 1))%Q
               (set_fragLoadError (fragLoadError s + 1) s)), d).
Proof.
  intros Hd H0 Hmax.
  destruct (is_frag_load_error_inv d Hd) as (Hf & Hn & Hdet).
  unfold onError. rewrite Hn.
  assert (Hle : (if fragLoadError s =? 0 then 1 else fragLoadError s + 1)
                = fragLoadError s + 1)
    by (destruct (Z.eqb_spec (fragLoadError s) 0) as [-> | _]; reflexivity).
  destruct Hdet as [-> | ->]; rewrite Hf; cbv zeta; rewrite Hle;
    (destruct (Z.leb_spec (fragLoadError s + 1) (fragLoadingMaxRetry (config s)));
     [reflexivity | lia]).
Qed.

(** Beyond the ceiling the error is made fatal and the controller stops. *)
Lemma onError_gives_up d now s :
  is_frag_load_error d = true ->
  0 <= fragLoadError s ->
  fragLoadingMaxRetry (config s) < fragLoadError s + 1 ->
  onError d now s = Some (set_state ERROR s, set_err_fatal true d).
Proof.
  intros Hd H0 Hmax.
  destruct (is_frag_load_error_inv d Hd) as (Hf & Hn & Hdet).
  unfold onError. rewrite Hn.
  assert (Hle : (if fragLoadError s =? 0 then 1 else fragLoadError s + 1)
                = fragLoadError s + 1)
    by (destruct (Z.eqb_spec (fragLoadError s) 0) as [-> | _]; reflexivity).
  destruct Hdet as [-> | ->]; rewrite Hf; cbv zeta; rewrite Hle;
    (destruct (Z.leb_spec (fragLoadError s + 1) (fragLoadingMaxRetry (config s)));
     [lia | reflexivity]).
Qed.

Lemma retry_run ds : forall s,
  Forall (fun dn => is_frag_load_error (fst dn) = true) ds ->
  0 <= fragLoadError s ->
  fragLoadError s + Z.of_nat (length ds) <= fragLoadingMaxRetry (config s) ->
  exists s' out,
    onErrors ds s = Some (s', out)
    /\ fragLoadError s' = fragLoadError s + Z.of_nat (length ds)
    /\ config s' = config s
    /\ Forall (fun d => err_fatal d = false) out.
Proof.
  induction ds as [| [d now] ds IH]; intros s Hall H0 Hmax.
  - exists s, []. cbn. rewrite Z.add_0_r. repeat split; constructor.
  - apply Forall_cons in Hall as [Hd Hall]. cbn [fst] in Hd.
    cbn [length] in Hmax.
    pose proof (onError_retries d now s Hd H0 ltac:(lia)) as Hs1.
    set (s1 := set_state _ _) in Hs1.
    destruct (IH s1 Hall) as (s' & out & Hs' & Hle & Hc & Hout);
      [cbn; lia | cbn; lia |].
    exists s', (d :: out). cbn [onErrors]. rewrite Hs1. cbn. rewrite Hs'. cbn.
    split; [reflexivity |]. split; [rewrite Hle; cbn; lia |].
    split; [rewrite Hc; reflexivity |].
    constructor; [apply (is_frag_load_error_inv d Hd) | exact Hout].
Qed.

Lemma claimed_delay_eq c k : (retryDelay c k == claimed_delay c k)%Q.
Proof.
  unfold retryDelay, claimed_delay.
  apply Q.min_compat; [apply Qmult_comm | reflexivity].
Qed.

Lemma claimed_delay_capped c k :
  (claimed_delay c k <= fragLoadingMaxRetryTimeout c)%Q.
Proof. apply Q.le_min_r. Qed.

Lemma claimed_delay_mono c k :
  (0 <= fragLoadingRetryDelay c)%Q ->
  (claimed_delay c k <= claimed_delay c (k + 1))%Q.
Proof.
  intros Hd. unfold claimed_delay. apply Q.min_le_compat_r.
  rewrite (Qmult_comm _ (2 ^ (k - 1))), (Qmult_comm _ (2 ^ (k + 1 - 1))).
  apply Qmult_le_compat_r; [| exact Hd].
  apply Qpower_le_compat_l; [lia | discriminate].
Qed.

(** C2: in a run of successive non-fatal fragment-load errors of audio
    fragments starting from fragLoadError 0, the k-th error, for k up to
    config.fragLoadingMaxRetry, puts the controller in
    FRAG_LOADING_WAITING_RETRY with retryDate = now +
    min(fragLoadingRetryDelay x 2^(k-1), fragLoadingMaxRetryTimeout) and
    leaves the error non-fatal; the first error beyond the ceiling sets
    data.fatal and the state ERROR and schedules nothing; the delays are
    non-decreasing in k (for a non-negative base delay) and never exceed
    the maximum. *)
Theorem frag_retry_backoff
    (s : State) (ds : list (ErrorData * Q)) (d : ErrorData) (now : Q) :
  let c := config s in
  let k := Z.of_nat (length ds) + 1 in
  fragLoadError s = 0 ->
  Forall (fun dn => is_frag_load_error (fst dn) = true) (ds ++ [(d, now)]) ->
  k - 1 <= fragLoadingMaxRetry c ->
  (exists s1 out s' d',
     onErrors ds s = Some (s1, out) /\ onError d now s1 = Some (s', d')
     /\ config s' = c
     /\ (k <= fragLoadingMaxRetry c ->
           state s' = FRAG_LOADING_WAITING_RETRY /\ err_fatal d' = false
           /\ fragLoadError s' = k
           /\ (retryDate s' == now + claimed_delay c k)%Q)
     /\ (k = fragLoadingMaxRetry c + 1 ->
           state s' = ERROR /\ err_fatal d' = true
           /\ retryDate s' = retryDate s1
           /\ fragLoadError s' = fragLoadingMaxRetry c))
  /\ forall j,
       (claimed_delay c j <= fragLoadingMaxRetryTimeout c)%Q
       /\ ((0 <= fragLoadingRetryDelay c)%Q ->
           (claimed_delay c j <= claimed_delay c (j + 1))%Q).
Proof.
  intros c k Hzero Hall Hk. subst c k.
  apply Forall_app in Hall as [Hds Hd]. apply Forall_cons in Hd as [Hd _].
  cbn [fst] in Hd.
  split; [| intros j; split;
            [apply claimed_delay_capped | apply claimed_delay_mono]].
  destruct (retry_run ds s Hds) as (s1 & out & Hs1 & Hle & Hc & _);
    [lia | lia |].
  rewrite Hzero in Hle. cbn in Hle.
  destruct (Z.le_gt_cases (Z.of_nat (length ds) + 1) (fragLoadingMaxRetry (config s)))
    as [Hin | Hout].
  - pose proof (onError_retries d now s1 Hd ltac:(lia)
                  ltac:(rewrite Hle, Hc; exact Hin)) as Hs'.
    eexists s1, out, _, d. split; [exact Hs1 |]. split; [exact Hs' |].
    split; [exact Hc |]. split.
    + intros _. split; [reflexivity |].
      split; [apply (is_frag_load_error_inv d Hd) |].
      split; [cbn; lia |]. cbn [retryDate set_state set_retryDate].
      rewrite Hle, Hc. apply Qplus_inj_l. apply claimed_delay_eq.
    + intros Heq. lia.
  - pose proof (onError_gives_up d now s1 Hd ltac:(lia)
                  ltac:(rewrite Hle, Hc; lia)) as Hs'.
    eexists s1, out, _, _. split; [exact Hs1 |]. split; [exact Hs' |].
    split; [exact Hc |]. split.
    + intros Hin. lia.
    + intros Heq. repeat split. cbn. lia.
Qed.
(** C5 (amended): on a BUFFER_FULL_ERROR of the audio source buffer
    (data.parent 'audio') received in PARSING or PARSED with media
    attached: when the playback position is buffered the controller
    returns to IDLE, and halves config.maxMaxBufferLength only if it is
    at least config.maxBufferLength (it is left unchanged otherwise);
    when the position is not buffered it drops the current fragment,
    enters BUFFER_FLUSHING and requests a flush of the audio buffer from
    0 to positive infinity. *)
Theorem buffer_full_recovery (d : ErrorData) (now : Q) (s : State) (m : Media) :
  is_audio_buffer_full d = true ->
  state s = PARSING \/ state s = PARSED ->
  media s = Some m ->
  exists s',
    onError d now s = Some (s', d)
    /\ if position_buffered s m then
         state s' = IDLE /\ events s' = events s
         /\ maxBufferLength (config s') = maxBufferLength (config s)
         /\ maxMaxBufferLength (config s') =
              if Qle_bool (maxBufferLength (config s)) (maxMaxBufferLength (config s))
              then (maxMaxBufferLength (config s) / 2)%Q
              else maxMaxBufferLength (config s)
       else
         state s' = BUFFER_FLUSHING /\ fragCurrent s' = None
         /\ config s' = config s
         /\ events s' = events s ++ [Ev_BUFFER_FLUSHING 0 POSITIVE_INFINITY "audio"].
Proof.
  intros Hd Hst Hm. unfold is_audio_buffer_full in Hd.
  apply andb_prop in Hd as [Hd Hp]. apply andb_prop in Hd as [Hn Hdet].
  apply negb_true_iff in Hn.
  destruct (err_details d) eqn:Hdetails; try discriminate.
  unfold onError. rewrite Hn, Hdetails, Hp.
  assert (Hparsing : match state s with PARSING | PARSED => true | _ => false end = true)
    by (destruct Hst as [-> | ->]; reflexivity).
  rewrite Hparsing, Hm. cbn [andb mbind option_bind]. unfold position_buffered.
  destruct (match mediaBuffer s with
            | Some b => isBuffered b (currentTime m)
                        && isBuffered b (currentTime m + (1 # 2))%Q
            | None => false
            end).
  - destruct (Qle_bool (maxBufferLength (config s)) (maxMaxBufferLength (config s)));
      eexists; (split; [reflexivity |]); repeat split.
  - eexists. split; [reflexivity |]. repeat split.
Qed.

Lemma seek_same_core t s s0 : seek t s = Some s0 -> same_core s s0.
Proof.
  unfold seek. destruct (media s); cbn; [| discriminate].
  intros [= <-]. split; reflexivity.
Qed.

Lemma switch_bufferEnd_same_core sw td info pos start s r :
  switch_bufferEnd sw td info pos start s = Some r ->
  match r with Done s0 | Go _ s0 => same_core s s0 end.
Proof.
  unfold switch_bufferEnd.
  destruct sw; [| intros [= <-]; split; reflexivity].
  destruct (live td && negb (PTSKnown td)); [intros [= <-]; split; reflexivity |].
  destruct (PTSKnown td && Qltb pos start); [| intros [= <-]; split; reflexivity].
  destruct (Qltb start (bi_end info) || truthy_num (bi_nextStart info));
    [| intros [= <-]; split; reflexivity].
  destruct (seek _ s) as [s0 |] eqn:Hseek; cbn; [| discriminate].
  intros [= <-]. eapply seek_same_core; exact Hseek.
Qed.

Lemma chooseFragment_same_core td info bufferEnd start end_ s r :
  chooseFragment td info bufferEnd start end_ s = Some r ->
  match r with Done s0 | Go _ s0 => same_core s s0 end.
Proof.
  unfold chooseFragment.
  destruct (match initSegment td with Some i => negb (init_data i) | None => false end);
    [intros [= <-]; split; reflexivity |].
  destruct (Qltb bufferEnd start).
  - destruct (head (fragments td)) as [frag |]; cbn [mbind option_bind]; [| discriminate].
    destruct (live td); [| intros [= <-]; split; reflexivity].
    destruct (seek _ s) as [s0 |] eqn:Hseek; cbn; [| discriminate].
    intros [= <-]. eapply seek_same_core; exact Hseek.
  - cbv zeta.
    destruct (if Qltb bufferEnd end_ then _ else _) as [frag |];
      [| intros [= <-]; split; reflexivity].
    destruct (fragPrevious s) as [prev |]; [| intros [= <-]; split; reflexivity].
    destruct (_ && _); [| intros [= <-]; split; reflexivity].
    destruct (frag_sn frag) as [n |]; [| intros [= <-]; split; reflexivity].
    destruct (n <? endSN td); [| intros [= <-]; split; reflexivity].
    destruct (js_nth _ _); cbn; [| discriminate].
    intros [= <-]. split; reflexivity.
Qed.

(** The fragment loader parks a fragment only for a missing init PTS. *)
Lemma loadFragment_waits frag td sw s :
  state (loadFragment frag td sw s) = WAITING_INIT_PTS ->
  state s <> WAITING_INIT_PTS ->
  init_pts_missing frag td s /\ to_load frag sw = true
  /\ fragCurrent (loadFragment frag td sw s) = Some frag.
Proof.
  unfold loadFragment, init_pts_missing, to_load.
  destruct (frag_encrypted frag); [discriminate |].
  cbv zeta.
  destruct (sw || match getState frag with NOT_LOADED => true | _ => false end).
  2: { destruct (frag_sn frag); cbn; intros H1 H2; contradiction. }
  destruct (frag_sn frag) as [n |]; [| discriminate].
  cbn [initPTS set_nextLoadPosition set_startFragRequested set_fragCurrent].
  destruct (initSegment td) as [i |]; cbn [defined orb]; [discriminate |].
  destruct (Number_isFinite (initPTS s !! frag_cc frag)); [discriminate |].
  intros _ _. repeat split. eauto.
Qed.

(** A fragment that has to be loaded and lacks its init PTS is parked,
    and the load position is put back. *)
Lemma loadFragment_must_wait frag td sw s :
  init_pts_missing frag td s -> to_load frag sw = true ->
  state (loadFragment frag td sw s) = WAITING_INIT_PTS
  /\ nextLoadPosition (loadFragment frag td sw s) = nextLoadPosition s.
Proof.
  unfold init_pts_missing, to_load, loadFragment.
  intros (Henc & [n Hsn] & Hinit & Hpts) Hload.
  rewrite Henc, Hsn. cbv zeta. rewrite Hload, Hinit.
  cbn [initPTS set_nextLoadPosition set_startFragRequested set_fragCurrent
       defined orb].
  rewrite Hpts. split; reflexivity.
Qed.

Lemma doTick_IDLE_waits s s' :
  doTick_IDLE s = Some s' ->
  state s = IDLE -> state s' = WAITING_INIT_PTS ->
  exists frag td,
    track_details s = Some td /\ fragCurrent s' = Some frag
    /\ init_pts_missing frag td s /\ to_load frag (audioSwitch s) = true.
Proof.
  unfold doTick_IDLE, track_details. intros Htick Hidle Hwait.
  assert (Hno : forall t, same_core s t -> Some t = Some s' -> False).
  { intros t [Hst _] [= <-]. congruence. }
  destruct (levels s) as [lvls |]; [| exfalso; eapply Hno; [split |]; eauto].
  destruct (negb (defined (media s)) && _);
    [exfalso; eapply Hno; [split |]; eauto |].
  destruct (if loadedmetadata s then _ else _) as [pos |];
    cbn [mbind option_bind] in Htick |- *; [| discriminate].
  destruct pos as [pos |]; [| exfalso; eapply Hno; [split |]; eauto].
  destruct (js_nth lvls (trackId s)) as [levelInfo |];
    [| exfalso; eapply Hno; [split |]; eauto].
  cbv zeta in Htick. cbn [mbind option_bind].
  destruct (Qltb _ _ || audioSwitch s);
    [| exfalso; eapply Hno; [split |]; eauto].
  destruct (details levelInfo) as [td |];
    [| injection Htick as <-; cbn in Hwait; discriminate].
  destruct (negb (audioSwitch s) && _);
    [injection Htick as <-; cbn in Hwait; discriminate |].
  destruct (last (fragments td)) as [lastFrag |];
    cbn [mbind option_bind] in Htick; [| discriminate].
  destruct (head (fragments td)) as [firstFrag |];
    cbn [mbind option_bind] in Htick; [| discriminate].
  destruct (switch_bufferEnd _ _ _ _ _ s) as [r1 |] eqn:Hr1;
    cbn [mbind option_bind] in Htick; [| discriminate].
  apply switch_bufferEnd_same_core in Hr1.
  destruct r1 as [s1 | bufferEnd s1]; [exfalso; eapply Hno; eauto |].
  destruct (chooseFragment _ _ _ _ _ s1) as [r2 |] eqn:Hr2;
    cbn [mbind option_bind] in Htick; [| discriminate].
  apply chooseFragment_same_core in Hr2.
  assert (Hcore : forall t, same_core s1 t -> same_core s t)
    by (intros t [H1 H2]; destruct Hr1 as [H3 H4]; split; congruence).
  destruct r2 as [s2 | [frag |] s2];
    [exfalso; apply (Hno s2); [apply Hcore; exact Hr2 | exact Htick] |
     | exfalso; apply (Hno s2); [apply Hcore; exact Hr2 | exact Htick]].
  injection Htick as <-.
  destruct (Hcore s2 Hr2) as [Hst2 Hpts2].
  destruct (loadFragment_waits frag td (audioSwitch s) s2 Hwait)
    as (Hmiss & Hload & Hcur); [congruence |].
  exists frag, td. split; [reflexivity |]. split; [exact Hcur |].
  split; [| exact Hload].
  unfold init_pts_missing in *. rewrite <- Hpts2. exact Hmiss.
Qed.

(** C7 (amended): a tick takes the controller into WAITING_INIT_PTS
    from IDLE only with a chosen fragment that has to be loaded, a media
    fragment that is not encrypted, in a track without init segment,
    whose continuity counter has no finite initPTS, and the fragment
    loader parks every such fragment; and from WAITING_TRACK as soon as
    the track's details are available, whatever the init PTS table holds.  From
    WAITING_INIT_PTS a tick goes to IDLE exactly when
    initPTS[videoTrackCC], the entry of the continuity counter the video
    track published last, is finite, and stays otherwise; onInitPtsFound
    with a finite value in WAITING_INIT_PTS records it and returns to
    IDLE at once. *)
Theorem waiting_init_pts_entry_and_exit (now : Q) (s : State) :
  (forall s', doTick now s = Some s' -> state s' = WAITING_INIT_PTS ->
     state s = WAITING_INIT_PTS
     \/ (state s = WAITING_TRACK /\ exists td, track_details s = Some td)
     \/ (state s = IDLE
         /\ exists frag td,
              track_details s = Some td /\ fragCurrent s' = Some frag
              /\ init_pts_missing frag td s
              /\ to_load frag (audioSwitch s) = true))
  /\ (forall frag td,
        init_pts_missing frag td s -> to_load frag (audioSwitch s) = true ->
        state (loadFragment frag td (audioSwitch s) s) = WAITING_INIT_PTS)
  /\ (state s = WAITING_TRACK -> forall td, track_details s = Some td ->
        doTick now s = Some (set_state WAITING_INIT_PTS s))
  /\ (state s = WAITING_INIT_PTS ->
        doTick now s =
          Some (if Number_isFinite (initPTS s !! videoTrackCC s)
                then set_state IDLE s else s))
  /\ (state s = WAITING_INIT_PTS -> forall frag q,
        exists s',
          onInitPtsFound frag (Num q) now s = Some s' /\ state s' = IDLE
          /\ initPTS s' !! frag_cc frag = Some (Num q)
          /\ videoTrackCC s' = frag_cc frag).
Proof.
  split; [| split; [| split; [| split]]].
  2: { intros frag td Hmiss Hload.
       apply (loadFragment_must_wait frag td (audioSwitch s) s Hmiss Hload). }
  - intros s' Htick Hwait. unfold doTick in Htick.
    destruct (state s) eqn:Hst;
      try (injection Htick as <-; cbn in Hwait; congruence).
    + right. right. split; [reflexivity |].
      apply (doTick_IDLE_waits s s' Htick Hst Hwait).
    + destruct (_ || _) in Htick; injection Htick as <-; cbn in Hwait; congruence.
    + right. left. split; [reflexivity |]. unfold track_details.
      destruct (levels s) as [lvls |]; [| injection Htick as <-; congruence].
      cbn [mbind option_bind].
      destruct (js_nth lvls (trackId s)) as [t |];
        [| injection Htick as <-; congruence].
      cbn [mbind option_bind].
      destruct (details t) as [td |]; [eauto |].
      injection Htick as <-. congruence.
    + left. reflexivity.
  - intros Hst td Htd. unfold doTick. rewrite Hst.
    unfold track_details in Htd.
    destruct (levels s) as [lvls |]; cbn in Htd; [| discriminate].
    destruct (js_nth lvls (trackId s)) as [t |]; cbn in Htd; [| discriminate].
    rewrite Htd. reflexivity.
  - intros Hst. unfold doTick. rewrite Hst.
    destruct (Number_isFinite _); reflexivity.
  - intros Hst frag q. unfold onInitPtsFound, tick, doTick.
    cbn [state set_videoTrackCC set_initPTS initPTS videoTrackCC].
    rewrite Hst. rewrite lookup_insert_eq. cbn [Number_isFinite].
    eexists. split; [reflexivity |]. cbn.
    split; [reflexivity |]. split; [apply lookup_insert_eq | reflexivity].
Qed.

End AudioStreamControllerFacts.

(** ** Audio stream controller: the example session *)

Section AudioStreamControllerExamples.
Import AudioStreamController.

(** The video track has published continuity counter 0 only.  The audio
    controller picks the fragment of counter 1 and waits; the next tick
    takes it back to IDLE although no init PTS is known for counter 1.
    And with the init PTS of both counters known, a tick in WAITING_TRACK
    still enters WAITING_INIT_PTS. *)
Lemma init_pts_wait_ends_before_awaited_cc :
  (exists s1 s2 frag,
     @onInitPtsFound example_stream_env example_video_frag (Num 900000) 0
       (example_state IDLE []) = Some example_idle
     /\ @doTick example_stream_env 0 example_idle = Some s1
     /\ state s1 = WAITING_INIT_PTS
     /\ fragCurrent s1 = Some frag /\ frag_cc frag = 1
     /\ @doTick example_stream_env 0 s1 = Some s2
     /\ state s2 = IDLE
     /\ Number_isFinite (initPTS s2 !! 1) = false)
  /\ (exists s0 s1,
        s0 = set_state WAITING_TRACK
               (set_initPTS (<[1 := Num 900000]> (initPTS example_idle)) example_idle)
        /\ Number_isFinite (initPTS s0 !! 0) = true
        /\ Number_isFinite (initPTS s0 !! 1) = true
        /\ @doTick example_stream_env 0 s0 = Some s1
        /\ state s1 = WAITING_INIT_PTS).
Proof.
  split.
  - eexists _, _, _. split; [reflexivity |]. split; [vm_compute; reflexivity |].
    split; [reflexivity |]. split; [reflexivity |]. split; [reflexivity |].
    split; [vm_compute; reflexivity |]. split; reflexivity.
  - eexists _, _. split; [reflexivity |].
    split; [reflexivity |]. split; [reflexivity |].
    split; [vm_compute; reflexivity |]. reflexivity.
Qed.

(** The controller waits, the video track publishes an init PTS, and the
    controller is back in IDLE. *)
Lemma init_pts_published_example :
  exists s1 s2,
    @doTick example_stream_env 0 example_idle = Some s1
    /\ state s1 = WAITING_INIT_PTS
    /\ @onInitPtsFound example_stream_env example_video_frag (Num 900000) 0 s1 = Some s2
    /\ state s2 = IDLE.
Proof.
  destruct (@doTick example_stream_env 0 example_idle) as [s1 |] eqn:Hs1;
    [| discriminate Hs1].
  assert (Hst : state s1 = WAITING_INIT_PTS)
    by (injection Hs1 as <-; reflexivity).
  destruct (@waiting_init_pts_entry_and_exit example_stream_env 0 s1)
    as (_ & _ & _ & _ & Hpub).
  destruct (Hpub Hst example_video_frag 900000%Q) as (s2 & Hs2 & Hidle & _).
  exists s1, s2. split; [reflexivity |]. split; [exact Hst |].
  split; [exact Hs2 | exact Hidle].
Defined.

(** The position is buffered and the secondary ceiling (10 s) is below
    the primary one (30 s): back to IDLE, ceiling still 10 s.  And a
    capacity error of the video source buffer, received while parsing,
    changes nothing. *)
Lemma buffer_full_not_halved :
  (exists s' m,
     @onError example_env example_buffer_full 0 example_tight
       = Some (s', example_buffer_full)
     /\ state example_tight = PARSING
     /\ media example_tight = Some m
     /\ @position_buffered example_env example_tight m = true
     /\ state s' = IDLE
     /\ (maxMaxBufferLength (config example_tight) == 10)%Q
     /\ (maxMaxBufferLength (config s') == 10)%Q)
  /\ @onError example_env example_video_buffer_full 0
        (example_state PARSING [(0, 10)%Q])
      = Some (example_state PARSING [(0, 10)%Q], example_video_buffer_full).
Proof.
  split; [| vm_compute; reflexivity].
  eexists _, _. split; [vm_compute; reflexivity |].
  split; [reflexivity |]. split; [reflexivity |].
  split; [vm_compute; reflexivity |]. repeat split.
Qed.

(** The position is buffered and the ceilings are 30 s and 600 s: back to
    IDLE with the secondary ceiling halved. *)
Lemma buffer_full_example :
  exists s',
    @onError example_env example_buffer_full 0 (example_state PARSING [(0, 10)%Q])
      = Some (s', example_buffer_full)
    /\ state s' = IDLE
    /\ maxMaxBufferLength (config s') = (600 / 2)%Q.
Proof.
  destruct (@buffer_full_recovery example_env example_buffer_full 0
              (example_state PARSING [(0, 10)%Q]) (mkMedia 0 false [(0, 10)%Q])
              eq_refl (or_introl eq_refl) eq_refl) as (s' & Hs' & Hif).
  exists s'. split; [exact Hs' |].
  exact (conj (proj1 Hif) (proj2 (proj2 (proj2 Hif)))).
Defined.

(** The second load error in a row, at time 7: retry at 7 + 2000 ms. *)
Lemma frag_retry_example :
  fragLoadError (example_state FRAG_LOADING []) = 0
  /\ exists s1 out s' d',
       @onErrors example_env [(example_load_error, 5%Q)] (example_state FRAG_LOADING [])
         = Some (s1, out)
       /\ @onError example_env example_load_error 7 s1 = Some (s', d')
       /\ state s' = FRAG_LOADING_WAITING_RETRY
       /\ (retryDate s' == 7 + 2000)%Q.
Proof.
  split; [reflexivity |].
  destruct (@frag_retry_backoff example_env (example_state FRAG_LOADING [])
              [(example_load_error, 5%Q)] example_load_error 7)
    as [(s1 & out & s' & d' & Hs1 & Hs' & _ & Hretry & _) _].
  - reflexivity.
  - repeat constructor.
  - discriminate.
  - destruct Hretry as (Hst & _ & _ & Hdate); [discriminate |].
    exists s1, out, s', d'. split; [exact Hs1 |]. split; [exact Hs' |].
    split; [exact Hst |]. rewrite Hdate. reflexivity.
Defined.

End AudioStreamControllerExamples.

(** ** AAC demuxer: properties *)

Section AACDemuxerFacts.
Import AACDemuxer.
Context {parsers : Parsers}.

(** What the loop leaves in the cache is what was there, or the rest of
    the buffer from some offset on. *)
Lemma demux_loop_caches_suffix fuel : forall data basePTS offset stamp ids s s',
  demux_loop fuel data basePTS offset stamp ids s = Returned s' ->
  cachedData s' = cachedData s \/ exists n, cachedData s' = drop n data.
Proof.
  induction fuel as [| fuel IH]; intros data basePTS offset stamp ids s s';
    cbn [demux_loop]; [discriminate |].
  destruct (offset <=? Z.of_nat (length data)); [| intros [= <-]; left; reflexivity].
  destruct (ADTS_isHeader data offset && _ && _).
  - destruct (ADTS_appendFrame _ data offset basePTS (frameIndex s)) as [frame |].
    + intros Hloop. apply IH in Hloop as [Hc | Hn]; [left; exact Hc | right; exact Hn].
    + intros [= <-]. right. eexists. reflexivity.
  - destruct (ID3_isHeader data offset).
    + destruct (ID3_getID3Data data offset) as [id3Data |]; [| discriminate].
      intros Hloop. apply IH in Hloop. exact Hloop.
    + intros [= <-]. right. eexists. reflexivity.
Qed.


(** A frame that ends exactly where the buffer ends is not parsed: the
    loop caches it and stops. *)
Lemma demux_loop_frame_at_end fuel data basePTS offset stamp ids s :
  offset <= Z.of_nat (length data) ->
  ADTS_getFullFrameLength data offset = Z.of_nat (length data) - offset ->
  ID3_isHeader data offset = false ->
  demux_loop (S fuel) data basePTS offset stamp ids s =
    Returned (mkState (_audioTrack s) (frameIndex s) (slice data offset)).
Proof.
  intros Hoff Hfull Hid3. cbn [demux_loop].
  destruct (Z.leb_spec offset (Z.of_nat (length data))) as [_ | ?]; [| lia].
  rewrite Hfull, Z.ltb_irrefl, andb_false_r, Hid3. reflexivity.
Qed.

(** X23: a buffer that holds exactly one complete frame, with nothing
    cached before it and no ID3 tag, yields no sample: the whole frame
    goes to the cache, and the track and the frame index stay as they
    are. *)
Theorem lone_complete_frame_is_cached data timeOffset s :
  cachedData s = [] ->
  ID3_getID3Data data 0 = None -> ID3_isHeader data 0 = false ->
  ADTS_getFullFrameLength data 0 = Z.of_nat (length data) ->
  demux data timeOffset s =
    Returned (mkState (_audioTrack s) (frameIndex s) data).
Proof.
  intros Hc Hno Hid3 Hfull. unfold demux. rewrite Hc. cbv zeta.
  change (0 <? Z.of_nat (length (@nil Z))) with false. cbv iota.
  rewrite Hno. cbn [default length].
  change (Z.of_nat 0) with 0.
  rewrite demux_loop_frame_at_end; [| lia | rewrite Hfull; lia | exact Hid3].
  destruct s as [track idx cached]. cbn in Hc |- *. subst cached.
  unfold slice. reflexivity.
Qed.

End AACDemuxerFacts.

(** ** AAC demuxer: termination with the ADTS and ID3 framing *)

Section AACDemuxerTermination.
Import AACDemuxer.
Variable getTimeStamp : Bytes -> option Q.

Lemma u8_nonneg_land data i m : 0 <= m -> 0 <= Z.land (u8 data i) m.
Proof. intros Hm. apply Z.land_nonneg. right. exact Hm. Qed.

Lemma id3_readSize_nonneg data offset : 0 <= id3_readSize data offset.
Proof.
  unfold id3_readSize.
  repeat (apply Z.lor_nonneg; split);
    try apply Z.shiftl_nonneg; apply u8_nonneg_land; lia.
Qed.

(** A frame that [appendFrame] accepts is at least 8 bytes long. *)
Lemma adts_appendFrame_length track data offset basePTS frameIndex frame :
  adts_appendFrame track data offset basePTS frameIndex = Some frame ->
  0 < frame_length frame.
Proof.
  unfold adts_appendFrame, adts_getHeaderLength.
  destruct (Z.ltb_spec 0 (adts_getFullFrameLength data offset
                          - (if Z.land (u8 data (offset + 1)) 1 =? 0 then 9 else 7)))
    as [Hpos | _]; cbn [andb]; [| discriminate].
  destruct (_ <=? _); [| discriminate].
  intros [= <-]. cbn [frame_length].
  destruct (Z.land (u8 data (offset + 1)) 1 =? 0); lia.
Qed.

Lemma id3_isHeader_length data offset :
  id3_isHeader data offset = true -> offset + 10 <= Z.of_nat (length data).
Proof.
  unfold id3_isHeader.
  destruct (Z.leb_spec (offset + 10) (Z.of_nat (length data))) as [Hlen | _];
    cbn [andb]; [intros _; exact Hlen | discriminate].
Qed.

(** A tag that [getID3Data] returns holds at least its 10 header bytes. *)
Lemma id3_getID3Data_length data offset id3Data :
  0 <= offset ->
  id3_getID3Data data offset = Some id3Data -> (10 <= length id3Data)%nat.
Proof.
  intros Hoff. unfold id3_getID3Data, id3_isHeader.
  destruct (Z.leb_spec (offset + 10) (Z.of_nat (length data))) as [Hlen | _];
    cbn [andb]; [| discriminate].
  destruct (_ && _); [| discriminate].
  intros [= <-]. unfold subarray.
  pose proof (id3_readSize_nonneg data (offset + 6)) as Hsize.
  rewrite length_take, length_drop. lia.
Qed.

(** With the ADTS and ID3 framing the loop always ends by returning, given
    one round of fuel per remaining byte and one more. *)
Lemma demux_loop_returns fuel : forall data basePTS offset stamp ids s,
  0 <= offset -> (1 <= fuel)%nat ->
  Z.of_nat (length data) - offset < Z.of_nat fuel ->
  exists s',
    @demux_loop (parsers getTimeStamp) fuel data basePTS offset stamp ids s
      = Returned s'.
Proof.
  induction fuel as [| fuel IH]; intros data basePTS offset stamp ids s Hoff H1 Hfuel;
    [lia |].
  cbn [demux_loop].
  destruct (Z.leb_spec offset (Z.of_nat (length data))) as [Hin | _]; [| eauto].
  cbn [ADTS_isHeader ADTS_getFullFrameLength ADTS_initTrackConfig ADTS_appendFrame
       ID3_isHeader ID3_getID3Data parsers].
  destruct (adts_isHeader data offset); cbn [andb].
  - destruct (Z.ltb_spec (offset + 5) (Z.of_nat (length data))) as [H5 | _];
      cbn [andb]; [| destruct (id3_isHeader data offset) eqn:Hid3].
    + destruct (adts_getFullFrameLength data offset <? Z.of_nat (length data) - offset).
      * destruct (adts_appendFrame _ data offset basePTS (frameIndex s))
          as [frame |] eqn:Hframe; [| eauto].
        apply adts_appendFrame_length in Hframe.
        apply IH; lia.
      * destruct (id3_isHeader data offset) eqn:Hid3; [| eauto].
        unfold id3_getID3Data. rewrite Hid3.
        assert (Hlen : (10 <= length (subarray data offset
                          (offset + 10 + id3_readSize data (offset + 6))))%nat).
        { apply (id3_getID3Data_length data offset); [exact Hoff |].
          unfold id3_getID3Data. rewrite Hid3. reflexivity. }
        apply id3_isHeader_length in Hid3.
        apply IH; lia.
    + unfold id3_getID3Data. rewrite Hid3.
      assert (Hlen : (10 <= length (subarray data offset
                        (offset + 10 + id3_readSize data (offset + 6))))%nat).
      { apply (id3_getID3Data_length data offset); [exact Hoff |].
        unfold id3_getID3Data. rewrite Hid3. reflexivity. }
      apply id3_isHeader_length in Hid3.
      apply IH; lia.
    + eauto.
  - destruct (id3_isHeader data offset) eqn:Hid3; [| eauto].
    unfold id3_getID3Data. rewrite Hid3.
    assert (Hlen : (10 <= length (subarray data offset
                      (offset + 10 + id3_readSize data (offset + 6))))%nat).
    { apply (id3_getID3Data_length data offset); [exact Hoff |].
      unfold id3_getID3Data. rewrite Hid3. reflexivity. }
    apply id3_isHeader_length in Hid3.
    apply IH; lia.
Qed.

(** X24: with the ADTS and ID3 framing, [demux] returns on every input
    and from every state: it neither raises nor runs out of the rounds its
    loop is given, one per byte of the buffer and one more. *)
Theorem demux_returns data timeOffset s :
  exists s', @demux (parsers getTimeStamp) data timeOffset s = Returned s'.
Proof.
  unfold demux. apply demux_loop_returns; lia.
Qed.

End AACDemuxerTermination.

(** ** AAC demuxer: chunk invariance *)

Section AACDemuxerChunks.
Import AACDemuxer.
Variable getTimeStamp : Bytes -> option Q.

(** With enough fuel the result does not depend on the fuel, nor on the
    loop's locals [stamp] and [id3Samples]. *)
Lemma demux_loop_fuel fuel1 : forall fuel2 data basePTS offset st1 st2 ids1 ids2 s,
  0 <= offset -> (1 <= fuel1)%nat -> (1 <= fuel2)%nat ->
  Z.of_nat (length data) - offset < Z.of_nat fuel1 ->
  Z.of_nat (length data) - offset < Z.of_nat fuel2 ->
  @demux_loop (parsers getTimeStamp) fuel1 data basePTS offset st1 ids1 s
  = @demux_loop (parsers getTimeStamp) fuel2 data basePTS offset st2 ids2 s.
Proof.
  induction fuel1 as [| fuel1 IH];
    intros fuel2 data basePTS offset st1 st2 ids1 ids2 s Hoff H1 H2 Hf1 Hf2; [lia |].
  destruct fuel2 as [| fuel2]; [lia |].
  cbn [demux_loop].
  destruct (Z.leb_spec offset (Z.of_nat (length data))) as [Hin | _]; [| reflexivity].
  cbn [ADTS_isHeader ADTS_getFullFrameLength ADTS_initTrackConfig ADTS_appendFrame
       ID3_isHeader ID3_getID3Data parsers].
  destruct (adts_isHeader data offset && (offset + 5 <? Z.of_nat (length data))
            && (adts_getFullFrameLength data offset <? Z.of_nat (length data) - offset))
    eqn:Hadts.
  - destruct (adts_appendFrame _ data offset basePTS (frameIndex s))
      as [frame |] eqn:Hframe; [| reflexivity].
    apply adts_appendFrame_length in Hframe.
    apply andb_prop in Hadts as [Hadts _]. apply andb_prop in Hadts as [_ H5].
    apply Z.ltb_lt in H5. apply IH; lia.
  - destruct (id3_isHeader data offset) eqn:Hh; [| reflexivity].
    destruct (id3_getID3Data data offset) as [id3Data |] eqn:Hget; [| reflexivity].
    pose proof (id3_getID3Data_length data offset id3Data Hoff Hget) as Hlen.
    apply id3_isHeader_length in Hh. apply IH; lia.
Qed.

(** [loop] is what the loop returns with enough fuel. *)
Lemma loop_spec fuel data basePTS offset stamp ids s :
  0 <= offset -> (1 <= fuel)%nat ->
  Z.of_nat (length data) - offset < Z.of_nat fuel ->
  @demux_loop (parsers getTimeStamp) fuel data basePTS offset stamp ids s
  = Returned (loop getTimeStamp data basePTS offset s).
Proof.
  intros Hoff H1 Hfuel. unfold loop.
  destruct (demux_loop_returns getTimeStamp (S (Z.to_nat (Z.of_nat (length data) - offset)))
              data basePTS offset basePTS [] s) as [s' Hs']; [lia | lia | lia |].
  rewrite Hs'. rewrite <- Hs'. apply demux_loop_fuel; lia.
Qed.

(** One round of the loop, where no ID3 tag starts. *)
Lemma loop_unfold data basePTS offset s :
  0 <= offset <= Z.of_nat (length data) ->
  id3_isHeader data offset = false ->
  loop getTimeStamp data basePTS offset s =
    if adts_isHeader data offset && (offset + 5 <? Z.of_nat (length data))
       && (adts_getFullFrameLength data offset <? Z.of_nat (length data) - offset) then
      let track := adts_initTrackConfig (_audioTrack s) data offset in
      match adts_appendFrame track data offset basePTS (frameIndex s) with
      | Some frame =>
          loop getTimeStamp data basePTS (offset + frame_length frame)
            (mkState (push_sample (frame_sample frame) track)
               (frameIndex s + 1) (cachedData s))
      | None => mkState track (frameIndex s) (slice data offset)
      end
    else mkState (_audioTrack s) (frameIndex s) (slice data offset).
Proof.
  intros Hoff Hid3.
  pose proof (loop_spec (S (Z.to_nat (Z.of_nat (length data) - offset)))
                data basePTS offset basePTS [] s) as Hspec.
  specialize (Hspec ltac:(lia) ltac:(lia) ltac:(lia)).
  cbn [demux_loop] in Hspec.
  destruct (Z.leb_spec offset (Z.of_nat (length data))) as [_ | ?]; [| lia].
  cbn [ADTS_isHeader ADTS_getFullFrameLength ADTS_initTrackConfig ADTS_appendFrame
       ID3_isHeader ID3_getID3Data parsers] in Hspec.
  rewrite Hid3 in Hspec. cbv zeta.
  destruct (adts_isHeader data offset && (offset + 5 <? Z.of_nat (length data))
            && (adts_getFullFrameLength data offset <? Z.of_nat (length data) - offset))
    eqn:Hadts.
  - destruct (adts_appendFrame _ data offset basePTS (frameIndex s))
      as [frame |] eqn:Hframe.
    + apply adts_appendFrame_length in Hframe.
      apply andb_prop in Hadts as [Hadts _]. apply andb_prop in Hadts as [_ H5].
      apply Z.ltb_lt in H5.
      rewrite loop_spec in Hspec by lia.
      injection Hspec as Hspec. symmetry. exact Hspec.
    + injection Hspec as Hspec. symmetry. exact Hspec.
  - injection Hspec as Hspec. symmetry. exact Hspec.
Qed.

(** *** Reading a prefix of the buffer, and reading from an offset *)

Lemma byte_at_app (data rest : Bytes) i :
  i < Z.of_nat (length data) -> byte_at (data ++ rest) i = byte_at data i.
Proof.
  intros Hi. unfold byte_at, js_nth.
  destruct (Z.ltb_spec i 0) as [_ | Hpos]; [reflexivity |].
  apply lookup_app_l. lia.
Qed.

Lemma byte_at_drop (o : nat) (data : Bytes) i :
  0 <= i -> byte_at (drop o data) i = byte_at data (Z.of_nat o + i).
Proof.
  intros Hi. unfold byte_at, js_nth.
  destruct (Z.ltb_spec i 0) as [? | _]; [lia |].
  destruct (Z.ltb_spec (Z.of_nat o + i) 0) as [? | _]; [lia |].
  rewrite lookup_drop. f_equal. lia.
Qed.

Lemma u8_app (data rest : Bytes) i :
  i < Z.of_nat (length data) -> u8 (data ++ rest) i = u8 data i.
Proof. intros Hi. unfold u8. rewrite byte_at_app by exact Hi. reflexivity. Qed.

Lemma u8_drop (o : nat) (data : Bytes) i :
  0 <= i -> u8 (drop o data) i = u8 data (Z.of_nat o + i).
Proof. intros Hi. unfold u8. rewrite byte_at_drop by exact Hi. reflexivity. Qed.

Lemma subarray_app (data rest : Bytes) a b :
  b <= Z.of_nat (length data) -> subarray (data ++ rest) a b = subarray data a b.
Proof.
  intros Hb. unfold subarray.
  destruct (Nat.le_gt_cases (Z.to_nat a) (length data)) as [Ha | Ha].
  - rewrite drop_app_le by exact Ha. apply take_app_le. rewrite length_drop. lia.
  - replace (Z.to_nat b - Z.to_nat a)%nat with 0%nat by lia. reflexivity.
Qed.

Lemma subarray_drop (o : nat) (data : Bytes) a b :
  0 <= a -> 0 <= b ->
  subarray (drop o data) a b = subarray data (Z.of_nat o + a) (Z.of_nat o + b).
Proof.
  intros Ha Hb. unfold subarray. rewrite drop_drop.
  f_equal; [lia | f_equal; lia].
Qed.

Lemma slice_drop (o : nat) (data : Bytes) offset :
  0 <= offset -> slice (drop o data) offset = slice data (Z.of_nat o + offset).
Proof. intros Hoff. unfold slice. rewrite drop_drop. f_equal. lia. Qed.

(** The guard of the loop and what it reads, on a buffer that goes on
    after the frame. *)
Section Prefix.
Variables (data rest : Bytes) (offset : Z).
Hypothesis Hoff : 0 <= offset.
Hypothesis H5 : offset + 5 < Z.of_nat (length data).

Lemma adts_isHeader_app :
  adts_isHeader (data ++ rest) offset = adts_isHeader data offset.
Proof.
  unfold adts_isHeader. rewrite byte_at_app, u8_app by lia.
  rewrite length_app.
  destruct (Z.ltb_spec (offset + 1) (Z.of_nat (length data))) as [_ | ?]; [| lia].
  destruct (Z.ltb_spec (offset + 1) (Z.of_nat (length data + length rest)))
    as [_ | ?]; [reflexivity | lia].
Qed.

Lemma adts_getFullFrameLength_app :
  adts_getFullFrameLength (data ++ rest) offset = adts_getFullFrameLength data offset.
Proof. unfold adts_getFullFrameLength. rewrite !u8_app by lia. reflexivity. Qed.

Lemma adts_getHeaderLength_app :
  adts_getHeaderLength (data ++ rest) offset = adts_getHeaderLength data offset.
Proof. unfold adts_getHeaderLength. rewrite u8_app by lia. reflexivity. Qed.

Lemma adts_initTrackConfig_app track :
  adts_initTrackConfig track (data ++ rest) offset
  = adts_initTrackConfig track data offset.
Proof. unfold adts_initTrackConfig. rewrite u8_app by lia. reflexivity. Qed.

Lemma adts_appendFrame_app track basePTS idx :
  adts_getFullFrameLength data offset < Z.of_nat (length data) - offset ->
  adts_appendFrame track (data ++ rest) offset basePTS idx
  = adts_appendFrame track data offset basePTS idx.
Proof.
  intros Hfull. unfold adts_appendFrame. cbv zeta.
  rewrite adts_getFullFrameLength_app, adts_getHeaderLength_app.
  rewrite subarray_app by lia. rewrite length_app.
  destruct (0 <? _); cbn [andb]; [| reflexivity].
  destruct (Z.leb_spec (offset + adts_getHeaderLength data offset
                        + (adts_getFullFrameLength data offset
                           - adts_getHeaderLength data offset))
              (Z.of_nat (length data))) as [_ | ?]; [| lia].
  destruct (Z.leb_spec (offset + adts_getHeaderLength data offset
                        + (adts_getFullFrameLength data offset
                           - adts_getHeaderLength data offset))
              (Z.of_nat (length data + length rest))) as [_ | ?]; [reflexivity | lia].
Qed.

End Prefix.

(** The same reads, from an offset of the buffer on. *)
Section Suffix.
Variables (o : nat) (data : Bytes) (offset : Z).
Hypothesis Hoff : 0 <= offset.
Hypothesis Hin : Z.of_nat o + offset <= Z.of_nat (length data).

Lemma length_drop_Z :
  Z.of_nat (length (drop o data)) = Z.of_nat (length data) - Z.of_nat o.
Proof. rewrite length_drop. lia. Qed.

Lemma adts_isHeader_drop :
  adts_isHeader (drop o data) offset = adts_isHeader data (Z.of_nat o + offset).
Proof.
  unfold adts_isHeader. rewrite byte_at_drop, u8_drop, length_drop_Z by lia.
  replace (Z.of_nat o + (offset + 1)) with (Z.of_nat o + offset + 1) by lia.
  f_equal. f_equal.
  destruct (Z.ltb_spec (offset + 1) (Z.of_nat (length data) - Z.of_nat o));
    destruct (Z.ltb_spec (Z.of_nat o + offset + 1) (Z.of_nat (length data)));
    try reflexivity; lia.
Qed.

Lemma adts_getFullFrameLength_drop :
  adts_getFullFrameLength (drop o data) offset
  = adts_getFullFrameLength data (Z.of_nat o + offset).
Proof.
  unfold adts_getFullFrameLength. rewrite !u8_drop by lia.
  rewrite !Z.add_assoc. reflexivity.
Qed.

Lemma adts_getHeaderLength_drop :
  adts_getHeaderLength (drop o data) offset
  = adts_getHeaderLength data (Z.of_nat o + offset).
Proof.
  unfold adts_getHeaderLength. rewrite u8_drop by lia.
  replace (Z.of_nat o + (offset + 1)) with (Z.of_nat o + offset + 1) by lia.
  reflexivity.
Qed.

Lemma adts_initTrackConfig_drop track :
  adts_initTrackConfig track (drop o data) offset
  = adts_initTrackConfig track data (Z.of_nat o + offset).
Proof.
  unfold adts_initTrackConfig. rewrite u8_drop by lia.
  replace (Z.of_nat o + (offset + 2)) with (Z.of_nat o + offset + 2) by lia.
  reflexivity.
Qed.

Lemma adts_appendFrame_drop track basePTS idx :
  adts_appendFrame track (drop o data) offset basePTS idx
  = adts_appendFrame track data (Z.of_nat o + offset) basePTS idx.
Proof.
  unfold adts_appendFrame. cbv zeta.
  rewrite adts_getFullFrameLength_drop, adts_getHeaderLength_drop, length_drop_Z.
  set (h := adts_getHeaderLength data (Z.of_nat o + offset)).
  set (f := adts_getFullFrameLength data (Z.of_nat o + offset)).
  assert (Hh : 0 <= h).
  { subst h. unfold adts_getHeaderLength. destruct (_ =? _); lia. }
  destruct (Z.ltb_spec 0 (f - h)) as [Hpos | _]; cbn [andb]; [| reflexivity].
  rewrite subarray_drop by lia.
  replace (Z.of_nat o + (offset + h)) with (Z.of_nat o + offset + h) by lia.
  replace (Z.of_nat o + (offset + h + (f - h))) with (Z.of_nat o + offset + h + (f - h))
    by lia.
  destruct (Z.leb_spec (offset + h + (f - h)) (Z.of_nat (length data) - Z.of_nat o));
    destruct (Z.leb_spec (Z.of_nat o + offset + h + (f - h)) (Z.of_nat (length data)));
    try reflexivity; lia.
Qed.

End Suffix.


Lemma adts_initTrackConfig_idem track data offset :
  adts_initTrackConfig (adts_initTrackConfig track data offset) data offset
  = adts_initTrackConfig track data offset.
Proof.
  unfold adts_initTrackConfig.
  destruct (samplerate track) eqn:Hrate; [rewrite Hrate; reflexivity |].
  cbn [samplerate samples manifestCodec].
  destruct (js_nth adts_samplingRates _); reflexivity.
Qed.

(** The length of a frame that [appendFrame] returns is the one its
    header declares. *)
Lemma adts_appendFrame_full track data offset basePTS idx frame :
  adts_appendFrame track data offset basePTS idx = Some frame ->
  frame_length frame = adts_getFullFrameLength data offset.
Proof.
  unfold adts_appendFrame. cbv zeta.
  destruct (_ && _); [| discriminate].
  intros [= <-]. cbn [frame_length]. lia.
Qed.

(** An ID3 header holds ten bytes of the buffer, from an offset that is
    not negative. *)
Lemma id3_isHeader_inside data offset :
  id3_isHeader data offset = true ->
  0 <= offset /\ offset + 10 <= Z.of_nat (length data).
Proof.
  intros Hh. split; [| apply id3_isHeader_length; exact Hh].
  unfold id3_isHeader in Hh.
  do 8 (apply andb_prop in Hh as [Hh _]).
  apply andb_prop in Hh as [_ Hh]. apply bool_decide_eq_true in Hh.
  unfold byte_at, js_nth in Hh.
  destruct (Z.ltb_spec offset 0) as [_ | Hpos]; [discriminate | exact Hpos].
Qed.

Lemma id3_isHeader_app (data rest : Bytes) offset :
  id3_isHeader data offset = true -> id3_isHeader (data ++ rest) offset = true.
Proof.
  intros Hh. destruct (id3_isHeader_inside _ _ Hh) as [Hoff Hlen].
  rewrite <- Hh. unfold id3_isHeader.
  rewrite !byte_at_app, !u8_app by lia. rewrite length_app.
  destruct (Z.leb_spec (offset + 10) (Z.of_nat (length data))) as [_ | ?]; [| lia].
  destruct (Z.leb_spec (offset + 10) (Z.of_nat (length data + length rest)))
    as [_ | ?]; [reflexivity | lia].
Qed.

Lemma id3_isHeader_drop (o : nat) (data : Bytes) offset :
  id3_isHeader (drop o data) offset = true ->
  id3_isHeader data (Z.of_nat o + offset) = true.
Proof.
  intros Hh. destruct (id3_isHeader_inside _ _ Hh) as [Hoff Hlen].
  rewrite length_drop in Hlen.
  rewrite <- Hh. unfold id3_isHeader.
  rewrite !byte_at_drop, !u8_drop by lia. rewrite length_drop.
  rewrite !Z.add_assoc.
  destruct (Z.leb_spec (Z.of_nat o + offset + 10) (Z.of_nat (length data)))
    as [_ | ?]; [| lia].
  destruct (Z.leb_spec (offset + 10) (Z.of_nat (length data - o)))
    as [_ | ?]; [reflexivity | lia].
Qed.

Lemma no_id3_app data rest : no_id3 (data ++ rest) -> no_id3 data.
Proof.
  intros Hno offset. destruct (id3_isHeader data offset) eqn:Hh; [| reflexivity].
  apply (id3_isHeader_app data rest) in Hh. rewrite Hno in Hh. discriminate.
Qed.

Lemma no_id3_drop o data : no_id3 data -> no_id3 (drop o data).
Proof.
  intros Hno offset. destruct (id3_isHeader (drop o data) offset) eqn:Hh; [| reflexivity].
  apply id3_isHeader_drop in Hh. rewrite Hno in Hh. discriminate.
Qed.

(** *** The loop on a chunk and on the whole payload *)

(** The loop on a buffer takes the rounds it takes on the same buffer
    followed by more bytes, up to the offset from which it caches. *)
Lemma loop_prefix data rest basePTS :
  no_id3 (data ++ rest) ->
  forall (n : nat) offset s,
    0 <= offset <= Z.of_nat (length data) ->
    Z.of_nat (length data) - offset < Z.of_nat n ->
    exists o : nat,
      offset <= Z.of_nat o <= Z.of_nat (length data)
      /\ cachedData (loop getTimeStamp data basePTS offset s) = drop o data
      /\ loop getTimeStamp (data ++ rest) basePTS offset s
         = loop getTimeStamp (data ++ rest) basePTS (Z.of_nat o)
             (mkState (_audioTrack (loop getTimeStamp data basePTS offset s))
                (frameIndex (loop getTimeStamp data basePTS offset s)) (cachedData s)).
Proof.
  intros Hno. pose proof (no_id3_app _ _ Hno) as HnoD.
  induction n as [| n IH]; intros offset s Hoff Hn; [lia |].
  assert (HinX : 0 <= offset <= Z.of_nat (length (data ++ rest)))
    by (rewrite length_app; lia).
  rewrite (loop_unfold data) by auto.
  destruct (adts_isHeader data offset && (offset + 5 <? Z.of_nat (length data))
            && (adts_getFullFrameLength data offset <? Z.of_nat (length data) - offset))
    eqn:Hguard.
  - apply andb_prop in Hguard as [Hguard Hfull]. apply andb_prop in Hguard as [Hh H5].
    apply Z.ltb_lt in Hfull, H5.
    assert (HguardX :
              adts_isHeader (data ++ rest) offset
              && (offset + 5 <? Z.of_nat (length (data ++ rest)))
              && (adts_getFullFrameLength (data ++ rest) offset
                  <? Z.of_nat (length (data ++ rest)) - offset) = true).
    { rewrite adts_isHeader_app, adts_getFullFrameLength_app, Hh by lia.
      rewrite length_app.
      apply andb_true_intro. split; [apply Z.ltb_lt; lia | apply Z.ltb_lt; lia]. }
    cbv zeta.
    destruct (adts_appendFrame (adts_initTrackConfig (_audioTrack s) data offset)
                data offset basePTS (frameIndex s)) as [frame |] eqn:Hframe.
    + pose proof (adts_appendFrame_length _ _ _ _ _ _ Hframe) as Hpos.
      pose proof (adts_appendFrame_full _ _ _ _ _ _ Hframe) as Hlen.
      destruct (IH (offset + frame_length frame)
                  (mkState (push_sample (frame_sample frame)
                              (adts_initTrackConfig (_audioTrack s) data offset))
                     (frameIndex s + 1) (cachedData s)))
        as (o & Ho & Hc & Hx); [lia | lia |].
      exists o. split; [lia |]. split; [exact Hc |].
      rewrite (loop_unfold (data ++ rest) basePTS offset s) by auto.
      rewrite HguardX. cbv zeta.
      rewrite adts_initTrackConfig_app, adts_appendFrame_app, Hframe by lia.
      exact Hx.
    + exists (Z.to_nat offset). split; [lia |]. split; [reflexivity |].
      rewrite Z2Nat.id by lia. cbn [_audioTrack frameIndex].
      rewrite !(loop_unfold (data ++ rest) basePTS offset) by auto.
      rewrite HguardX. cbv zeta. cbn [_audioTrack frameIndex].
      rewrite !adts_initTrackConfig_app, !adts_appendFrame_app by lia.
      rewrite adts_initTrackConfig_idem, Hframe. reflexivity.
  - exists (Z.to_nat offset). split; [lia |]. split; [reflexivity |].
    rewrite Z2Nat.id by lia. destruct s. reflexivity.
Qed.

(** The loop from an offset of a buffer is the loop on the bytes from
    there on. *)
Lemma loop_suffix (o : nat) data basePTS :
  no_id3 data ->
  forall (n : nat) offset s,
    0 <= offset -> Z.of_nat o + offset <= Z.of_nat (length data) ->
    Z.of_nat (length data) - Z.of_nat o - offset < Z.of_nat n ->
    loop getTimeStamp (drop o data) basePTS offset s
    = loop getTimeStamp data basePTS (Z.of_nat o + offset) s.
Proof.
  intros Hno. pose proof (no_id3_drop o _ Hno) as HnoS.
  induction n as [| n IH]; intros offset s Hoff Hin Hn; [lia |].
  rewrite (loop_unfold (drop o data))
    by (rewrite ?(length_drop_Z o data offset) by lia; auto; lia).
  rewrite (loop_unfold data) by (auto; lia).
  rewrite adts_isHeader_drop, adts_getFullFrameLength_drop by lia.
  rewrite (length_drop_Z o data offset) by lia.
  replace (offset + 5 <? Z.of_nat (length data) - Z.of_nat o)
    with (Z.of_nat o + offset + 5 <? Z.of_nat (length data))
    by (destruct (Z.ltb_spec (Z.of_nat o + offset + 5) (Z.of_nat (length data)));
        destruct (Z.ltb_spec (offset + 5) (Z.of_nat (length data) - Z.of_nat o));
        try reflexivity; lia).
  replace (Z.of_nat (length data) - Z.of_nat o - offset)
    with (Z.of_nat (length data) - (Z.of_nat o + offset)) by lia.
  destruct (adts_isHeader data (Z.of_nat o + offset)
            && (Z.of_nat o + offset + 5 <? Z.of_nat (length data))
            && (adts_getFullFrameLength data (Z.of_nat o + offset)
                <? Z.of_nat (length data) - (Z.of_nat o + offset))) eqn:Hguard.
  - apply andb_prop in Hguard as [Hguard Hfull]. apply andb_prop in Hguard as [Hh H5].
    apply Z.ltb_lt in Hfull, H5.
    cbv zeta. rewrite adts_initTrackConfig_drop, adts_appendFrame_drop by lia.
    destruct (adts_appendFrame _ data (Z.of_nat o + offset) basePTS (frameIndex s))
      as [frame |] eqn:Hframe.
    + pose proof (adts_appendFrame_length _ _ _ _ _ _ Hframe) as Hpos.
      pose proof (adts_appendFrame_full _ _ _ _ _ _ Hframe) as Hlen.
      rewrite IH by lia. rewrite Z.add_assoc. reflexivity.
    + rewrite slice_drop by lia. reflexivity.
  - rewrite slice_drop by lia. reflexivity.
Qed.

(** *** Chunk invariance *)

(** A call of [demux] on bytes without ID3 tag is the loop from offset 0
    on the cached bytes followed by the new ones. *)
Lemma demux_loop_form data timeOffset s :
  no_id3 (cachedData s ++ data) ->
  @demux (parsers getTimeStamp) data timeOffset s
  = Returned (loop getTimeStamp (cachedData s ++ data) (base_pts getTimeStamp timeOffset) 0
                (mkState (_audioTrack s) (frameIndex s) [])).
Proof.
  intros Hno. unfold demux. cbv zeta.
  destruct (Z.ltb_spec 0 (Z.of_nat (length (cachedData s)))) as [Hc | Hc].
  - cbn [ID3_getID3Data ID3_getTimeStamp parsers].
    unfold id3_getID3Data. rewrite Hno. cbn [default length].
    apply loop_spec; lia.
  - assert (Hnil : cachedData s = [])
      by (destruct (cachedData s); [reflexivity | cbn in Hc; lia]).
    rewrite Hnil in Hno |- *. cbn [app] in Hno |- *.
    cbn [ID3_getID3Data ID3_getTimeStamp parsers].
    unfold id3_getID3Data. rewrite Hno. cbn [default length].
    rewrite loop_spec by lia.
    destruct s as [track idx cached]. cbn in Hnil. subst cached. reflexivity.
Qed.

(** Two calls on consecutive chunks leave the demuxer in the state one
    call on their concatenation does: the same samples in the same order,
    the same frame index, the same cached bytes. *)
Lemma demux_two_chunks c1 c2 timeOffset s s1 :
  no_id3 (cachedData s ++ c1 ++ c2) ->
  @demux (parsers getTimeStamp) c1 timeOffset s = Returned s1 ->
  @demux (parsers getTimeStamp) c2 timeOffset s1
  = @demux (parsers getTimeStamp) (c1 ++ c2) timeOffset s.
Proof.
  intros Hno Hfirst.
  assert (Hno1 : no_id3 (cachedData s ++ c1)).
  { apply (no_id3_app _ c2). rewrite <- app_assoc. exact Hno. }
  rewrite demux_loop_form in Hfirst by exact Hno1.
  injection Hfirst as Hfirst.
  rewrite app_assoc in Hno.
  destruct (loop_prefix (cachedData s ++ c1) c2 (base_pts getTimeStamp timeOffset) Hno
              (S (length (cachedData s ++ c1))) 0
              (mkState (_audioTrack s) (frameIndex s) []))
    as (o & Ho & Hc & Hx); [lia | lia |].
  rewrite Hfirst in Hc, Hx. cbn [cachedData] in Hx.
  assert (Hdrop : cachedData s1 ++ c2 = drop o ((cachedData s ++ c1) ++ c2)).
  { rewrite Hc. symmetry. apply drop_app_le. lia. }
  rewrite (demux_loop_form (c1 ++ c2)) by (rewrite app_assoc; exact Hno).
  rewrite demux_loop_form by (rewrite Hdrop; apply no_id3_drop; exact Hno).
  rewrite app_assoc, Hx, Hdrop. f_equal.
  rewrite (loop_suffix o _ _ Hno (S (length ((cachedData s ++ c1) ++ c2))))
    by (rewrite ?length_app in *; lia).
  rewrite Z.add_0_r. reflexivity.
Qed.

(** X22: chunk invariance.  On a payload without ID3 tag, calling
    [demux] on the chunks of any partition in turn leaves the demuxer in
    the state one call on the whole payload does: the same samples, the
    same frame index, the same cached bytes. *)
Theorem chunk_invariance chunks : forall c timeOffset s,
  no_id3 (cachedData s ++ c ++ concat chunks) ->
  @demux_chunks (parsers getTimeStamp) (c :: chunks) timeOffset s
  = @demux (parsers getTimeStamp) (c ++ concat chunks) timeOffset s.
Proof.
  induction chunks as [| c2 chunks IH]; intros c timeOffset s Hno.
  - cbn [demux_chunks concat]. rewrite app_nil_r.
    destruct (demux c timeOffset s); reflexivity.
  - cbn [concat] in Hno |- *.
    assert (Hret : exists s1, @demux (parsers getTimeStamp) c timeOffset s = Returned s1)
      by (unfold demux; apply demux_loop_returns; lia).
    destruct Hret as [s1 Hs1].
    change (@demux_chunks (parsers getTimeStamp) (c :: c2 :: chunks) timeOffset s)
      with (match @demux (parsers getTimeStamp) c timeOffset s with
            | Returned s' => @demux_chunks (parsers getTimeStamp) (c2 :: chunks) timeOffset s'
            | Threw => Threw
            | OutOfFuel => OutOfFuel
            end).
    rewrite Hs1.
    assert (Hno1 : no_id3 (cachedData s ++ c)).
    { apply (no_id3_app _ (c2 ++ concat chunks)). rewrite <- app_assoc. exact Hno. }
    pose proof Hs1 as Hform. rewrite demux_loop_form in Hform by exact Hno1.
    injection Hform as Hform.
    destruct (loop_prefix (cachedData s ++ c) [] (base_pts getTimeStamp timeOffset)
                ltac:(rewrite app_nil_r; exact Hno1)
                (S (length (cachedData s ++ c))) 0
                (mkState (_audioTrack s) (frameIndex s) []))
      as (o & Ho & Hc & _); [lia | lia |].
    rewrite Hform in Hc.
    rewrite IH.
    + apply demux_two_chunks; assumption.
    + rewrite Hc, <- drop_app_le by lia.
      apply no_id3_drop. rewrite <- app_assoc. exact Hno.
Qed.


(** The check [id3_free] is sound. *)
Lemma id3_free_no_id3 data : id3_free data = true -> no_id3 data.
Proof.
  intros Hfree offset.
  destruct (id3_isHeader data offset) eqn:Hh; [| reflexivity].
  destruct (id3_isHeader_inside _ _ Hh) as [Hoff Hlen].
  unfold id3_free in Hfree. rewrite forallb_forall in Hfree.
  specialize (Hfree (Z.to_nat offset)).
  rewrite Z2Nat.id, Hh in Hfree by lia.
  assert (Hin : In (Z.to_nat offset) (seq 0 (length data))) by (apply in_seq; lia).
  apply Hfree in Hin. discriminate.
Qed.

End AACDemuxerChunks.

(** ** AAC demuxer: the stream of three frames *)

Section AACDemuxerExamples.
Import AACDemuxer.
Local Existing Instance plain_parsers.

(** C1: the scenario of two whole ADTS frames followed by the first
    three header bytes of a third.  The first call emits exactly the two
    samples and caches the three bytes; the call that brings the rest of
    the third frame emits no sample: the frame, now complete in the
    buffer, is cached whole (as it is when the whole payload comes in one
    call), [flush] leaves it there, and its sample appears only once one
    more byte has arrived. *)
Theorem third_frame_stays_cached :
  adts_isHeader frame_3 0 = true
  /\ adts_getFullFrameLength frame_3 0 = Z.of_nat (length frame_3)
  /\ exists s1 s2 s3,
       demux chunk_1 0 (init None) = Returned s1
       /\ map unit_ (samples (_audioTrack s1)) = [[17; 18]; [33; 34]]
       /\ cachedData s1 = take 3 frame_3
       /\ demux chunk_2 0 s1 = Returned s2
       /\ map unit_ (samples (_audioTrack s2)) = [[17; 18]; [33; 34]]
       /\ cachedData s2 = frame_3
       /\ demux (chunk_1 ++ chunk_2) 0 (init None) = Returned s2
       /\ samples (_audioTrack (flush s2)) = samples (_audioTrack s2)
       /\ cachedData (flush s2) = frame_3
       /\ demux (take 1 frame_1) 0 s2 = Returned s3
       /\ map unit_ (samples (_audioTrack s3)) = [[17; 18]; [33; 34]; [49; 50]].
Proof.
  split; [reflexivity |]. split; [reflexivity |].
  eexists _, _, _.
  split; [vm_compute; reflexivity |]. split; [reflexivity |].
  split; [reflexivity |].
  split; [vm_compute; reflexivity |]. split; [reflexivity |].
  split; [reflexivity |]. split; [vm_compute; reflexivity |].
  split; [reflexivity |]. split; [reflexivity |].
  split; [vm_compute; reflexivity |]. reflexivity.
Qed.

(** The third frame alone in the buffer of a fresh demuxer. *)
Lemma lone_complete_frame_example :
  cachedData (init None) = []
  /\ demux frame_3 0 (init None) = Returned (mkState (mkTrack [] None None) 0 frame_3).
Proof.
  split; [reflexivity |].
  apply (lone_complete_frame_is_cached frame_3 0 (init None));
    reflexivity.
Defined.

(** The two chunks of the stream, demuxed in turn, leave the demuxer as
    one call on the whole stream does. *)
Lemma three_frames_chunk_invariance :
  id3_free (chunk_1 ++ chunk_2) = true
  /\ demux_chunks [chunk_1; chunk_2] 0 (init None)
     = demux (chunk_1 ++ chunk_2) 0 (init None).
Proof.
  split; [reflexivity |].
  apply (chunk_invariance (fun _ => None) [chunk_2] chunk_1 0 (init None)).
  apply id3_free_no_id3. reflexivity.
Defined.

End AACDemuxerExamples.

(** ** Level controller: what every reachable state keeps *)

Section LevelControllerOrder.
Import LevelController.
Context {env : Env}.

Lemma statics_kept_same s s' : _levels s' = _levels s -> statics_kept s s'.
Proof. intros Heq ls' Hls'. exists ls'. split; [congruence | reflexivity]. Qed.

Lemma static_js_set ls i l l' :
  js_nth ls i = Some l -> static l' = static l ->
  map static (js_set ls i l') = map static ls.
Proof.
  intros Hi Hst. apply js_nth_Some in Hi as Hr. unfold js_nth, js_set in *.
  destruct (i <? 0); [discriminate |].
  rewrite list_fmap_insert, Hst.
  apply list_insert_id. rewrite list_lookup_fmap, Hi. reflexivity.
Qed.

Lemma statics_kept_set s s' ls i l l' :
  _levels s = Some ls -> js_nth ls i = Some l -> static l' = static l ->
  _levels s' = Some (js_set ls i l') -> statics_kept s s'.
Proof.
  intros Hls Hi Hst Hf ls' Hls'. rewrite Hf in Hls'. injection Hls' as <-.
  exists ls. split; [exact Hls |]. erewrite static_js_set; eauto.
Qed.

Ltac kept :=
  first
    [ apply statics_kept_same; cbn; first [reflexivity | congruence]
    | eapply statics_kept_set; [eassumption | eassumption | | cbn; reflexivity];
      reflexivity ].

Lemma setLevelInternal_statics n s s' :
  setLevelInternal n s = Some s' -> statics_kept s s'.
Proof.
  unfold setLevelInternal.
  destruct (_levels s) as [ls |] eqn:Hls; cbn [mbind option_bind]; [| discriminate].
  destruct (Z.leb_spec 0 n) as [Hn | Hn]; cbn [andb]; [| intros [= <-]; kept].
  destruct (Z.ltb_spec n (Z.of_nat (length ls))) as [Hlt | Hge];
    [| intros [= <-]; kept].
  destruct (js_nth_in_range ls n (conj Hn Hlt)) as [lv Hlv].
  destruct (decide (_level (cleanTimer s) = Some n)) as [Hcur | Hcur].
  - cbn. rewrite Hls. cbn. rewrite Hlv. cbn.
    destruct (details lv) as [d |]; [destruct (live d) |]; intros [= <-]; kept.
  - cbn. rewrite Hlv. cbn. rewrite (js_nth_set_eq _ _ _ _ Hlv). cbn.
    destruct (details lv) as [d |]; [destruct (live d) |]; intros [= <-]; kept.
Qed.

Lemma set_level_statics n s s' : set_level n s = Some s' -> statics_kept s s'.
Proof.
  unfold set_level.
  destruct (_levels s) as [ls |] eqn:Hls; [| intros [= <-]; kept].
  destruct (n <? Z.of_nat (length ls)); [| intros [= <-]; kept].
  destruct (decide (_level s = Some n)); [| apply setLevelInternal_statics].
  destruct (js_nth ls n) as [lv |]; cbn [mbind option_bind]; [| discriminate].
  destruct (details lv); [intros [= <-]; kept | apply setLevelInternal_statics].
Qed.

Lemma statics_kept_trans s1 s2 s3 :
  statics_kept s1 s2 -> statics_kept s2 s3 -> statics_kept s1 s3.
Proof.
  intros H12 H23 ls3 H3.
  destruct (H23 ls3 H3) as (ls2 & H2 & Hsub2).
  destruct (H12 ls2 H2) as (ls1 & H1 & Hsub1).
  exists ls1. split; [exact H1 | etrans; eassumption].
Qed.

Lemma set_manualLevel_statics n s s' :
  set_manualLevel n s = Some s' -> statics_kept s s'.
Proof.
  unfold set_manualLevel.
  set (s1 := match _startLevel (set__manualLevel n s) with
             | Some _ => set__manualLevel n s
             | None => set__startLevel (Some n) (set__manualLevel n s)
             end).
  assert (H1 : statics_kept s s1)
    by (subst s1; destruct (_startLevel _); kept).
  destruct (n =? -1); [intros [= <-]; exact H1 |].
  intros Hs. eapply statics_kept_trans; [exact H1 |].
  apply set_level_statics in Hs. exact Hs.
Qed.

Lemma set_nextLoadLevel_statics n s s' :
  set_nextLoadLevel n s = Some s' -> statics_kept s s'.
Proof.
  unfold set_nextLoadLevel.
  destruct (set_level n s) as [s1 |] eqn:Hs1; cbn [mbind option_bind]; [| discriminate].
  apply set_level_statics in Hs1. intros [= <-].
  eapply statics_kept_trans; [exact Hs1 |].
  destruct (_manualLevel s1 =? -1); kept.
Qed.

Lemma tick_statics s s' : tick s = Some s' -> statics_kept s s'.
Proof.
  unfold tick.
  destruct (_level s) as [levelId |]; [| intros [= <-]; kept].
  destruct (canload s); [| intros [= <-]; kept].
  destruct (_levels s) as [ls |] eqn:Hls; cbn [mbind option_bind]; [| discriminate].
  destruct (js_nth ls levelId); intros [= <-]; kept.
Qed.

Lemma startLoad_statics s s' : startLoad s = Some s' -> statics_kept s s'.
Proof.
  unfold startLoad.
  set (s1 := match _levels (set_canload true s) with
             | Some ls => set_levels (Some (map startLoad_level ls)) (set_canload true s)
             | None => set_canload true s
             end).
  assert (H1 : statics_kept s s1).
  { subst s1. cbn [_levels set_canload].
    destruct (_levels s) as [ls |] eqn:Hls; [| kept].
    intros ls' [= <-]. exists ls. split; [exact Hls |].
    rewrite <- list_fmap_compose.
    erewrite (list_fmap_ext (static ∘ startLoad_level) static); [reflexivity |].
    intros _ l _. unfold startLoad_level. cbn.
    destruct (details l) as [d |]; [destruct (live d) |]; reflexivity. }
  destruct (timer s1).
  - intros Ht. apply tick_statics in Ht. eapply statics_kept_trans; eassumption.
  - intros [= <-]. exact H1.
Qed.

Lemma onFragLoaded_statics frag s s' :
  onFragLoaded frag s = Some s' -> statics_kept s s'.
Proof.
  unfold onFragLoaded.
  destruct frag as [f |]; [| intros [= <-]; kept].
  destruct (String.eqb (frag_type f) "main"); [| intros [= <-]; kept].
  destruct (_levels s) as [ls |] eqn:Hls; cbn [mbind option_bind]; [| discriminate].
  destruct (js_nth ls (frag_level f)) as [lv |] eqn:Hlv; intros [= <-]; kept.
Qed.

Lemma onLevelLoaded_statics data now s s' :
  onLevelLoaded data now s = Some s' -> statics_kept s s'.
Proof.
  unfold onLevelLoaded.
  destruct (decide (Some (ll_level data) = _level s)); [| intros [= <-]; kept].
  destruct (_levels s) as [ls |] eqn:Hls; cbn [mbind option_bind]; [| discriminate].
  destruct (js_nth ls (ll_level data)) as [lv |] eqn:Hlv;
    cbn [mbind option_bind]; [| discriminate].
  destruct (fragmentError lv); destruct (live (ll_details data));
    intros [= <-]; kept.
Qed.

Lemma remove_index_sublist {A} (i k : Z) (l : list A) :
  remove_index i k l `sublist_of` l.
Proof.
  revert k. induction l as [| x l IH]; intros k; cbn; [constructor |].
  destruct (k =? i); [apply sublist_cons | apply sublist_skip]; apply IH.
Qed.

Lemma remove_index_map {A B} (f : A -> B) (i k : Z) (l : list A) :
  map f (remove_index i k l) = remove_index i k (map f l).
Proof.
  revert k. induction l as [| x l IH]; intros k; cbn; [reflexivity |].
  destruct (k =? i); cbn; rewrite IH; reflexivity.
Qed.

Lemma onLevelRemoved_statics i s s' :
  onLevelRemoved i s = Some s' -> statics_kept s s'.
Proof.
  unfold onLevelRemoved.
  destruct (_levels s) as [ls |] eqn:Hls; cbn [mbind option_bind]; [| discriminate].
  intros [= <-] ls' [= <-]. exists ls. split; [exact Hls |].
  rewrite remove_index_map. apply remove_index_sublist.
Qed.

Lemma store_details_statics i d s : statics_kept s (store_details i d s).
Proof.
  unfold store_details.
  destruct (_levels s) as [ls |] eqn:Hls; [| kept].
  destruct (js_nth ls i) as [lv |] eqn:Hlv; kept.
Qed.

Lemma onError_statics d s s' d' :
  onError d s = Some (s', d') -> statics_kept s s'.
Proof.
  unfold onError.
  destruct (err_fatal d).
  { intros [= <- <-]. destruct (err_type d); kept. }
  destruct (error_level d) as [[[levelIndex levelError] fragErr] |];
    cbn [mbind option_bind fst snd]; [| discriminate].
  destruct levelIndex as [levelIndex |]; [| intros [= <- <-]; kept].
  destruct (_levels s) as [ls |] eqn:Hls; cbn [mbind option_bind]; [| discriminate].
  destruct (js_nth ls levelIndex) as [lv |] eqn:Hlv;
    cbn [mbind option_bind]; [| discriminate].
  cbn [url set_fragmentError set_loadError loadError urlId].
  destruct (_ && _); [intros [= <- <-]; kept |].
  cbn.
  destruct (_ && _); [intros [= <- <-]; kept |].
  destruct (match details lv with Some d0 => live d0 | None => false end).
  { destruct levelError; intros [= <- <-]; kept. }
  destruct levelError; [| intros [= <- <-]; kept].
  destruct (mediaBuffered (media s)); intros [= <- <-]; kept.
Qed.


(** *** The levels a manifest load installs *)

Lemma push_url_bitrates b u ls ls' :
  push_url b u ls = Some ls' -> map bitrate ls' = map bitrate ls.
Proof.
  revert ls'. induction ls as [| l ls IH]; intros ls'; cbn; [discriminate |].
  destruct (bitrate l =? b); [intros [= <-]; reflexivity |].
  destruct (push_url b u ls) as [ls1 |]; cbn; [| discriminate].
  intros [= <-]. cbn. f_equal. apply IH. reflexivity.
Qed.

Lemma push_url_None b u ls :
  push_url b u ls = None -> b ∉ map bitrate ls.
Proof.
  induction ls as [| l ls IH]; cbn; [intros _ Hin; inversion Hin |].
  destruct (Z.eqb_spec (bitrate l) b) as [| Hne]; [discriminate |].
  destruct (push_url b u ls) as [ls1 |]; cbn; [discriminate |].
  intros _ Hin. apply elem_of_cons in Hin as [Heq | Hin]; [congruence |].
  apply IH; [reflexivity | exact Hin].
Qed.

Lemma regroup_NoDup ms acc :
  NoDup (map bitrate acc) -> NoDup (map bitrate (regroup ms acc)).
Proof.
  revert acc. induction ms as [| m ms IH]; intros acc Hacc; cbn; [exact Hacc |].
  apply IH.
  destruct (push_url (m_bitrate m) (m_url m) acc) as [acc' |] eqn:Hpush.
  - rewrite (push_url_bitrates _ _ _ _ Hpush). exact Hacc.
  - rewrite map_app. cbn. apply NoDup_app. split; [exact Hacc |].
    split; [| apply NoDup_singleton].
    intros b Hb Hb'. apply list_elem_of_singleton in Hb'. subst b.
    eapply push_url_None; eassumption.
Qed.

Lemma filter_sublist {A} (f : A -> bool) (l : list A) :
  List.filter f l `sublist_of` l.
Proof.
  induction l as [| x l IH]; cbn; [constructor |].
  destruct (f x); [apply sublist_skip | apply sublist_cons]; exact IH.
Qed.

Lemma manifest_levels_NoDup data : NoDup (map bitrate (manifest_levels data)).
Proof.
  unfold manifest_levels.
  assert (Hg : NoDup (map bitrate (regroup (m_levels data) [])))
    by (apply regroup_NoDup; constructor).
  eapply sublist_NoDup; [exact Hg |].
  apply fmap_sublist. etrans; [apply filter_sublist |].
  destruct (_ && _); [apply filter_sublist | reflexivity].
Qed.

Lemma insert_level_bitrates x ls b :
  b ∈ map bitrate (insert_level x ls) <-> b = bitrate x \/ b ∈ map bitrate ls.
Proof.
  induction ls as [| y ls IH]; cbn.
  - rewrite list_elem_of_singleton. split; [auto | intros [H | H]; [exact H | inversion H]].
  - destruct (bitrate x <=? bitrate y); cbn.
    + rewrite elem_of_cons. reflexivity.
    + rewrite !elem_of_cons, IH. tauto.
Qed.

Lemma sort_levels_bitrates ls b :
  b ∈ map bitrate (sort_levels ls) <-> b ∈ map bitrate ls.
Proof.
  unfold sort_levels. induction ls as [| x ls IH]; cbn; [reflexivity |].
  rewrite insert_level_bitrates, elem_of_cons, IH. reflexivity.
Qed.

Lemma insert_level_sorted x ls :
  StronglySorted Z.lt (map bitrate ls) -> bitrate x ∉ map bitrate ls ->
  StronglySorted Z.lt (map bitrate (insert_level x ls)).
Proof.
  induction ls as [| y ls IH]; cbn; intros Hs Hx.
  - repeat constructor.
  - apply StronglySorted_inv in Hs as [Hs Hall].
    assert (Hne : bitrate x <> bitrate y) by (intros Heq; apply Hx; rewrite Heq; left).
    destruct (Z.leb_spec (bitrate x) (bitrate y)) as [Hle | Hgt]; cbn.
    + constructor; [constructor; assumption |].
      constructor; [lia |].
      eapply Forall_impl; [exact Hall |]. cbn. intros z Hz. lia.
    + constructor.
      * apply IH; [exact Hs |]. intros Hin. apply Hx. right. exact Hin.
      * apply Forall_forall. intros b Hb.
        apply insert_level_bitrates in Hb as [-> | Hb]; [lia |].
        rewrite Forall_forall in Hall. apply Hall. exact Hb.
Qed.

Lemma sort_levels_sorted ls :
  NoDup (map bitrate ls) -> StronglySorted Z.lt (map bitrate (sort_levels ls)).
Proof.
  unfold sort_levels. induction ls as [| x ls IH]; cbn; intros Hnd; [constructor |].
  apply NoDup_cons in Hnd as [Hx Hnd].
  apply insert_level_sorted; [apply IH; exact Hnd |].
  intros Hin. apply Hx. apply sort_levels_bitrates. exact Hin.
Qed.

Lemma manifest_levels_supported data : Forall supported (manifest_levels data).
Proof.
  unfold manifest_levels. apply Forall_forall. intros l Hl.
  apply list_elem_of_In, filter_In in Hl as [_ Hl].
  apply andb_prop in Hl. exact Hl.
Qed.

(** *** What survives every action *)

Lemma StronglySorted_sublist {A} (R : A -> A -> Prop) (l1 l2 : list A) :
  l1 `sublist_of` l2 -> StronglySorted R l2 -> StronglySorted R l1.
Proof.
  induction 1 as [| x l1 l2 Hsub IH | x l1 l2 Hsub IH]; intros Hs.
  - constructor.
  - apply StronglySorted_inv in Hs as [Hs Hall]. constructor; [auto |].
    rewrite Forall_forall in Hall |- *. intros y Hy. apply Hall.
    eapply elem_of_sublist; eassumption.
  - apply StronglySorted_inv in Hs as [Hs _]. auto.
Qed.

Lemma Forall_sublist {A} (P : A -> Prop) (l1 l2 : list A) :
  l1 `sublist_of` l2 -> Forall P l2 -> Forall P l1.
Proof.
  intros Hsub. rewrite !Forall_forall. intros Hall x Hx.
  apply Hall. eapply elem_of_sublist; eassumption.
Qed.

Lemma step_statics a s s' :
  step a s = Some s' ->
  statics_kept s s'
  \/ exists data, a = ManifestLoaded data
       /\ _levels s' = Some (sort_levels (manifest_levels data)).
Proof.
  destruct a; cbn [step].
  - intros [= <-]. unfold onManifestLoaded.
    destruct (manifest_levels data) as [| first rest] eqn:Hk; [left; kept |].
    right. exists data. split; [reflexivity |]. rewrite Hk.
    destruct (find_bitrate _ _ 0); reflexivity.
  - left. eapply onLevelLoaded_statics; eassumption.
  - left. eapply onFragLoaded_statics; eassumption.
  - destruct (onError data s) as [[s1 d1] |] eqn:He; cbn; [| discriminate].
    intros [= <-]. left. eapply onError_statics; eassumption.
  - left. eapply onLevelRemoved_statics; eassumption.
  - left. eapply set_level_statics; eassumption.
  - left. eapply set_manualLevel_statics; eassumption.
  - left. eapply set_nextLoadLevel_statics; eassumption.
  - intros [= <-]. left. kept.
  - intros [= <-]. left. kept.
  - left. eapply startLoad_statics; eassumption.
  - intros [= <-]. left. kept.
  - left. eapply tick_statics; eassumption.
  - intros [= <-]. left. kept.
  - intros [= <-]. left. apply store_details_statics.
Qed.

Lemma reachable_statics (P : list (Z * list string * option string * option string) -> Prop) :
  (forall l1 l2, l1 `sublist_of` l2 -> P l2 -> P l1) ->
  (forall data, P (map static (sort_levels (manifest_levels data)))) ->
  forall s, reachable s -> forall ls, _levels s = Some ls -> P (map static ls).
Proof.
  intros Hsub Hman s. induction 1 as [m delay cfgStart | a s s' Hreach IH Hstep].
  - intros ls; discriminate.
  - intros ls' Hls'. destruct (step_statics a s s' Hstep) as [Hk | (data & _ & Hm)].
    + destruct (Hk ls' Hls') as (ls & Hls & Hs). eapply Hsub; [exact Hs | auto].
    + rewrite Hm in Hls'. injection Hls' as <-. apply Hman.
Qed.

(** X1: in every state the controller can reach, the levels are in
    strictly increasing order of bitrate: a level at a higher index has a
    higher bitrate, so no two levels share a bitrate and index 0 is the
    lowest quality. *)
Theorem levels_sorted_by_bitrate (s : State) (ls : list Level) (i j : Z) (li lj : Level) :
  reachable s -> _levels s = Some ls ->
  js_nth ls i = Some li -> js_nth ls j = Some lj -> i < j ->
  bitrate li < bitrate lj.
Proof.
  intros Hreach Hls Hi Hj Hij.
  assert (Hs : StronglySorted Z.lt (map bitrate ls)).
  { pose proof (reachable_statics
                  (fun sts => StronglySorted Z.lt (map (fun st => fst (fst (fst st))) sts)))
      as Hinv.
    change (map bitrate ls) with (map (fun l => fst (fst (fst (static l)))) ls).
    rewrite <- (map_map static (fun st => fst (fst (fst st)))).
    eapply Hinv; [| | exact Hreach | exact Hls].
    - intros l1 l2 Hsub. apply StronglySorted_sublist.
      apply (fmap_sublist (fun st => fst (fst (fst st)))). exact Hsub.
    - intros data. rewrite map_map. apply sort_levels_sorted, manifest_levels_NoDup. }
  clear Hreach Hls.
  pose proof (js_nth_Some _ _ _ Hi) as [Hi0 _].
  unfold js_nth in Hi, Hj.
  destruct (Z.ltb_spec i 0) as [? | _]; [lia |].
  destruct (Z.ltb_spec j 0) as [? | _]; [lia |].
  assert (Hnat : (Z.to_nat i < Z.to_nat j)%nat) by lia.
  revert Hi Hj Hnat. generalize (Z.to_nat i) (Z.to_nat j). clear i j Hij Hi0.
  induction ls as [| l ls IH]; intros i j Hi Hj Hij; [discriminate |].
  cbn in Hs. apply StronglySorted_inv in Hs as [Hs Hall].
  destruct j as [| j]; [lia |]. cbn in Hj.
  destruct i as [| i]; cbn in Hi.
  - injection Hi as ->. rewrite Forall_forall in Hall. apply Hall.
    apply list_elem_of_fmap. exists lj. split; [reflexivity |].
    eapply list_elem_of_lookup_2. exact Hj.
  - eapply IH; eauto. lia.
Qed.


(** X2: in every state the controller can reach, every level passes the
    codec check of the manifest load: its audio codec and its video codec
    are each absent or supported in MP4. *)
Theorem levels_have_supported_codecs (s : State) (ls : list Level) (i : Z) (l : Level) :
  reachable s -> _levels s = Some ls -> js_nth ls i = Some l ->
  codec_ok (audioCodec l) None = true /\ codec_ok (videoCodec l) None = true.
Proof.
  intros Hreach Hls Hi.
  pose proof (reachable_statics
                (Forall (fun st => codec_ok (snd (fst st)) None = true
                                   /\ codec_ok (snd st) None = true))) as Hinv.
  specialize (Hinv (fun l1 l2 Hsub => Forall_sublist _ l1 l2 Hsub)).
  assert (Hall : Forall (fun st => codec_ok (snd (fst st)) None = true
                                   /\ codec_ok (snd st) None = true) (map static ls)).
  { apply (Hinv ltac:(intros data; apply Forall_fmap, sort_levels_Forall;
                       apply manifest_levels_supported) s Hreach ls Hls). }
  apply Forall_fmap in Hall. rewrite Forall_forall in Hall.
  apply (Hall l). eapply js_nth_elem_of. exact Hi.
Qed.

(** *** The first level and the redundant URLs *)

Lemma find_bitrate_Some b ls : forall k i,
  find_bitrate b ls k = Some i ->
  exists l, js_nth ls (i - k) = Some l /\ bitrate l = b /\ k <= i.
Proof.
  induction ls as [| x ls IH]; intros k i; cbn; [discriminate |].
  destruct (Z.eqb_spec (bitrate x) b) as [Hb | Hb].
  - intros [= <-]. exists x. rewrite Z.sub_diag. split; [reflexivity |]. split; [exact Hb | lia].
  - intros Hf. apply IH in Hf as (l & Hl & Hbl & Hk).
    exists l. split; [| split; [exact Hbl | lia]].
    apply js_nth_Some in Hl as Hr. unfold js_nth in *.
    destruct (Z.ltb_spec (i - (k + 1)) 0) as [? | _]; [lia |].
    destruct (Z.ltb_spec (i - k) 0) as [? | _]; [lia |].
    replace (Z.to_nat (i - k)) with (S (Z.to_nat (i - (k + 1)))) by lia.
    exact Hl.
Qed.

Lemma find_bitrate_total b ls k :
  b ∈ map bitrate ls -> exists i, find_bitrate b ls k = Some i.
Proof.
  revert k. induction ls as [| x ls IH]; intros k Hin; cbn; [inversion Hin |].
  destruct (Z.eqb_spec (bitrate x) b) as [Hb | Hb]; [eauto |].
  cbn in Hin. apply elem_of_cons in Hin as [Heq | Hin]; [congruence | eauto].
Qed.

Lemma insert_level_elem x ls l : l ∈ insert_level x ls <-> l = x \/ l ∈ ls.
Proof.
  induction ls as [| y ls IH]; cbn.
  - rewrite list_elem_of_singleton. split; [auto | intros [H | H]; [exact H | inversion H]].
  - destruct (bitrate x <=? bitrate y).
    + rewrite elem_of_cons. reflexivity.
    + rewrite !elem_of_cons, IH. tauto.
Qed.

Lemma sort_levels_elem ls l : l ∈ sort_levels ls <-> l ∈ ls.
Proof.
  unfold sort_levels. induction ls as [| x ls IH]; cbn; [reflexivity |].
  rewrite insert_level_elem, elem_of_cons, IH. reflexivity.
Qed.

Lemma NoDup_bitrate_eq (ls : list Level) l l' :
  NoDup (map bitrate ls) -> l ∈ ls -> l' ∈ ls -> bitrate l = bitrate l' -> l = l'.
Proof.
  induction ls as [| x ls IH]; cbn; intros Hnd Hl Hl' Hb; [inversion Hl |].
  apply NoDup_cons in Hnd as [Hx Hnd].
  apply elem_of_cons in Hl as [-> | Hl]; apply elem_of_cons in Hl' as [-> | Hl'].
  - reflexivity.
  - exfalso. apply Hx. rewrite Hb. apply list_elem_of_fmap. eauto.
  - exfalso. apply Hx. rewrite <- Hb. apply list_elem_of_fmap. eauto.
  - auto.
Qed.

Lemma sort_levels_NoDup ls :
  NoDup (map bitrate ls) -> NoDup (map bitrate (sort_levels ls)).
Proof.
  intros Hnd. apply sort_levels_sorted in Hnd.
  induction Hnd as [| b bs Hs IH Hall]; constructor; [| exact IH].
  intros Hin. rewrite Forall_forall in Hall. apply Hall in Hin. lia.
Qed.

Lemma onManifestLoaded_levels data s first rest :
  manifest_levels data = first :: rest ->
  _levels (onManifestLoaded data s) = Some (sort_levels (first :: rest)).
Proof.
  intros Hk. unfold onManifestLoaded. rewrite Hk.
  destruct (find_bitrate_total (bitrate first) (sort_levels (first :: rest)) 0)
    as [i Hi].
  { apply sort_levels_bitrates. left. }
  rewrite Hi. reflexivity.
Qed.

(** X3: when the manifest keeps at least one level, the handler stores
    the kept levels sorted by bitrate, sets [_firstLevel] to the index, in
    the sorted list, of the first level kept in manifest order, and
    announces both in MANIFEST_PARSED. *)
Theorem manifest_first_level
    (data : ManifestData) (s : State) (first : Level) (rest : list Level) :
  manifest_levels data = first :: rest ->
  exists i,
    _levels (onManifestLoaded data s) = Some (sort_levels (first :: rest))
    /\ _firstLevel (onManifestLoaded data s) = Some i
    /\ level_at (onManifestLoaded data s) i = Some first
    /\ events (onManifestLoaded data s)
       = events s ++ [MANIFEST_PARSED (sort_levels (first :: rest))
                        (manifest_audioTracks data) (Some i)
                        (audioCodecFound (m_levels data))
                        (videoCodecFound (m_levels data))
                        (0 <? Z.of_nat (length (manifest_audioTracks data)))].
Proof.
  intros Hk. unfold onManifestLoaded. rewrite Hk.
  pose proof (manifest_levels_NoDup data) as Hnd. rewrite Hk in Hnd.
  destruct (find_bitrate_total (bitrate first) (sort_levels (first :: rest)) 0)
    as [i Hi].
  { apply sort_levels_bitrates. left. }
  rewrite Hi. exists i.
  split; [reflexivity |]. split; [reflexivity |]. split; [| reflexivity].
  apply find_bitrate_Some in Hi as (l & Hl & Hb & _).
  rewrite Z.sub_0_r in Hl.
  change (js_nth (sort_levels (first :: rest)) i = Some first).
  rewrite Hl. f_equal.
  apply (NoDup_bitrate_eq (sort_levels (first :: rest))).
  - apply sort_levels_NoDup. exact Hnd.
  - eapply js_nth_elem_of. exact Hl.
  - apply sort_levels_elem. left.
  - exact Hb.
Qed.

Lemma urls_of_push b' u ls ls' b :
  push_url b' u ls = Some ls' ->
  urls_of b ls' = urls_of b ls ++ (if b' =? b then [u] else []).
Proof.
  unfold urls_of.
  revert ls'. induction ls as [| l ls IH]; intros ls'; cbn; [discriminate |].
  destruct (Z.eqb_spec (bitrate l) b') as [Hl | Hl].
  - intros [= <-]. cbn. subst b'.
    destruct (bitrate l =? b); [reflexivity | rewrite app_nil_r; reflexivity].
  - destruct (push_url b' u ls) as [ls1 |]; cbn; [| discriminate].
    intros [= <-]. cbn.
    destruct (Z.eqb_spec (bitrate l) b) as [Hb | Hb].
    + destruct (Z.eqb_spec b' b); [congruence | rewrite app_nil_r; reflexivity].
    + apply IH. reflexivity.
Qed.

Lemma urls_of_app b ls l :
  bitrate l ∉ map bitrate ls ->
  urls_of b (ls ++ [l]) = urls_of b ls ++ (if bitrate l =? b then url l else []).
Proof.
  unfold urls_of. induction ls as [| x ls IH]; cbn; intros Hnin.
  - destruct (bitrate l =? b); [reflexivity | reflexivity].
  - destruct (Z.eqb_spec (bitrate x) b) as [Hb | Hb].
    + destruct (Z.eqb_spec (bitrate l) b) as [Hl | Hl];
        [| rewrite app_nil_r; reflexivity].
      exfalso. apply Hnin. rewrite Hl, <- Hb. left.
    + apply IH. intros Hin. apply Hnin. right. exact Hin.
Qed.

Lemma urls_of_regroup b ms : forall acc,
  urls_of b (regroup ms acc)
  = urls_of b acc ++ map m_url (List.filter (fun m => m_bitrate m =? b) ms).
Proof.
  induction ms as [| m ms IH]; intros acc; cbn; [rewrite app_nil_r; reflexivity |].
  rewrite IH.
  destruct (push_url (m_bitrate m) (m_url m) acc) as [acc' |] eqn:Hpush.
  - rewrite (urls_of_push _ _ _ _ b Hpush), <- app_assoc.
    destruct (m_bitrate m =? b); reflexivity.
  - rewrite urls_of_app by (eapply push_url_None; exact Hpush).
    rewrite <- app_assoc. cbn. destruct (m_bitrate m =? b); reflexivity.
Qed.

Lemma urls_of_elem ls l :
  NoDup (map bitrate ls) -> l ∈ ls -> urls_of (bitrate l) ls = url l.
Proof.
  unfold urls_of. induction ls as [| x ls IH]; cbn; intros Hnd Hl; [inversion Hl |].
  apply NoDup_cons in Hnd as [Hx Hnd].
  destruct (Z.eqb_spec (bitrate x) (bitrate l)) as [Hb | Hb].
  - apply elem_of_cons in Hl as [-> | Hl]; [reflexivity |].
    exfalso. apply Hx. rewrite Hb. apply list_elem_of_fmap. eauto.
  - apply elem_of_cons in Hl as [-> | Hl]; [congruence | auto].
Qed.

Lemma manifest_levels_elem data l :
  l ∈ manifest_levels data -> l ∈ regroup (m_levels data) [].
Proof.
  unfold manifest_levels. intros Hl.
  eapply elem_of_sublist; [exact Hl |].
  etrans; [apply filter_sublist |].
  destruct (_ && _); [apply filter_sublist | reflexivity].
Qed.

(** X4: the levels a manifest load installs regroup the redundant
    streams: each level selects its first URL, and its URLs are those of
    the manifest entries of its bitrate, in manifest order. *)
Theorem redundant_urls_in_manifest_order
    (data : ManifestData) (s : State) (first : Level) (rest ls : list Level)
    (i : Z) (l : Level) :
  manifest_levels data = first :: rest ->
  _levels (onManifestLoaded data s) = Some ls -> js_nth ls i = Some l ->
  urlId l = 0
  /\ url l = map m_url (List.filter (fun m => m_bitrate m =? bitrate l) (m_levels data)).
Proof.
  intros Hk Hls Hi.
  pose proof (onManifestLoaded_levels data s first rest Hk) as Hls'.
  rewrite Hls' in Hls. injection Hls as <-.
  apply js_nth_elem_of in Hi.
  apply (proj1 (sort_levels_elem (first :: rest) l)) in Hi. rewrite <- Hk in Hi.
  apply manifest_levels_elem in Hi.
  split.
  - pose proof (regroup_fresh (m_levels data) [] ltac:(constructor)) as Hf.
    rewrite Forall_forall in Hf. apply Hf in Hi as [Hid _]. exact Hid.
  - rewrite <- (urls_of_elem (regroup (m_levels data) []) l);
      [| apply regroup_NoDup; constructor | exact Hi].
    rewrite urls_of_regroup. reflexivity.
Qed.

Lemma push_url_videoCodec (P : option string -> Prop) b u ls ls' :
  Forall (fun l => P (videoCodec l)) ls -> push_url b u ls = Some ls' ->
  Forall (fun l => P (videoCodec l)) ls'.
Proof.
  revert ls'. induction ls as [| l ls IH]; intros ls' Hall; cbn; [discriminate |].
  apply Forall_cons in Hall as [Hl Hall].
  destruct (bitrate l =? b); [intros [= <-]; constructor; assumption |].
  destruct (push_url b u ls) as [ls1 |]; cbn; [| discriminate].
  intros [= <-]. constructor; [exact Hl | eauto].
Qed.

Lemma regroup_videoCodec (P : option string -> Prop) ms : forall acc,
  Forall (fun m => P (m_videoCodec m)) ms ->
  Forall (fun l => P (videoCodec l)) acc ->
  Forall (fun l => P (videoCodec l)) (regroup ms acc).
Proof.
  induction ms as [| m ms IH]; intros acc Hms Hacc; cbn; [exact Hacc |].
  apply Forall_cons in Hms as [Hm Hms]. apply IH; [exact Hms |].
  destruct (push_url (m_bitrate m) (m_url m) acc) as [acc' |] eqn:Hpush.
  - eapply push_url_videoCodec; eassumption.
  - apply Forall_app. split; [exact Hacc |]. constructor; [exact Hm | constructor].
Qed.

(** X5: when every level of the manifest names a video codec that is
    not supported in MP4 (in particular when the manifest has no level),
    the handler only triggers the fatal error MEDIA_ERROR /
    MANIFEST_INCOMPATIBLE_CODECS_ERROR: the level list, the first level
    and every other field stay as they were. *)
Theorem manifest_without_compatible_level (data : ManifestData) (s : State) :
  Forall (fun m => truthy_str (m_videoCodec m) = true
                   /\ isCodecSupportedInMp4 (default "" (m_videoCodec m)) None = false)
    (m_levels data) ->
  onManifestLoaded data s
  = trigger (ERROR MEDIA_ERROR MANIFEST_INCOMPATIBLE_CODECS_ERROR true None
               "no level with compatible codecs found in manifest") s.
Proof.
  intros Hall. unfold onManifestLoaded.
  assert (Hnone : manifest_levels data = []).
  { destruct (manifest_levels data) as [| l ls] eqn:Hk; [reflexivity |].
    exfalso.
    assert (Hl : l ∈ manifest_levels data) by (rewrite Hk; left).
    pose proof (manifest_levels_supported data) as Hs.
    rewrite Forall_forall in Hs. apply Hs in Hl as Hsup. destruct Hsup as [_ Hv].
    apply manifest_levels_elem in Hl.
    pose proof (regroup_videoCodec
                  (fun c => truthy_str c = true
                            /\ isCodecSupportedInMp4 (default "" c) None = false)
                  (m_levels data) [] Hall ltac:(constructor)) as Hr.
    rewrite Forall_forall in Hr. apply Hr in Hl as [Ht Hu].
    unfold codec_ok in Hv. rewrite Ht, Hu in Hv. discriminate. }
  rewrite Hnone. reflexivity.
Qed.

End LevelControllerOrder.

(** ** Level controller: playlist requests *)

Section LevelControllerRequests.
Import LevelController.
Context {env : Env}.

Lemma emits_nothing P s s' : events s' = events s -> emits P s s'.
Proof. intros Heq. exists []. rewrite app_nil_r. split; [exact Heq | constructor]. Qed.

Lemma emits_trans P s1 s2 s3 : emits P s1 s2 -> emits P s2 s3 -> emits P s1 s3.
Proof.
  intros (n1 & H1 & P1) (n2 & H2 & P2). exists (n1 ++ n2).
  split; [rewrite H2, H1, app_assoc; reflexivity | apply Forall_app; split; assumption].
Qed.

Lemma emits_trigger P e s s' : emits P s s' -> P e -> emits P s (trigger e s').
Proof.
  intros (n & Hn & Pn) He. exists (n ++ [e]).
  split; [rewrite events_trigger, Hn, app_assoc; reflexivity |].
  apply Forall_app. split; [exact Pn | repeat constructor; exact He].
Qed.

Lemma selected_url_defined (lv : Level) :
  urlId_in_range lv -> js_nth (url lv) (urlId lv) <> None.
Proof.
  intros Hr. destruct (js_nth_in_range (url lv) (urlId lv) Hr) as [u Hu].
  rewrite Hu. discriminate.
Qed.

Lemma level_url_defined s ls i lv :
  urlIds_ok s -> _levels s = Some ls -> js_nth ls i = Some lv ->
  js_nth (url lv) (urlId lv) <> None.
Proof.
  intros Hok Hls Hi. apply selected_url_defined.
  specialize (Hok ls Hls). rewrite Forall_forall in Hok.
  apply Hok. eapply js_nth_elem_of. exact Hi.
Qed.

Ltac quiet := intros [= <-]; apply emits_nothing; reflexivity.

Lemma tick_emits s s' : urlIds_ok s -> tick s = Some s' -> emits names_url s s'.
Proof.
  intros Hok. unfold tick.
  destruct (_level s) as [levelId |]; [| quiet].
  destruct (canload s); [| quiet].
  destruct (_levels s) as [ls |] eqn:Hls; cbn [mbind option_bind]; [| discriminate].
  destruct (js_nth ls levelId) as [lv |] eqn:Hlv; [| quiet].
  intros [= <-]. apply emits_trigger; [apply emits_nothing; reflexivity |].
  cbn. eapply level_url_defined; eassumption.
Qed.

Lemma setLevelInternal_emits n s s' :
  urlIds_ok s -> setLevelInternal n s = Some s' -> emits names_url s s'.
Proof.
  intros Hok. unfold setLevelInternal.
  destruct (_levels s) as [ls |] eqn:Hls; cbn [mbind option_bind]; [| discriminate].
  destruct (Z.leb_spec 0 n) as [Hn | Hn]; cbn [andb].
  2: { intros [= <-]. apply emits_trigger; [apply emits_nothing; reflexivity | exact I]. }
  destruct (Z.ltb_spec n (Z.of_nat (length ls))) as [Hlt | Hge].
  2: { intros [= <-]. apply emits_trigger; [apply emits_nothing; reflexivity | exact I]. }
  destruct (js_nth_in_range ls n (conj Hn Hlt)) as [lv Hlv].
  pose proof (level_url_defined s ls n lv Hok Hls Hlv) as Hu.
  destruct (decide (_level (cleanTimer s) = Some n)) as [Hcur | Hcur].
  - cbn. rewrite Hls. cbn. rewrite Hlv. cbn.
    destruct (details lv) as [d |]; [destruct (live d) |]; intros [= <-];
      try (apply emits_nothing; reflexivity);
      (apply emits_trigger; [apply emits_nothing; reflexivity | exact Hu]).
  - cbn. rewrite Hlv. cbn. rewrite (js_nth_set_eq _ _ _ _ Hlv). cbn.
    assert (Hsw : emits names_url s
              (trigger (LEVEL_SWITCHING (set_lvl_level n lv))
                 (trigger (LEVEL_SWITCH (set_lvl_level n lv))
                    (set_levels (Some (js_set ls n (set_lvl_level n lv)))
                       (set__level (Some n) (cleanTimer s)))))).
    { apply emits_trigger; [| exact I]. apply emits_trigger; [| exact I].
      apply emits_nothing. reflexivity. }
    destruct (details lv) as [d |]; [destruct (live d) |]; intros [= <-];
      try exact Hsw; (apply emits_trigger; [exact Hsw | exact Hu]).
Qed.

Lemma set_level_emits n s s' :
  urlIds_ok s -> set_level n s = Some s' -> emits names_url s s'.
Proof.
  intros Hok. unfold set_level.
  destruct (_levels s) as [ls |] eqn:Hls; [| quiet].
  destruct (n <? Z.of_nat (length ls)); [| quiet].
  destruct (decide (_level s = Some n)); [| apply setLevelInternal_emits; exact Hok].
  destruct (js_nth ls n) as [lv |]; cbn [mbind option_bind]; [| discriminate].
  destruct (details lv); [quiet | apply setLevelInternal_emits; exact Hok].
Qed.

Lemma urlIds_ok_same s s' : _levels s' = _levels s -> urlIds_ok s -> urlIds_ok s'.
Proof. intros Heq Hok ls Hls. apply Hok. congruence. Qed.

Lemma step_emits a s s' :
  urlIds_ok s -> step a s = Some s' -> emits names_url s s'.
Proof.
  intros Hok.
  destruct a as [data | data now | frag | data | i | n | n | n | n | n | | | | | i d];
    cbn [step].
  - intros [= <-]. unfold onManifestLoaded.
    destruct (manifest_levels data) as [| first rest].
    + apply emits_trigger; [apply emits_nothing; reflexivity | exact I].
    + apply emits_trigger; [| exact I]. apply emits_nothing.
      destruct (find_bitrate _ _ 0); reflexivity.
  - unfold onLevelLoaded.
    destruct (decide (Some (ll_level data) = _level s)); [| quiet].
    destruct (_levels s) as [ls |]; cbn [mbind option_bind]; [| discriminate].
    destruct (js_nth ls (ll_level data)) as [lv |]; cbn [mbind option_bind];
      [| discriminate].
    destruct (live (ll_details data)); quiet.
  - unfold onFragLoaded.
    destruct frag as [f |]; [| quiet].
    destruct (String.eqb (frag_type f) "main"); [| quiet].
    destruct (_levels s) as [ls |]; cbn [mbind option_bind]; [| discriminate].
    destruct (js_nth ls (frag_level f)); quiet.
  - destruct (onError data s) as [[s1 d1] |] eqn:He; cbn; [| discriminate].
    intros [= <-]. apply emits_nothing. revert He. unfold onError.
    destruct (err_fatal data).
    { intros [= <- <-]. destruct (err_type data); reflexivity. }
    destruct (error_level data) as [[[levelIndex levelError] fragErr] |];
      cbn [mbind option_bind fst snd]; [| discriminate].
    destruct levelIndex as [levelIndex |]; [| intros [= <- <-]; reflexivity].
    destruct (_levels s) as [ls |]; cbn [mbind option_bind]; [| discriminate].
    destruct (js_nth ls levelIndex) as [lv |]; cbn [mbind option_bind]; [| discriminate].
    destruct (_ && _); [intros [= <- <-]; reflexivity |].
    cbn. destruct (_ && _); [intros [= <- <-]; reflexivity |].
    destruct (match details lv with Some d0 => live d0 | None => false end).
    { destruct levelError; intros [= <- <-]; reflexivity. }
    destruct levelError; [| intros [= <- <-]; reflexivity].
    destruct (mediaBuffered (media s)); intros [= <- <-]; reflexivity.
  - unfold onLevelRemoved.
    destruct (_levels s) as [ls |]; cbn [mbind option_bind]; [quiet | discriminate].
  - apply set_level_emits; exact Hok.
  - unfold set_manualLevel.
    destruct (n =? -1); [intros [= <-]; apply emits_nothing; destruct (_startLevel _); reflexivity |].
    intros Hs. apply set_level_emits in Hs.
    + destruct Hs as (new & Hnew & Hall). exists new. split; [| exact Hall].
      rewrite Hnew. destruct (_startLevel _); reflexivity.
    + eapply urlIds_ok_same; [| exact Hok]. destruct (_startLevel _); reflexivity.
  - unfold set_nextLoadLevel.
    destruct (set_level n s) as [s1 |] eqn:Hs1; cbn [mbind option_bind];
      [| discriminate].
    apply set_level_emits in Hs1; [| exact Hok]. intros [= <-].
    eapply emits_trans; [exact Hs1 |]. apply emits_nothing.
    destruct (_manualLevel s1 =? -1); reflexivity.
  - quiet.
  - quiet.
  - unfold startLoad.
    set (s1 := match _levels (set_canload true s) with
               | Some ls => set_levels (Some (map startLoad_level ls)) (set_canload true s)
               | None => set_canload true s
               end).
    assert (H1 : events s1 = events s /\ urlIds_ok s1).
    { subst s1. cbn [_levels set_canload].
      destruct (_levels s) as [ls |] eqn:Hls; (split; [reflexivity |]).
      - intros ls' [= <-]. specialize (Hok ls Hls).
        apply Forall_fmap. eapply Forall_impl; [exact Hok |].
        intros l Hl. unfold startLoad_level, urlId_in_range in *. cbn.
        destruct (details l) as [d |]; [destruct (live d) |]; exact Hl.
      - intros ls' Hls'. cbn in Hls'. congruence. }
    destruct H1 as [Hev Hok1].
    destruct (timer s1).
    + intros Ht. apply tick_emits in Ht; [| exact Hok1].
      eapply emits_trans; [apply emits_nothing; exact Hev | exact Ht].
    + intros [= <-]. apply emits_nothing. exact Hev.
  - quiet.
  - apply tick_emits; exact Hok.
  - quiet.
  - intros [= <-]. apply emits_nothing. unfold store_details.
    destruct (_levels s) as [ls |]; [| reflexivity].
    destruct (js_nth ls i); reflexivity.
Qed.

(** X6: every playlist request the controller has triggered in a state
    it can reach names a URL: the [url] of a LEVEL_LOADING event is never
    undefined. *)
Theorem playlist_requests_name_a_url (s : State) (u : option string) (l i : Z) :
  reachable s -> LEVEL_LOADING u l i ∈ events s -> exists x, u = Some x.
Proof.
  intros Hreach. revert u l i.
  assert (Hall : Forall names_url (events s)).
  { induction Hreach as [m delay cfgStart | a s s' Hreach IH Hstep]; [constructor |].
    destruct (reachable_inv s Hreach) as [Hok _].
    destruct (step_emits a s s' Hok Hstep) as (new & Hnew & Hn).
    rewrite Hnew. apply Forall_app. split; assumption. }
  intros u l i Hin. rewrite Forall_forall in Hall. apply Hall in Hin. cbn in Hin.
  destruct u as [x |]; [eauto | contradiction].
Qed.

End LevelControllerRequests.

(** ** Level controller: setters and load control *)

Section LevelControllerSetters.
Import LevelController.
Context {env : Env}.

Lemma setLevelInternal_settings n s s' :
  setLevelInternal n s = Some s' -> settings s' = settings s.
Proof.
  unfold setLevelInternal.
  destruct (_levels s) as [ls |] eqn:Hls; cbn [mbind option_bind]; [| discriminate].
  destruct (Z.leb_spec 0 n) as [Hn | Hn]; cbn [andb]; [| intros [= <-]; reflexivity].
  destruct (Z.ltb_spec n (Z.of_nat (length ls))) as [Hlt | Hge];
    [| intros [= <-]; reflexivity].
  destruct (js_nth_in_range ls n (conj Hn Hlt)) as [lv Hlv].
  destruct (decide (_level (cleanTimer s) = Some n)) as [Hcur | Hcur].
  - cbn. rewrite Hls. cbn. rewrite Hlv. cbn.
    destruct (details lv) as [d |]; [destruct (live d) |]; intros [= <-]; reflexivity.
  - cbn. rewrite Hlv. cbn. rewrite (js_nth_set_eq _ _ _ _ Hlv). cbn.
    destruct (details lv) as [d |]; [destruct (live d) |]; intros [= <-]; reflexivity.
Qed.

Lemma set_level_settings n s s' : set_level n s = Some s' -> settings s' = settings s.
Proof.
  unfold set_level.
  destruct (_levels s) as [ls |] eqn:Hls; [| intros [= <-]; reflexivity].
  destruct (n <? Z.of_nat (length ls)); [| intros [= <-]; reflexivity].
  destruct (decide (_level s = Some n)); [| apply setLevelInternal_settings].
  destruct (js_nth ls n) as [lv |]; cbn [mbind option_bind]; [| discriminate].
  destruct (details lv); [intros [= <-]; reflexivity | apply setLevelInternal_settings].
Qed.

(** X7: assigning [nextLoadLevel] never changes the pinned level.
    With no level pinned it stores the assigned index in
    [hls.nextAutoLevel], whether or not the index names a level; with a
    level pinned it leaves [hls.nextAutoLevel] alone, and [nextLoadLevel]
    still reads as the pinned level. *)
Theorem nextLoadLevel_assignment (n : Z) (s s' : State) :
  set_nextLoadLevel n s = Some s' ->
  _manualLevel s' = _manualLevel s
  /\ if _manualLevel s =? -1
     then nextAutoLevel s' = Some n
     else nextAutoLevel s' = nextAutoLevel s
          /\ get_nextLoadLevel s' = Some (_manualLevel s).
Proof.
  unfold set_nextLoadLevel.
  destruct (set_level n s) as [s1 |] eqn:Hs1; cbn [mbind option_bind]; [| discriminate].
  apply set_level_settings in Hs1. unfold settings in Hs1.
  injection Hs1 as Hm _ _ Ha _ _.
  intros [= <-]. unfold get_nextLoadLevel. rewrite Hm.
  destruct (Z.eqb_spec (_manualLevel s) (-1)) as [Heq | Hne]; cbn.
  - split; [exact Hm | reflexivity].
  - rewrite Hm. destruct (Z.eqb_spec (_manualLevel s) (-1)) as [? | _]; [contradiction |].
    split; [reflexivity |]. split; [exact Ha | reflexivity].
Qed.

(** X8: the first level pinned with [manualLevel] becomes the start
    level, ahead of [config.startLevel] and of the manifest's first level,
    and pinning another level later does not move it. *)
Theorem first_manual_level_is_start_level (n m : Z) (s s1 s2 : State) :
  _startLevel s = None ->
  set_manualLevel n s = Some s1 -> set_manualLevel m s1 = Some s2 ->
  get_startLevel s1 = Some n /\ get_startLevel s2 = Some n
  /\ _manualLevel s1 = n /\ _manualLevel s2 = m.
Proof.
  intros Hstart H1 H2.
  assert (Hset : forall k t t', set_manualLevel k t = Some t' ->
            _manualLevel t' = k
            /\ _startLevel t' = match _startLevel t with
                                | Some x => Some x
                                | None => Some k
                                end).
  { intros k t t'. unfold set_manualLevel.
    set (t1 := match _startLevel (set__manualLevel k t) with
               | Some _ => set__manualLevel k t
               | None => set__startLevel (Some k) (set__manualLevel k t)
               end).
    assert (Ht1 : _manualLevel t1 = k
                  /\ _startLevel t1 = match _startLevel t with
                                      | Some x => Some x
                                      | None => Some k
                                      end).
    { subst t1. cbn [_startLevel set__manualLevel].
      destruct (_startLevel t) eqn:Hst; cbn; rewrite ?Hst; split; reflexivity. }
    destruct (k =? -1); [intros [= <-]; exact Ht1 |].
    intros Hs. apply set_level_settings in Hs. unfold settings in Hs.
    injection Hs as Hm _ Hs _ _ _. rewrite Hm, Hs. exact Ht1. }
  apply Hset in H1 as [Hm1 Hs1]. apply Hset in H2 as [Hm2 Hs2].
  rewrite Hstart in Hs1. rewrite Hs1 in Hs2.
  unfold get_startLevel. rewrite Hs1, Hs2. auto.
Qed.

(** X9: [startLoad] resets the load-error count of every level, drops
    the cached details of the live levels only, and leaves the levels'
    other fields alone; when a reload timer is pending it requests the
    playlist of the current level at once, from the URL the level
    selects. *)
Theorem startLoad_resets_load_errors (s s' : State) (ls : list Level) :
  startLoad s = Some s' -> _levels s = Some ls ->
  canload s' = true
  /\ (exists ls',
        _levels s' = Some ls' /\ length ls' = length ls
        /\ forall i l, js_nth ls i = Some l ->
             exists l',
               js_nth ls' i = Some l'
               /\ loadError l' = 0
               /\ details l' = match details l with
                               | Some d => if live d then None else Some d
                               | None => None
                               end
               /\ fragmentError l' = fragmentError l /\ urlId l' = urlId l
               /\ static l' = static l)
  /\ events s'
     = events s
       ++ match timer s, _level s with
          | Some _, Some i =>
              match js_nth ls i with
              | Some l => [LEVEL_LOADING (js_nth (url l) (urlId l)) i (urlId l)]
              | None => []
              end
          | _, _ => []
          end.
Proof.
  intros Hs Hls. unfold startLoad in Hs.
  cbn [_levels set_canload] in Hs. rewrite Hls in Hs.
  set (s1 := set_levels (Some (map startLoad_level ls)) (set_canload true s)) in Hs.
  assert (Hlv : forall i l, js_nth ls i = Some l ->
            js_nth (map startLoad_level ls) i = Some (startLoad_level l)).
  { intros i l. unfold js_nth. destruct (i <? 0); [discriminate |].
    intros Hi. rewrite list_lookup_fmap, Hi. reflexivity. }
  assert (Hlevels : exists ls',
            Some (map startLoad_level ls) = Some ls' /\ length ls' = length ls
            /\ forall i l, js_nth ls i = Some l ->
                 exists l',
                   js_nth ls' i = Some l'
                   /\ loadError l' = 0
                   /\ details l' = match details l with
                                   | Some d => if live d then None else Some d
                                   | None => None
                                   end
                   /\ fragmentError l' = fragmentError l /\ urlId l' = urlId l
                   /\ static l' = static l).
  { eexists. split; [reflexivity |]. split; [apply length_map |].
    intros i l Hi. exists (startLoad_level l). split; [apply Hlv; exact Hi |].
    unfold startLoad_level.
    change (details (set_loadError 0 l)) with (details l).
    destruct (details l) as [d |] eqn:Hd; [destruct (live d) eqn:Hlive |];
      cbn; rewrite ?Hd; repeat split. }
  change (timer s1) with (timer s) in Hs.
  destruct (timer s) as [t |].
  - unfold tick in Hs. change (_level s1) with (_level s) in Hs.
    destruct (_level s) as [i |].
    + cbn in Hs. destruct (js_nth ls i) as [l |] eqn:Hi.
      * rewrite (Hlv i l Hi) in Hs. injection Hs as <-.
        split; [reflexivity |]. split; [exact Hlevels |].
        rewrite events_trigger. f_equal. f_equal.
        unfold startLoad_level. cbn.
        destruct (details l) as [d |]; [destruct (live d) |]; reflexivity.
      * assert (Hnone : js_nth (map startLoad_level ls) i = None).
        { unfold js_nth in *. destruct (i <? 0); [reflexivity |].
          rewrite list_lookup_fmap, Hi. reflexivity. }
        rewrite Hnone in Hs. injection Hs as <-.
        split; [reflexivity |]. split; [exact Hlevels |].
        cbn. rewrite app_nil_r. reflexivity.
    + injection Hs as <-. split; [reflexivity |]. split; [exact Hlevels |].
      cbn. rewrite app_nil_r. reflexivity.
  - injection Hs as <-. split; [reflexivity |]. split; [exact Hlevels |].
    cbn. rewrite app_nil_r. reflexivity.
Qed.

End LevelControllerSetters.

(** ** Level controller: error recovery and level removal *)

Section LevelControllerErrors.
Import LevelController.
Context {env : Env}.

(** X10: a non-fatal level load error or timeout on a level that has no
    untried redundant URL, that cannot be left by an automatic switch down
    (a level is pinned, or the level is level 0) and whose playlist is not
    live: when the media is buffered at the playback position and half a
    second later, the handler arms the timer with
    [config.levelLoadingRetryDelay] and marks the payload [levelRetry];
    otherwise it makes the error fatal, forgets the current level and
    clears the timer. *)
Theorem level_error_retry_or_fatal (d : ErrorData) (s : State) (i : Z) (lv : Level) :
  is_level_error d = true -> err_context_level d = Some i ->
  level_at s i = Some lv ->
  (1 < Z.of_nat (length (url lv)) -> Z.of_nat (length (url lv)) <= loadError lv + 1) ->
  (_manualLevel s <> -1 \/ i = 0) ->
  (forall dt, details lv = Some dt -> live dt = false) ->
  exists s' d',
    onError d s = Some (s', d')
    /\ if mediaBuffered (media s)
       then timer s' = Some (levelLoadingRetryDelay s)
            /\ d' = set_err_levelRetry true d /\ err_fatal d' = false
            /\ _level s' = _level s
       else d' = set_err_fatal true d /\ _level s' = None /\ timer s' = None.
Proof.
  intros Herr Hctx Hlv Hurls Hpin Hvod.
  unfold is_level_error in Herr. apply andb_prop in Herr as [Hnf Hdet].
  apply negb_true_iff in Hnf.
  unfold level_at in Hlv.
  destruct (_levels s) as [ls |] eqn:Hls; cbn in Hlv; [| discriminate].
  unfold onError. rewrite Hnf.
  assert (Hel : error_level d = Some (Some i, true, false)).
  { unfold error_level. rewrite Hctx.
    destruct (err_details d); try discriminate; reflexivity. }
  rewrite Hel. cbn [mbind option_bind fst snd]. rewrite Hls. cbn [mbind option_bind].
  rewrite Hlv. cbn [mbind option_bind].
  cbn [url set_fragmentError set_loadError loadError urlId details].
  assert (Hrot : (1 <? Z.of_nat (length (url lv)))
                 && (loadError lv + 1 <? Z.of_nat (length (url lv))) = false).
  { destruct (Z.ltb_spec 1 (Z.of_nat (length (url lv)))) as [H1 | _]; [| reflexivity].
    destruct (Z.ltb_spec (loadError lv + 1) (Z.of_nat (length (url lv)))) as [? | _];
      [specialize (Hurls H1); lia | reflexivity]. }
  rewrite Hrot.
  assert (Hdown : (_manualLevel s =? -1) && negb (i =? 0) = false).
  { destruct Hpin as [Hm | ->]; [| apply andb_false_r].
    destruct (Z.eqb_spec (_manualLevel s) (-1)); [contradiction | reflexivity]. }
  cbn [_manualLevel set_levels]. rewrite Hdown.
  assert (Hlive : match details lv with Some d0 => live d0 | None => false end = false).
  { destruct (details lv) as [dt |]; [apply Hvod; reflexivity | reflexivity]. }
  rewrite Hlive. cbn [media set_levels].
  destruct (mediaBuffered (media s)).
  - eexists _, _. split; [reflexivity |].
    split; [reflexivity |]. split; [reflexivity |]. split; [exact Hnf | reflexivity].
  - eexists _, _. split; [reflexivity |]. split; [reflexivity |]. split; reflexivity.
Qed.

(** X11: a non-fatal error charged to a level counts one more load
    error on that level and records whether a fragment or key failed;
    the level keeps its bitrate, URLs and codecs, no level is added or
    removed, and every other level is left as it was. *)
Theorem onError_charges_one_level
    (d d' : ErrorData) (s s' : State) (ls : list Level) (i : Z)
    (levelError fragmentError_ : bool) :
  err_fatal d = false ->
  error_level d = Some (Some i, levelError, fragmentError_) ->
  _levels s = Some ls -> onError d s = Some (s', d') ->
  exists ls' lv lv',
    _levels s' = Some ls' /\ length ls' = length ls
    /\ js_nth ls i = Some lv /\ js_nth ls' i = Some lv'
    /\ loadError lv' = loadError lv + 1
    /\ fragmentError lv' = fragmentError_
    /\ static lv' = static lv
    /\ forall j, j <> i -> js_nth ls' j = js_nth ls j.
Proof.
  intros Hnf Hel Hls. unfold onError. rewrite Hnf, Hel.
  cbn [mbind option_bind fst snd]. rewrite Hls. cbn [mbind option_bind].
  destruct (js_nth ls i) as [lv |] eqn:Hlv; cbn [mbind option_bind]; [| discriminate].
  cbn [url set_fragmentError set_loadError loadError urlId details].
  assert (Hgen : forall (t : State) lv',
            _levels t = Some (js_set ls i lv') ->
            loadError lv' = loadError lv + 1 -> fragmentError lv' = fragmentError_ ->
            static lv' = static lv ->
            exists ls' lv0 lv'0,
              _levels t = Some ls' /\ length ls' = length ls
              /\ Some lv = Some lv0 /\ js_nth ls' i = Some lv'0
              /\ loadError lv'0 = loadError lv0 + 1
              /\ fragmentError lv'0 = fragmentError_
              /\ static lv'0 = static lv0
              /\ forall j, j <> i -> js_nth ls' j = js_nth ls j).
  { intros t lv' Ht Hle Hfe Hst. exists (js_set ls i lv'), lv, lv'.
    split; [exact Ht |]. split; [apply js_set_length |]. split; [reflexivity |].
    split; [eapply js_nth_set_eq; exact Hlv |].
    split; [exact Hle |]. split; [exact Hfe |]. split; [exact Hst |].
    intros j Hj. apply js_nth_set_ne. congruence. }
  destruct (_ && _); [intros [= <- <-]; eapply Hgen; reflexivity |].
  cbn [_manualLevel set_levels].
  destruct (_ && _); [intros [= <- <-]; eapply Hgen; reflexivity |].
  destruct (match details lv with Some d0 => live d0 | None => false end).
  { destruct levelError; intros [= <- <-]; eapply Hgen; reflexivity. }
  destruct levelError; [| intros [= <- <-]; eapply Hgen; reflexivity].
  destruct (mediaBuffered _); intros [= <- <-]; eapply Hgen; reflexivity.
Qed.

Lemma remove_index_before {A} (l : list A) : forall (i k : Z),
  i < k -> remove_index i k l = l.
Proof.
  induction l as [| x l IH]; intros i k Hk; cbn; [reflexivity |].
  destruct (Z.eqb_spec k i); [lia |]. rewrite IH by lia. reflexivity.
Qed.

Lemma remove_index_take_drop {A} (l : list A) : forall (i k : Z),
  k <= i ->
  remove_index i k l = take (Z.to_nat (i - k)) l ++ drop (S (Z.to_nat (i - k))) l.
Proof.
  induction l as [| x l IH]; intros i k Hk; cbn; [rewrite take_nil; reflexivity |].
  destruct (Z.eqb_spec k i) as [-> | Hne].
  - rewrite Z.sub_diag. cbn. rewrite drop_0. apply remove_index_before. lia.
  - rewrite IH by lia.
    replace (Z.to_nat (i - k)) with (S (Z.to_nat (i - (k + 1)))) by lia.
    reflexivity.
Qed.

(** X12: LEVEL_REMOVED removes the level at the given index and keeps
    the other levels in order; an index that names no level leaves the
    list as it is.  The current level index, the timer and the other
    fields are not adjusted.  Without a level list the handler raises. *)
Theorem onLevelRemoved_removes_one (i : Z) (s : State) :
  match _levels s with
  | Some ls =>
      exists s',
        onLevelRemoved i s = Some s'
        /\ _levels s'
           = Some (if i <? 0 then ls
                   else take (Z.to_nat i) ls ++ drop (S (Z.to_nat i)) ls)
        /\ (Z.of_nat (length ls) <= i -> _levels s' = Some ls)
        /\ _level s' = _level s /\ timer s' = timer s /\ events s' = events s
        /\ settings s' = settings s
  | None => onLevelRemoved i s = None
  end.
Proof.
  unfold onLevelRemoved.
  destruct (_levels s) as [ls |] eqn:Hls; cbn [mbind option_bind]; [| reflexivity].
  eexists. split; [reflexivity |]. cbn [_levels set_levels].
  assert (Heq : remove_index i 0 ls
                = if i <? 0 then ls
                  else take (Z.to_nat i) ls ++ drop (S (Z.to_nat i)) ls).
  { destruct (Z.ltb_spec i 0) as [Hneg | Hpos].
    - apply remove_index_before. exact Hneg.
    - rewrite remove_index_take_drop by exact Hpos. rewrite Z.sub_0_r. reflexivity. }
  split; [rewrite Heq; reflexivity |].
  split; [| repeat split].
  intros Hge. rewrite Heq.
  destruct (Z.ltb_spec i 0) as [? | _]; [lia |].
  rewrite take_ge, drop_ge, app_nil_r by lia. reflexivity.
Qed.

End LevelControllerErrors.

(** ** Level controller: more of the example session *)

Section LevelControllerMoreExamples.
Import LevelController.

Lemma example_loaded_reachable : @reachable example_env example_loaded.
Proof.
  eapply (@reachable_step example_env (ManifestLoaded example_manifest));
    [apply reachable_init | reflexivity].
Qed.

(** The two levels of the example: 800 kb/s at index 0, 2 Mb/s at index 1. *)
Lemma levels_sorted_example :
  @reachable example_env example_loaded
  /\ exists ls li lj,
       _levels example_loaded = Some ls
       /\ js_nth ls 0 = Some li /\ js_nth ls 1 = Some lj
       /\ bitrate li < bitrate lj.
Proof.
  split; [exact example_loaded_reachable |].
  eexists _, _, _. split; [reflexivity |]. split; [reflexivity |]. split; [reflexivity |].
  eapply (@levels_sorted_by_bitrate example_env example_loaded _ 0 1);
    [exact example_loaded_reachable | reflexivity | reflexivity | reflexivity | lia].
Defined.

Lemma supported_codecs_example :
  @reachable example_env example_loaded
  /\ exists ls l,
       _levels example_loaded = Some ls /\ js_nth ls 1 = Some l
       /\ @codec_ok example_env (audioCodec l) None = true
       /\ @codec_ok example_env (videoCodec l) None = true.
Proof.
  split; [exact example_loaded_reachable |].
  eexists _, _. split; [reflexivity |]. split; [reflexivity |].
  eapply (@levels_have_supported_codecs example_env example_loaded _ 1);
    [exact example_loaded_reachable | reflexivity | reflexivity].
Defined.

(** The example manifest lists the low level first: it is the first
    level. *)
Lemma manifest_first_level_example :
  exists first rest i,
    @manifest_levels example_env example_manifest = first :: rest
    /\ _firstLevel example_loaded = Some i
    /\ level_at example_loaded i = Some first
    /\ bitrate first = 800000.
Proof.
  eexists _, _. 
  destruct (@manifest_first_level example_env example_manifest example_init _ _ eq_refl)
    as (i & _ & Hf & Hl & _).
  exists i. split; [reflexivity |]. split; [exact Hf |]. split; [exact Hl | reflexivity].
Defined.

(** The three redundant streams of the high level. *)
Lemma redundant_urls_example :
  exists first rest ls l,
    @manifest_levels example_env example_manifest = first :: rest
    /\ _levels example_loaded = Some ls /\ js_nth ls 1 = Some l
    /\ urlId l = 0
    /\ url l = ["http://a/high.m3u8"; "http://b/high.m3u8"; "http://c/high.m3u8"].
Proof.
  eexists _, _, _, _. split; [reflexivity |]. split; [reflexivity |].
  split; [reflexivity |].
  destruct (@redundant_urls_in_manifest_order example_env example_manifest example_init
              _ _ _ 1 _ eq_refl eq_refl eq_refl) as [Hid Hurl].
  split; [exact Hid | exact Hurl].
Defined.

(** Two HEVC levels on a browser that plays H.264 only. *)
Lemma manifest_without_compatible_level_example :
  Forall (fun m => truthy_str (m_videoCodec m) = true
                   /\ @isCodecSupportedInMp4 example_strict_env
                        (default "" (m_videoCodec m)) None = false)
    (m_levels example_hevc_manifest)
  /\ exists e,
       events (@onManifestLoaded example_strict_env example_hevc_manifest example_init)
       = [e]
       /\ _levels (@onManifestLoaded example_strict_env example_hevc_manifest example_init)
          = None.
Proof.
  assert (H : Forall (fun m => truthy_str (m_videoCodec m) = true
                   /\ @isCodecSupportedInMp4 example_strict_env
                        (default "" (m_videoCodec m)) None = false)
    (m_levels example_hevc_manifest)) by (repeat constructor).
  split; [exact H |].
  rewrite (@manifest_without_compatible_level example_strict_env
             example_hevc_manifest example_init H).
  eexists. split; reflexivity.
Defined.

(** The request that selecting the high level triggers. *)
Lemma playlist_request_example :
  exists s,
    @reachable example_env s
    /\ LEVEL_LOADING (Some "http://a/high.m3u8") 1 0 ∈ events s.
Proof.
  exists (default example_init (set_level 1 example_loaded)).
  assert (Hr : @reachable example_env (default example_init (set_level 1 example_loaded))).
  { eapply (@reachable_step example_env (SetLevel 1) example_loaded);
      [exact example_loaded_reachable | vm_compute; reflexivity]. }
  split; [exact Hr |].
  assert (Hin : LEVEL_LOADING (Some "http://a/high.m3u8") 1 0
                 ∈ events (default example_init (set_level 1 example_loaded))).
  { apply list_elem_of_In. vm_compute. do 3 right. left. reflexivity. }
  destruct (@playlist_requests_name_a_url example_env _ _ 1 0 Hr Hin) as [x Hx].
  exact Hin.
Defined.

(** Level 5 assigned as next load level where there are two levels: no
    level is switched to, and 5 is stored as the next automatic level. *)
Lemma nextLoadLevel_example :
  exists s',
    set_nextLoadLevel 5 example_loaded = Some s'
    /\ _level s' = _level example_loaded
    /\ nextAutoLevel s' = Some 5.
Proof.
  set (s' := default example_init (set_nextLoadLevel 5 example_loaded)).
  assert (Hs : set_nextLoadLevel 5 example_loaded = Some s') by (vm_compute; reflexivity).
  exists s'. split; [exact Hs |]. split; [reflexivity |].
  destruct (nextLoadLevel_assignment 5 example_loaded s' Hs) as [_ Hauto].
  exact Hauto.
Defined.

(** Level 1 pinned, then level 0: the start level stays 1. *)
Lemma first_manual_level_example :
  exists s1 s2,
    _startLevel example_loaded = None
    /\ set_manualLevel 1 example_loaded = Some s1
    /\ set_manualLevel 0 s1 = Some s2
    /\ get_startLevel s2 = Some 1 /\ _manualLevel s2 = 0.
Proof.
  set (s1 := default example_init (set_manualLevel 1 example_loaded)).
  set (s2 := default example_init (set_manualLevel 0 s1)).
  assert (H1 : set_manualLevel 1 example_loaded = Some s1) by (vm_compute; reflexivity).
  assert (H2 : set_manualLevel 0 s1 = Some s2) by (vm_compute; reflexivity).
  exists s1, s2. split; [reflexivity |]. split; [exact H1 |]. split; [exact H2 |].
  destruct (first_manual_level_is_start_level 1 0 example_loaded s1 s2 eq_refl H1 H2)
    as (_ & Hs2 & _ & Hm2).
  split; [exact Hs2 | exact Hm2].
Defined.

(** Loading restarted while the high level plays a live playlist: the
    cached playlist is dropped and requested again at once. *)
Lemma startLoad_example :
  exists s' ls ls' l',
    startLoad example_live = Some s' /\ _levels example_live = Some ls
    /\ _levels s' = Some ls' /\ js_nth ls' 1 = Some l'
    /\ details l' = None /\ loadError l' = 0
    /\ level_loadings (events s')
       = level_loadings (events example_live) ++ [(Some "http://a/high.m3u8", 1, 0)].
Proof.
  set (s' := default example_init (startLoad example_live)).
  assert (Hs : startLoad example_live = Some s') by (vm_compute; reflexivity).
  destruct (startLoad_resets_load_errors example_live s' _ Hs eq_refl)
    as (_ & (ls' & Hls' & _ & Hall) & Hev).
  destruct (Hall 1 _ eq_refl) as (l' & Hl' & Hle & Hd & _).
  eexists s', _, ls', l'. split; [exact Hs |]. split; [reflexivity |].
  split; [exact Hls' |]. split; [exact Hl' |]. split; [exact Hd |].
  split; [exact Hle |]. rewrite Hev. rewrite level_loadings_app. reflexivity.
Defined.

(** The playlist of the low level, which has one URL, fails to load with
    no media attached: the error becomes fatal. *)
Lemma level_error_example :
  exists lv s' d',
    level_at example_loaded 0 = Some lv
    /\ @onError example_env (example_level_error 0) example_loaded = Some (s', d')
    /\ err_fatal d' = true /\ _level s' = None.
Proof.
  eexists _.
  destruct (@level_error_retry_or_fatal example_env (example_level_error 0)
              example_loaded 0 _ eq_refl eq_refl eq_refl)
    as (s' & d' & Hs' & Hd' & Hl & _).
  - cbn. lia.
  - right. reflexivity.
  - intros dt; discriminate.
  - exists s', d'. split; [reflexivity |]. split; [exact Hs' |].
    split; [rewrite Hd'; reflexivity | exact Hl].
Defined.

(** A fragment of the high level fails to load: the low level is not
    touched. *)
Lemma onError_charges_example :
  exists s' d' ls ls' lv',
    _levels example_loaded = Some ls
    /\ @onError example_env (example_frag_error 1) example_loaded = Some (s', d')
    /\ _levels s' = Some ls' /\ js_nth ls' 1 = Some lv'
    /\ loadError lv' = 1 /\ fragmentError lv' = true
    /\ js_nth ls' 0 = js_nth ls 0.
Proof.
  set (r := default (example_init, example_frag_error 1)
              (@onError example_env (example_frag_error 1) example_loaded)).
  set (s' := fst r). set (d' := snd r).
  assert (Hs : @onError example_env (example_frag_error 1) example_loaded = Some (s', d'))
    by (vm_compute; reflexivity).
  destruct (@onError_charges_one_level example_env (example_frag_error 1) d'
              example_loaded s' _ 1 false true eq_refl eq_refl eq_refl Hs)
    as (ls' & lv & lv' & Hls' & _ & Hlv & Hlv' & Hle & Hfe & _ & Hother).
  eexists s', d', _, ls', lv'. split; [reflexivity |]. split; [exact Hs |].
  split; [exact Hls' |]. split; [exact Hlv' |].
  split; [rewrite Hle; injection Hlv as <-; reflexivity |].
  split; [exact Hfe | apply Hother; lia].
Defined.

End LevelControllerMoreExamples.

(** ** Audio stream controller: retries, errors and what a tick may do *)

Section AudioStreamControllerMore.
Import AudioStreamController.
Context {env : Env} {senv : StreamEnv}.

Lemma retryDelay_pos c k :
  (0 < fragLoadingRetryDelay c)%Q -> (0 < fragLoadingMaxRetryTimeout c)%Q ->
  (0 < retryDelay c k)%Q.
Proof.
  intros Hd Hm. unfold retryDelay. apply Q.min_glb_lt; [| exact Hm].
  apply Qmult_lt_0_compat; [| exact Hd].
  apply Qpower_0_lt. reflexivity.
Qed.

(** X13: once a failed load of an audio fragment is scheduled for a
    retry, with positive retry delays in the configuration, a tick leaves
    the controller waiting until the retry date, the time of the error
    plus the backoff delay, and returns it to IDLE from that date on, or
    at once while the media element is seeking. *)
Theorem retry_waits_for_retry_date (d : ErrorData) (now t : Q) (s : State) :
  is_frag_load_error d = true ->
  0 <= fragLoadError s ->
  fragLoadError s + 1 <= fragLoadingMaxRetry (config s) ->
  (0 <= now)%Q ->
  (0 < fragLoadingRetryDelay (config s))%Q ->
  (0 < fragLoadingMaxRetryTimeout (config s))%Q ->
  exists s1,
    onError d now s = Some (s1, d)
    /\ (now < retryDate s1)%Q
    /\ retryDate s1 = (now + retryDelay (config s) (fragLoadError s + 1))%Q
    /\ doTick t s1
       = Some (if Qle_bool (retryDate s1) t || isSeeking s
               then set_state IDLE s1 else s1).
Proof.
  intros Hd H0 Hmax Hnow Hdelay Htimeout.
  rewrite (onError_retries d now s Hd H0 Hmax).
  eexists. split; [reflexivity |].
  pose proof (retryDelay_pos (config s) (fragLoadError s + 1) Hdelay Htimeout) as Hpos.
  cbn [retryDate set_state set_retryDate].
  split.
  { rewrite <- (Qplus_0_r now) at 1. apply Qplus_lt_r. exact Hpos. }
  split; [reflexivity |].
  unfold doTick. cbn [state set_state retryDate set_retryDate media set_fragLoadError].
  assert (Hnz : Qeq_bool (now + retryDelay (config s) (fragLoadError s + 1)) 0 = false).
  { destruct (Qeq_bool _ 0) eqn:Heq; [| reflexivity].
    apply Qeq_bool_eq in Heq. exfalso.
    assert (Hlt : (0 < now + retryDelay (config s) (fragLoadError s + 1))%Q).
    { apply Qlt_le_trans with (0 + retryDelay (config s) (fragLoadError s + 1))%Q.
      - rewrite Qplus_0_l. exact Hpos.
      - apply Qplus_le_l. exact Hnow. }
    rewrite Heq in Hlt. apply Qlt_irrefl in Hlt. exact Hlt. }
  rewrite Hnz. cbn [orb]. unfold isSeeking.
  destruct (Qle_bool _ t || _); reflexivity.
Qed.

(** X14: the error handler raises in one case only: a capacity error of
    the audio source buffer received in PARSING or PARSED while no media
    element is attached, where it reads [this.media.currentTime]. *)
Theorem onError_raises_only_without_media (d : ErrorData) (now : Q) (s : State) :
  onError d now s = None
  <-> is_audio_buffer_full d = true
      /\ (state s = PARSING \/ state s = PARSED) /\ media s = None.
Proof.
  unfold onError, is_audio_buffer_full.
  destruct (not_audio (err_frag d)); cbn [negb andb].
  { split; [discriminate | intros [H _]; discriminate]. }
  destruct (err_details d);
    try (split; [discriminate | intros [H _]; discriminate]).
  - destruct (err_fatal d); [split; [discriminate | intros [H _]; discriminate] |].
    destruct (_ <=? _); split; try discriminate; intros [H _]; discriminate.
  - destruct (err_fatal d); [split; [discriminate | intros [H _]; discriminate] |].
    destruct (_ <=? _); split; try discriminate; intros [H _]; discriminate.
  - destruct (state s); split; try discriminate; intros [H _]; discriminate.
  - destruct (state s); split; try discriminate; intros [H _]; discriminate.
  - destruct (state s); split; try discriminate; intros [H _]; discriminate.
  - destruct (state s); split; try discriminate; intros [H _]; discriminate.
  - destruct (match err_parent d with Some p => String.eqb p "audio" | None => false end);
      cbn [andb]; [| split; [discriminate | intros [H _]; discriminate]].
    destruct (state s) eqn:Hst; cbn [andb];
      try (split; [discriminate | intros (_ & [H | H] & _); discriminate]).
    + destruct (media s) as [m |]; cbn [mbind option_bind].
      * split; [| intros (_ & _ & H); discriminate].
        destruct (match mediaBuffer s with Some b => _ | None => false end);
          [destruct (Qle_bool _ _) |]; discriminate.
      * split; [intros _; auto | reflexivity].
    + destruct (media s) as [m |]; cbn [mbind option_bind].
      * split; [| intros (_ & _ & H); discriminate].
        destruct (match mediaBuffer s with Some b => _ | None => false end);
          [destruct (Qle_bool _ _) |]; discriminate.
      * split; [intros _; auto | reflexivity].
Qed.

Lemma set_state_same s : set_state (state s) s = s.
Proof. destruct s. reflexivity. Qed.

Lemma set_state_twice a b s : set_state a (set_state b s) = set_state a s.
Proof. reflexivity. Qed.

(** X15: through a run of key and audio-track load errors the handler
    changes nothing but the state, and a fatal one is never undone: the
    run ends in ERROR when the controller was in ERROR or one of the
    errors is fatal, and in IDLE otherwise; the payloads are left as they
    came. *)
Theorem fatal_key_or_track_error_sticks (ds : list (ErrorData * Q)) (s : State) :
  Forall (fun dn => is_key_or_track_error (fst dn) = true) ds ->
  onErrors ds s
  = Some (set_state
            (if in_error s || existsb (fun dn => err_fatal (fst dn)) ds then ERROR
             else match ds with [] => state s | _ => IDLE end) s,
          map fst ds).
Proof.
  revert s. induction ds as [| [d now] ds IH]; intros s Hall.
  - cbn. rewrite orb_false_r. unfold in_error.
    destruct (state s) eqn:Hst; rewrite <- Hst, set_state_same; reflexivity.
  - apply Forall_cons in Hall as [Hd Hall]. cbn [fst] in Hd.
    unfold is_key_or_track_error in Hd. apply andb_prop in Hd as [Hn Hdet].
    apply negb_true_iff in Hn.
    assert (H1 : onError d now s
                 = Some (if in_error s then s
                         else set_state (if err_fatal d then ERROR else IDLE) s, d)).
    { unfold onError, in_error. rewrite Hn.
      destruct (err_details d); try discriminate; destruct (state s); reflexivity. }
    cbn [onErrors]. rewrite H1. cbn [mbind option_bind fst snd].
    rewrite IH by exact Hall. cbn [mbind option_bind fst snd map existsb].
    f_equal. f_equal.
    unfold in_error. destruct (state s) eqn:Hst; cbn [state set_state];
      rewrite ?Hst; cbn [orb];
      destruct (err_fatal d); cbn [state set_state orb];
      try reflexivity;
      destruct (existsb _ ds); cbn; try reflexivity; destruct ds; reflexivity.
Qed.

Lemma loadFragment_outcome frag td s0 s :
  events s = events s0 -> state s = IDLE ->
  TickOutcome s0 (loadFragment frag td (audioSwitch s0) s).
Proof.
  intros Hev Hst. unfold loadFragment.
  destruct (frag_encrypted frag) eqn:Henc.
  { eapply tick_key; [| reflexivity | exact Henc].
    cbn. rewrite Hev. reflexivity. }
  cbv zeta.
  destruct (audioSwitch s0 || _).
  - destruct (frag_sn frag) as [n |].
    + cbn [initPTS set_nextLoadPosition set_startFragRequested set_fragCurrent].
      destruct (defined (initSegment td) || _).
      * eapply tick_frag; [| reflexivity | exact Henc | reflexivity].
        cbn. rewrite Hev. reflexivity.
      * apply tick_quiet; [exact Hev | right; right; reflexivity].
    + eapply tick_frag; [| reflexivity | exact Henc | reflexivity].
      cbn. rewrite Hev. reflexivity.
  - apply tick_quiet; [destruct (frag_sn frag); exact Hev |].
    left. destruct (frag_sn frag); exact Hst.
Qed.

Lemma seek_events t s s0 : seek t s = Some s0 -> events s0 = events s.
Proof.
  unfold seek. destruct (media s); cbn; [| discriminate]. intros [= <-]. reflexivity.
Qed.

Lemma switch_bufferEnd_events sw td info pos start s r :
  switch_bufferEnd sw td info pos start s = Some r ->
  match r with Done s0 | Go _ s0 => events s0 = events s end.
Proof.
  unfold switch_bufferEnd.
  destruct sw; [| intros [= <-]; reflexivity].
  destruct (live td && negb (PTSKnown td)); [intros [= <-]; reflexivity |].
  destruct (PTSKnown td && Qltb pos start); [| intros [= <-]; reflexivity].
  destruct (Qltb start (bi_end info) || truthy_num (bi_nextStart info));
    [| intros [= <-]; reflexivity].
  destruct (seek _ s) as [s0 |] eqn:Hseek; cbn; [| discriminate].
  intros [= <-]. eapply seek_events; exact Hseek.
Qed.

Lemma chooseFragment_events td info bufferEnd start end_ s r :
  chooseFragment td info bufferEnd start end_ s = Some r ->
  match r with Done s0 | Go _ s0 => events s0 = events s end.
Proof.
  unfold chooseFragment.
  destruct (match initSegment td with Some i => negb (init_data i) | None => false end);
    [intros [= <-]; reflexivity |].
  destruct (Qltb bufferEnd start).
  - destruct (head (fragments td)) as [frag |]; cbn [mbind option_bind]; [| discriminate].
    destruct (live td); [| intros [= <-]; reflexivity].
    destruct (seek _ s) as [s0 |] eqn:Hseek; cbn; [| discriminate].
    intros [= <-]. eapply seek_events; exact Hseek.
  - cbv zeta.
    destruct (if Qltb bufferEnd end_ then _ else _) as [frag |];
      [| intros [= <-]; reflexivity].
    destruct (fragPrevious s) as [prev |]; [| intros [= <-]; reflexivity].
    destruct (_ && _); [| intros [= <-]; reflexivity].
    destruct (frag_sn frag) as [n |]; [| intros [= <-]; reflexivity].
    destruct (n <? endSN td); [| intros [= <-]; reflexivity].
    destruct (js_nth _ _); cbn; [| discriminate].
    intros [= <-]. reflexivity.
Qed.

Lemma doTick_IDLE_outcome (s s' : State) :
  state s = IDLE -> doTick_IDLE s = Some s' -> TickOutcome s s'.
Proof.
  intros Hidle. unfold doTick_IDLE.
  assert (Hq : forall t, events t = events s -> state t = IDLE -> TickOutcome s t).
  { intros t Hev Hst. apply tick_quiet; [exact Hev | left; exact Hst]. }
  destruct (levels s) as [lvls |]; [| intros [= <-]; apply Hq; auto].
  destruct (negb (defined (media s)) && _); [intros [= <-]; apply Hq; auto |].
  destruct (if loadedmetadata s then _ else _) as [pos |];
    cbn [mbind option_bind]; [| discriminate].
  destruct pos as [pos |]; [| intros [= <-]; apply Hq; auto].
  destruct (js_nth lvls (trackId s)) as [levelInfo |]; [| intros [= <-]; apply Hq; auto].
  cbv zeta.
  destruct (Qltb _ _ || audioSwitch s) eqn:Hgo; [| intros [= <-]; apply Hq; auto].
  destruct (details levelInfo) as [td |].
  2: { intros [= <-]. apply tick_quiet; [reflexivity | right; left; reflexivity]. }
  destruct (negb (audioSwitch s) && _) eqn:Hend.
  { intros [= <-]. apply tick_ended; [reflexivity | reflexivity |].
    apply andb_prop in Hend as [Hsw _]. apply negb_true_iff in Hsw. exact Hsw. }
  destruct (last (fragments td)) as [lastFrag |]; cbn [mbind option_bind]; [| discriminate].
  destruct (head (fragments td)) as [firstFrag |]; cbn [mbind option_bind]; [| discriminate].
  destruct (switch_bufferEnd _ _ _ _ _ s) as [r1 |] eqn:Hr1;
    cbn [mbind option_bind]; [| discriminate].
  pose proof (switch_bufferEnd_events _ _ _ _ _ _ _ Hr1) as He1.
  apply switch_bufferEnd_same_core in Hr1.
  destruct r1 as [s1 | bufferEnd s1].
  { intros [= <-]. apply Hq; [exact He1 |]. destruct Hr1 as [Hst _]. congruence. }
  destruct (chooseFragment _ _ _ _ _ s1) as [r2 |] eqn:Hr2;
    cbn [mbind option_bind]; [| discriminate].
  pose proof (chooseFragment_events _ _ _ _ _ _ _ Hr2) as He2.
  apply chooseFragment_same_core in Hr2.
  assert (Hst2 : forall t, same_core s1 t -> state t = IDLE)
    by (intros t [H1 _]; destruct Hr1 as [H3 _]; congruence).
  destruct r2 as [s2 | [frag |] s2].
  - intros [= <-]. apply Hq; [congruence | apply Hst2; exact Hr2].
  - intros [= <-]. apply loadFragment_outcome; [congruence | apply Hst2; exact Hr2].
  - intros [= <-]. apply Hq; [congruence | apply Hst2; exact Hr2].
Qed.

(** X16: what a tick may do, state by state.  In IDLE it triggers at
    most one event, and the state it leaves tells which: nothing (the
    controller stays in IDLE, or waits for the track or for the init PTS),
    KEY_LOADING for an encrypted fragment (state KEY_LOADING),
    FRAG_LOADING for a fragment that is not encrypted, which becomes the
    current fragment (state FRAG_LOADING), or BUFFER_EOS outside an audio
    switch (state ENDED); so no encrypted fragment is requested before its
    key.  In the other states it triggers nothing and changes the state
    only from STARTING to WAITING_TRACK, from WAITING_TRACK to
    WAITING_INIT_PTS, and from FRAG_LOADING_WAITING_RETRY or
    WAITING_INIT_PTS to IDLE. *)
Theorem tick_outcome (now : Q) (s s' : State) :
  doTick now s = Some s' ->
  match state s with
  | IDLE => TickOutcome s s'
  | STARTING => s' = set_loadedmetadata false (set_state WAITING_TRACK s)
  | WAITING_TRACK => s' = s \/ s' = set_state WAITING_INIT_PTS s
  | FRAG_LOADING_WAITING_RETRY | WAITING_INIT_PTS => s' = s \/ s' = set_state IDLE s
  | _ => s' = s
  end.
Proof.
  unfold doTick. destruct (state s) eqn:Hst; try (intros [= <-]; reflexivity).
  - apply doTick_IDLE_outcome. exact Hst.
  - destruct (_ || _); intros [= <-]; auto.
  - destruct (levels s) as [lvls |]; [| intros [= <-]; auto].
    destruct (js_nth lvls (trackId s)) as [t |]; [| intros [= <-]; auto].
    destruct (defined (details t)); intros [= <-]; auto.
  - destruct (Number_isFinite _); intros [= <-]; auto.
Qed.

End AudioStreamControllerMore.

Section AudioStreamControllerMoreExamples.
Import AudioStreamController.

(** A first load error at time 5 with the example configuration: the
    retry is due at 5 + 1000 ms, and a tick at 6 ms leaves the controller
    waiting. *)
Lemma retry_wait_example :
  exists s1,
    @onError example_env example_load_error 5 (example_state FRAG_LOADING [])
      = Some (s1, example_load_error)
    /\ (retryDate s1 == 1005)%Q
    /\ @doTick example_stream_env 6 s1 = Some s1
    /\ @doTick example_stream_env 1005 s1 = Some (set_state IDLE s1).
Proof.
  destruct (@retry_waits_for_retry_date example_env example_stream_env
              example_load_error 5 6 (example_state FRAG_LOADING []))
    as (s1 & H1 & _ & Hdate & Htick); try reflexivity; try discriminate.
  destruct (@retry_waits_for_retry_date example_env example_stream_env
              example_load_error 5 1005 (example_state FRAG_LOADING []))
    as (s2 & H2 & _ & Hdate2 & Htick2); try reflexivity; try discriminate.
  assert (Hs : s2 = s1) by congruence. subst s2.
  exists s1. split; [exact H1 |].
  split; [rewrite Hdate; reflexivity |].
  rewrite Hdate in Htick, Htick2.
  split; [exact Htick | exact Htick2].
Defined.

(** Three key load errors, the second fatal, received in KEY_LOADING:
    the controller ends in ERROR. *)
Lemma fatal_key_error_example :
  @onErrors example_env
    [(example_key_error false, 0%Q); (example_key_error true, 1%Q);
     (example_key_error false, 2%Q)]
    (example_state KEY_LOADING [])
  = Some (example_state ERROR [],
          [example_key_error false; example_key_error true; example_key_error false]).
Proof.
  apply (@fatal_key_or_track_error_sticks example_env
           [(example_key_error false, 0%Q); (example_key_error true, 1%Q);
            (example_key_error false, 2%Q)]
           (example_state KEY_LOADING [])).
  repeat constructor.
Defined.

(** The tick of the idle example controller: the fragment of continuity
    counter 1 is chosen and the controller waits for its init PTS. *)
Lemma idle_tick_example :
  exists s',
    @doTick example_stream_env 0 example_idle = Some s'
    /\ TickOutcome example_idle s'.
Proof.
  set (s' := default example_idle (@doTick example_stream_env 0 example_idle)).
  assert (H : @doTick example_stream_env 0 example_idle = Some s')
    by (vm_compute; reflexivity).
  exists s'. split; [exact H |].
  exact (@tick_outcome example_stream_env 0 example_idle s' H).
Defined.

End AudioStreamControllerMoreExamples.

(** ** Audio stream controller: parsing, appending and track switching *)

Section AudioStreamBufferingFacts.
Import AudioStreamController AudioStreamBuffering.
Context {senv : StreamEnv} {lh : LevelHelper}.

Lemma run_core_same f c : f (core c) = Some (core c) -> run_core f c = Some c.
Proof.
  unfold run_core. intros ->. cbn [mbind option_bind].
  rewrite drop_all. cbn [map]. rewrite app_nil_r. destruct c; reflexivity.
Qed.

Lemma tick_parked now c : parked (state (core c)) = true -> tick now c = Some c.
Proof.
  intros H. apply run_core_same. unfold AudioStreamController.tick, doTick.
  destruct (state (core c)); try discriminate; reflexivity.
Qed.

Lemma tick_trace now c c' :
  tick now c = Some c' ->
  exists s', doTick now (core c) = Some s' /\ core c' = s'
    /\ trace c' = trace c ++ map Core (drop (length (events (core c))) (events s'))
    /\ appended c' = appended c /\ pendingBuffering c' = pendingBuffering c
    /\ pendingData c' = pendingData c /\ stats c' = stats c
    /\ waitingFragment c' = waitingFragment c /\ transmuxer c' = transmuxer c.
Proof.
  unfold tick, run_core, AudioStreamController.tick.
  destruct (doTick now (core c)) as [s' |]; cbn [mbind option_bind]; [| discriminate].
  intros [= <-]. exists s'. repeat split.
Qed.

Lemma untimed_core l : map untimed_signal (map Core l) = map Core l.
Proof. induction l as [| e l IH]; cbn; [| rewrite IH]; reflexivity. Qed.

Lemma untimed_tick now c1 c2 :
  untimed c1 = untimed c2 -> untimed <$> tick now c1 = untimed <$> tick now c2.
Proof.
  intros H. assert (Hc : core c1 = core c2) by (injection H; auto).
  unfold tick, run_core. rewrite Hc.
  destruct (AudioStreamController.tick now (core c2)) as [s |]; cbn; [| reflexivity].
  f_equal. unfold untimed in *. destruct c1, c2. cbn in *. rewrite !map_app.
  injection H as; subst. rewrite H7. reflexivity.
Qed.

(** X17: the end of the transmuxing and the sink's report that nothing is
    pending may come in either order.  From PARSING with data appended and
    awaited, the first of the two triggers nothing, and after the second
    the controller and its trace are the same in both orders but for the
    times in the statistics; with a current fragment the second triggers
    FRAG_BUFFERED for it, and both raise without loader statistics or, with
    a fragment, without a media element and a source buffer. *)
Theorem parsed_and_appended_in_either_order (now1 now2 : Q) (c : Controller) :
  state (core c) = PARSING -> appended c = true -> pendingBuffering c = true ->
  untimed <$> (c1 ← _handleTransmuxerFlush now1 c; onBufferAppended "audio" 0 now2 c1)
  = untimed <$> (c1 ← onBufferAppended "audio" 0 now1 c; _handleTransmuxerFlush now2 c1)
  /\ (forall c1, _handleTransmuxerFlush now1 c = Some c1 ->
        trace c1 = trace c /\ state (core c1) = PARSED)
  /\ (forall c1, onBufferAppended "audio" 0 now1 c = Some c1 ->
        trace c1 = trace c /\ state (core c1) = PARSING)
  /\ (forall frag c2,
        fragCurrent (core c) = Some frag ->
        (c1 ← _handleTransmuxerFlush now1 c; onBufferAppended "audio" 0 now2 c1) = Some c2 ->
        exists rest,
          trace c2
          = trace c ++ FRAG_BUFFERED (mkLoaderStats (Some now1) (Some now2)) frag "audio" :: rest).
Proof.
  intros Hst Happ Hpend.
  unfold _handleTransmuxerFlush, _endParsing, onBufferAppended.
  cbn [String.eqb Ascii.eqb Bool.eqb]. rewrite Hst. cbn [is_PARSING is_PARSED orb].
  change (0 <? 0) with false.
  assert (F1 : forall S, _checkAppendedParsed now1 (upd (set_state PARSED) (set_stats S c))
                         = Some (upd (set_state PARSED) (set_stats S c))).
  { intros S. unfold _checkAppendedParsed. cbn. rewrite Happ, Hpend. reflexivity. }
  assert (F2 : _checkAppendedParsed now1 (set_pendingBuffering false c)
               = Some (set_pendingBuffering false c)).
  { unfold _checkAppendedParsed. cbn. rewrite Hst. reflexivity. }
  rewrite F2. cbn [mbind option_bind]. 
  change (state (core (set_pendingBuffering false c))) with (state (core c)).
  rewrite Hst. cbn [is_PARSING].
  change (stats (set_pendingBuffering false c)) with (stats c).
  destruct (stats c) as [st |] eqn:Hstats; cbn [mbind option_bind].
  2: { split; [reflexivity |]. split; [discriminate |]. split; [| discriminate].
       intros c1 [= <-]. split; [reflexivity | exact Hst]. }
  rewrite F1. cbn [mbind option_bind].
  change (state (core (upd (set_state PARSED) ?x))) with PARSED.
  cbn [is_PARSING is_PARSED orb].
  unfold _checkAppendedParsed.
  cbn -[tick untimed fmap mbind]. rewrite Happ. cbn -[tick untimed fmap mbind].
  split; [| split; [| split]].
  - destruct (fragCurrent (core c)) as [frag |]; cbn [mbind option_bind].
    + destruct (if defined (mediaBuffer (core c)) then _ else _);
        cbn [mbind option_bind]; [| reflexivity].
      apply untimed_tick.
      destruct (audioSwitch (core c)); destruct c; unfold untimed; cbn;
        rewrite ?map_app; reflexivity.
    + apply untimed_tick. destruct c; reflexivity.
  - intros c1 [= <-]. split; reflexivity.
  - intros c1 [= <-]. split; [reflexivity | exact Hst].
  - intros frag c2 ->. cbn [mbind option_bind].
    destruct (if defined (mediaBuffer (core c)) then _ else _);
      cbn [mbind option_bind]; [| discriminate].
    intros Ht. apply tick_trace in Ht as (s' & _ & _ & -> & _).
    destruct (audioSwitch (core c)); cbn [andb].
    + eexists. cbn. rewrite <- !app_assoc. reflexivity.
    + eexists. cbn. rewrite <- !app_assoc. reflexivity.
Qed.

Lemma seek_switch t s s0 :
  seek t s = Some s0 -> audioSwitch s0 = audioSwitch s /\ trackId s0 = trackId s.
Proof.
  unfold seek. destruct (media s); cbn; [| discriminate]. intros [= <-]. auto.
Qed.

Lemma loadFragment_switch frag td sw s :
  audioSwitch (loadFragment frag td sw s) = audioSwitch s
  /\ trackId (loadFragment frag td sw s) = trackId s.
Proof.
  unfold loadFragment.
  destruct (frag_encrypted frag); [auto |]. cbv zeta.
  destruct (sw || _); destruct (frag_sn frag); cbn; auto.
  destruct (defined (initSegment td) || _); auto.
Qed.

Lemma switch_bufferEnd_switch sw td info pos start s r :
  switch_bufferEnd sw td info pos start s = Some r ->
  match r with
  | Done s0 | Go _ s0 => audioSwitch s0 = audioSwitch s /\ trackId s0 = trackId s
  end.
Proof.
  unfold switch_bufferEnd.
  destruct sw; [| intros [= <-]; auto].
  destruct (live td && negb (PTSKnown td)); [intros [= <-]; auto |].
  destruct (PTSKnown td && Qltb pos start); [| intros [= <-]; auto].
  destruct (Qltb start (bi_end info) || truthy_num (bi_nextStart info));
    [| intros [= <-]; auto].
  destruct (seek _ s) as [s0 |] eqn:Hseek; cbn; [| discriminate].
  intros [= <-]. eapply seek_switch; exact Hseek.
Qed.

Lemma chooseFragment_switch td info bufferEnd start end_ s r :
  chooseFragment td info bufferEnd start end_ s = Some r ->
  match r with
  | Done s0 | Go _ s0 => audioSwitch s0 = audioSwitch s /\ trackId s0 = trackId s
  end.
Proof.
  unfold chooseFragment.
  destruct (match initSegment td with Some i => negb (init_data i) | None => false end);
    [intros [= <-]; auto |].
  destruct (Qltb bufferEnd start).
  - destruct (head (fragments td)) as [frag |]; cbn [mbind option_bind]; [| discriminate].
    destruct (live td); [| intros [= <-]; auto].
    destruct (seek _ s) as [s0 |] eqn:Hseek; cbn; [| discriminate].
    intros [= <-]. eapply seek_switch; exact Hseek.
  - cbv zeta.
    destruct (if Qltb bufferEnd end_ then _ else _) as [frag |];
      [| intros [= <-]; auto].
    destruct (fragPrevious s) as [prev |]; [| intros [= <-]; auto].
    destruct (_ && _); [| intros [= <-]; auto].
    destruct (frag_sn frag) as [n |]; [| intros [= <-]; auto].
    destruct (n <? endSN td); [| intros [= <-]; auto].
    destruct (js_nth _ _); cbn; [| discriminate].
    intros [= <-]. auto.
Qed.

Lemma doTick_IDLE_switch s s' :
  doTick_IDLE s = Some s' ->
  audioSwitch s' = audioSwitch s /\ trackId s' = trackId s.
Proof.
  unfold doTick_IDLE.
  destruct (levels s) as [lvls |]; [| intros [= <-]; auto].
  destruct (negb (defined (media s)) && _); [intros [= <-]; auto |].
  destruct (if loadedmetadata s then _ else _) as [pos |];
    cbn [mbind option_bind]; [| discriminate].
  destruct pos as [pos |]; [| intros [= <-]; auto].
  destruct (js_nth lvls (trackId s)) as [levelInfo |]; [| intros [= <-]; auto].
  cbv zeta.
  destruct (Qltb _ _ || audioSwitch s); [| intros [= <-]; auto].
  destruct (details levelInfo) as [td |]; [| intros [= <-]; auto].
  destruct (negb (audioSwitch s) && _); [intros [= <-]; auto |].
  destruct (last (fragments td)) as [lastFrag |]; cbn [mbind option_bind]; [| discriminate].
  destruct (head (fragments td)) as [firstFrag |]; cbn [mbind option_bind]; [| discriminate].
  destruct (switch_bufferEnd _ _ _ _ _ s) as [r1 |] eqn:Hr1;
    cbn [mbind option_bind]; [| discriminate].
  apply switch_bufferEnd_switch in Hr1.
  destruct r1 as [s1 | bufferEnd s1]; [intros [= <-]; exact Hr1 |].
  destruct (chooseFragment _ _ _ _ _ s1) as [r2 |] eqn:Hr2;
    cbn [mbind option_bind]; [| discriminate].
  apply chooseFragment_switch in Hr2.
  destruct Hr1 as [Ha Hb].
  destruct r2 as [s2 | [frag |] s2]; intros [= <-].
  - destruct Hr2; split; congruence.
  - destruct Hr2, (loadFragment_switch frag td (audioSwitch s) s2); split; congruence.
  - destruct Hr2; split; congruence.
Qed.

(** X18: the init segment of an audio fragment.  In PARSING the handler
    announces the audio codec alone (never a video track) and leaves the
    loading state as it is.  Outside an audio switch it appends the init
    segment at once and records that an append is awaited; during an audio
    switch it keeps the segment as the only pending data, and the segment
    is appended when the buffer has been flushed, which ends in PARSED. *)
Theorem init_segment_waits_for_flush (tracks : InitTracks) (track : InitTrack)
    (bytes : list Z) (now : Q) (c : Controller) :
  state (core c) = PARSING ->
  t_audio tracks = Some track ->
  it_initSegment track = Some bytes ->
  let obj := mkAppendObj "audio" bytes "audio" "initSegment" in
  let codecs :=
    BUFFER_CODECS
      (mkInitTracks
         (Some (mkInitTrack (it_container track) (it_codec track)
                  (Some (it_codec track)) (Some "audio") (Some bytes)))
         None) in
  exists c1,
    _bufferInitSegment tracks now c = Some c1
    /\ core c1 = core c
    /\ if audioSwitch (core c)
       then trace c1 = trace c ++ [codecs]
            /\ pendingData c1 = Some [obj]
            /\ appended c1 = appended c
            /\ pendingBuffering c1 = pendingBuffering c
            /\ forall now',
                 exists c2,
                   onBufferFlushed now' c1 = Some c2
                   /\ trace c2 = trace c1 ++ [BUFFER_APPENDING obj]
                   /\ state (core c2) = PARSED
                   /\ appended c2 = true
                   /\ pendingData c2 = Some []
       else trace c1 = trace c ++ [codecs; BUFFER_APPENDING obj]
            /\ pendingData c1 = pendingData c
            /\ appended c1 = true
            /\ pendingBuffering c1 = true.
Proof.
  intros Hst Haudio Hinit obj codecs.
  unfold _bufferInitSegment. rewrite Hst, Haudio. cbn [is_PARSING it_initSegment].
  rewrite Hinit.
  change (audioSwitch (core (trigger ?e c))) with (audioSwitch (core c)).
  destruct (audioSwitch (core c)) eqn:Hsw.
  - rewrite tick_parked by (cbn; rewrite Hst; reflexivity).
    eexists. split; [reflexivity |]. split; [reflexivity |].
    split; [reflexivity |]. split; [reflexivity |]. split; [reflexivity |].
    split; [reflexivity |].
    intros now'. eexists. split; [reflexivity |].
    split; [reflexivity |]. split; [reflexivity |]. split; reflexivity.
  - rewrite tick_parked by (cbn; rewrite Hst; reflexivity).
    eexists. split; [reflexivity |]. split; [reflexivity |].
    split; [cbn; rewrite <- app_assoc; reflexivity |].
    split; [reflexivity |]. split; reflexivity.
Qed.


Lemma tick_from_idle now c c1 :
  state (core c) = IDLE ->
  tick now c = Some c1 ->
  audioSwitch (core c1) = audioSwitch (core c)
  /\ trackId (core c1) = trackId (core c)
  /\ waitingFragment c1 = waitingFragment c
  /\ transmuxer c1 = transmuxer c
  /\ exists s', core c1 = s' /\ TickOutcome (core c) s'
       /\ trace c1 = trace c ++ map Core (drop (length (events (core c))) (events s')).
Proof.
  intros Hidle Ht.
  apply tick_trace in Ht as (s' & Htick & Hcore & Htrace & _ & _ & _ & _ & Hw & Ht).
  unfold doTick in Htick. rewrite Hidle in Htick.
  pose proof (doTick_IDLE_switch _ _ Htick) as [Hsw Hid].
  pose proof (doTick_IDLE_outcome _ _ Hidle Htick) as Hout.
  rewrite Hcore. repeat (split; [assumption |]).
  exists s'. auto.
Qed.

(** X20: a switch to an alternate audio track (one with a URL) restarts
    the loading in IDLE with the switch pending: the controller takes the
    track and keeps the transmuxer, and the tick it runs triggers nothing,
    or the load of one key or of one fragment; it never signals the end of
    the stream, and the switch is still pending afterwards. *)
Theorem switch_to_alternate_audio (url : option string) (id : Z) (now : Q)
    (c c1 : Controller) :
  truthy_str url = true ->
  onAudioTrackSwitching url id now c = Some c1 ->
  audioSwitch (core c1) = true
  /\ trackId (core c1) = id
  /\ waitingFragment c1 = None
  /\ transmuxer c1 = transmuxer c
  /\ (trace c1 = trace c
      /\ (state (core c1) = IDLE \/ state (core c1) = WAITING_TRACK
          \/ state (core c1) = WAITING_INIT_PTS)
      \/ (exists frag,
            trace c1 = trace c ++ [Core (Ev_KEY_LOADING frag)]
            /\ state (core c1) = KEY_LOADING /\ frag_encrypted frag = true)
      \/ (exists frag,
            trace c1 = trace c ++ [Core (Ev_FRAG_LOADING frag)]
            /\ state (core c1) = FRAG_LOADING /\ frag_encrypted frag = false
            /\ fragCurrent (core c1) = Some frag)).
Proof.
  intros Hurl Ht. unfold onAudioTrackSwitching in Ht. rewrite Hurl in Ht.
  apply tick_from_idle in Ht as (Hsw & Hid & Hw & Ht & s' & Hcore & Hout & Htrace);
    [| reflexivity].
  split; [exact Hsw |]. split; [exact Hid |].
  split; [exact Hw |]. split; [exact Ht |].
  rewrite Htrace, Hcore.
  destruct Hout as [Hev Hstate | frag Hev Hstate Henc | frag Hev Hstate Henc Hcur
                   | Hev Hstate Hends].
  - left. rewrite Hev, drop_all. split; [apply app_nil_r | exact Hstate].
  - right. left. exists frag. rewrite Hev, drop_app_length. auto.
  - right. right. exists frag. rewrite Hev, drop_app_length. auto.
  - discriminate Hends.
Qed.

Lemma foldl_trigger objs c :
  foldl (fun c a => trigger (BUFFER_APPENDING a) c) c objs
  = set_trace (trace c ++ map BUFFER_APPENDING objs) c.
Proof.
  revert c. induction objs as [| a objs IH]; intros c; cbn [foldl map].
  - rewrite app_nil_r. destruct c; reflexivity.
  - rewrite IH. cbn. rewrite <- app_assoc. reflexivity.
Qed.

Lemma append_pending_parsing objs c :
  state (core c) = PARSING -> objs <> [] ->
  append_pending objs c
  = set_pendingBuffering true (set_trace (trace c ++ map BUFFER_APPENDING objs) c).
Proof.
  intros Hst Hne. unfold append_pending.
  assert (H : forall objs c, state (core c) = PARSING -> pendingBuffering c = true ->
            foldl (fun c a => if is_PARSING (state (core c))
                              then trigger (BUFFER_APPENDING a) (set_pendingBuffering true c)
                              else c) c objs
            = set_trace (trace c ++ map BUFFER_APPENDING objs) c).
  { clear. induction objs as [| a objs IH]; intros c Hst Hp; cbn [foldl map].
    - rewrite app_nil_r. destruct c; reflexivity.
    - rewrite Hst. cbn [is_PARSING]. rewrite IH by (cbn; auto).
      cbn. rewrite <- app_assoc. destruct c; cbn in *; subst; reflexivity. }
  destruct objs as [| a objs]; [contradiction |].
  cbn [foldl]. rewrite Hst. cbn [is_PARSING]. rewrite H by (cbn; auto).
  cbn. rewrite <- app_assoc. reflexivity.
Qed.

(** X21: the data of the first fragment of a new audio track.  In PARSING
    with a switch pending, the handler ends the switch and announces the
    track; the objects to append are those pending from before followed by
    the fragment's buffers that hold data.  When a media element is
    attached, has data (readyState is not 0) and plays at or after the start of the
    fragment, the audio buffer is flushed first: the objects stay pending
    in BUFFER_FLUSHING, and once the buffer is flushed they are appended in
    that order, which ends in PARSED.  Otherwise they are appended at once,
    in that order. *)
Theorem switched_track_data (data : RemuxedTrack) (now : Q) (c : Controller)
    (frag : Fragment) (lvls : list Track) (track : Track) (pend : list AppendObj) :
  state (core c) = PARSING ->
  audioSwitch (core c) = true ->
  fragCurrent (core c) = Some frag ->
  levels (core c) = Some lvls ->
  js_nth lvls (trackId (core c)) = Some track ->
  pendingData c = Some pend ->
  let objs := pend ++ data_objs data in
  let flush :=
    match media (core c) with
    | Some m => negb (readyState c =? 0) && Qle_bool (r_startPTS data) (currentTime m)
    | None => false
    end in
  exists c1,
    _bufferFragmentData data now c = Some c1
    /\ audioSwitch (core c1) = false
    /\ if flush
       then trace c1
            = trace c ++ [Core (Ev_BUFFER_FLUSHING 0 POSITIVE_INFINITY "audio");
                          AUDIO_TRACK_SWITCHED (trackId (core c))]
            /\ state (core c1) = BUFFER_FLUSHING
            /\ pendingData c1 = Some objs
            /\ appended c1 = appended c
            /\ (objs <> [] ->
                forall now',
                  exists c2,
                    onBufferFlushed now' c1 = Some c2
                    /\ trace c2 = trace c1 ++ map BUFFER_APPENDING objs
                    /\ state (core c2) = PARSED
                    /\ appended c2 = true
                    /\ pendingData c2 = Some [])
       else trace c1
            = trace c ++ AUDIO_TRACK_SWITCHED (trackId (core c))
                         :: map BUFFER_APPENDING objs
            /\ state (core c1) = PARSING
            /\ pendingData c1 = Some []
            /\ (objs <> [] -> appended c1 = true /\ pendingBuffering c1 = true).
Proof.
  intros Hst Hsw Hfrag Hlvls Htrack Hpend objs flush.
  unfold _bufferFragmentData.
  rewrite Hst, Hfrag, Hlvls, Hsw, Hpend. cbn [is_PARSING mbind option_bind].
  rewrite Htrack. cbn [mbind option_bind]. cbv zeta.
  cbn [core upd set_core media set_levels set_fragCurrent readyState andb].
  fold flush. fold objs.
  destruct flush eqn:Hflush.
  - cbn [audioSwitch core trigger set_trace upd set_core set_audioSwitch negb andb].
    rewrite tick_parked by reflexivity.
    eexists. split; [reflexivity |]. split; [reflexivity |].
    split; [cbn; rewrite <- app_assoc; reflexivity |].
    split; [reflexivity |]. split; [reflexivity |]. split; [reflexivity |].
    intros Hne now'. unfold onBufferFlushed.
    cbn [pendingData set_pendingData trigger set_trace upd set_core].
    destruct objs as [| a objs']; [contradiction |].
    rewrite foldl_trigger.
    eexists. split; [reflexivity |]. split; [reflexivity |].
    split; [reflexivity |]. split; reflexivity.
  - cbn [audioSwitch core trigger set_trace upd set_core set_audioSwitch negb andb].
    destruct objs as [| a objs'] eqn:Hobjs.
    + change (0 <? Z.of_nat (length (@nil AppendObj))) with false. cbv iota.
      rewrite tick_parked by (cbn; rewrite Hst; reflexivity).
      eexists. split; [reflexivity |]. split; [reflexivity |].
      split; [reflexivity |]. split; [exact Hst |]. split; [reflexivity |].
      intros Hne. contradiction.
    + change (0 <? Z.of_nat (length (a :: objs'))) with true. cbv iota.
      rewrite append_pending_parsing by (cbn; auto; discriminate).
      rewrite tick_parked by (cbn; rewrite Hst; reflexivity).
      eexists. split; [reflexivity |]. split; [reflexivity |].
      split; [cbn; rewrite <- app_assoc; reflexivity |].
      split; [exact Hst |]. split; [reflexivity |].
      intros _. split; reflexivity.
Qed.

End AudioStreamBufferingFacts.

Section AudioStreamBufferingExamples.
Import AudioStreamController AudioStreamBuffering.

(** The example controller with data appended and awaited: the end of
    the transmuxing at 1 ms and the report of the sink at 2 ms, and the
    two the other way round. *)
Lemma either_order_example :
  appended (example_controller false true) = true
  /\ untimed <$> (c1 ← @_handleTransmuxerFlush example_stream_env 1 (example_controller false true);
                  @onBufferAppended example_stream_env "audio" 0 2 c1)
     = untimed <$> (c1 ← @onBufferAppended example_stream_env "audio" 0 1
                           (example_controller false true);
                    @_handleTransmuxerFlush example_stream_env 2 c1).
Proof.
  split; [reflexivity |].
  apply (@parsed_and_appended_in_either_order example_stream_env 1 2
           (example_controller false true)); reflexivity.
Defined.

(** The init segment of the example during an audio switch: announced,
    kept pending, and appended once the buffer is flushed. *)
Lemma init_segment_example :
  exists c1 c2,
    @_bufferInitSegment example_stream_env example_init_tracks 0
      (example_controller true false) = Some c1
    /\ pendingData c1
       = Some [mkAppendObj "audio" [0; 0; 24] "audio" "initSegment"]
    /\ length (trace c1) = 1%nat
    /\ @onBufferFlushed example_stream_env 1 c1 = Some c2
    /\ trace c2
       = trace c1 ++ [BUFFER_APPENDING (mkAppendObj "audio" [0; 0; 24] "audio" "initSegment")].
Proof.
  destruct (@init_segment_waits_for_flush example_stream_env example_init_tracks
              (mkInitTrack "audio/mp4" "mp4a.40.2" None None (Some [0; 0; 24]))
              [0; 0; 24] 0 (example_controller true false) eq_refl eq_refl eq_refl)
    as (c1 & H1 & _ & Htrace & Hpend & _ & _ & Hflush).
  destruct (Hflush 1%Q) as (c2 & H2 & Htrace2 & _).
  exists c1, c2. split; [exact H1 |]. split; [exact Hpend |].
  split; [rewrite Htrace; reflexivity |]. split; [exact H2 | exact Htrace2].
Defined.


(** A switch of the example controller to its alternate track: the
    fragment at the load position is chosen, and the controller waits for
    the init PTS of its continuity counter. *)
Lemma alternate_audio_example :
  exists c1,
    @onAudioTrackSwitching example_stream_env (Some "audio.m3u8") 0 0
      (example_controller false true) = Some c1
    /\ audioSwitch (core c1) = true
    /\ state (core c1) = WAITING_INIT_PTS.
Proof.
  set (c1 := default (example_controller false true)
               (@onAudioTrackSwitching example_stream_env (Some "audio.m3u8") 0 0
                  (example_controller false true))).
  assert (H : @onAudioTrackSwitching example_stream_env (Some "audio.m3u8") 0 0
                (example_controller false true) = Some c1)
    by (vm_compute; reflexivity).
  exists c1. split; [exact H |].
  split; [| vm_compute; reflexivity].
  exact (proj1 (@switch_to_alternate_audio example_stream_env (Some "audio.m3u8") 0 0
                  (example_controller false true) c1 eq_refl H)).
Defined.

(** The data of the example fragment during an audio switch, the media
    element playing at 0, where the fragment starts: the buffer is
    flushed, and the data is appended afterwards. *)
Lemma switched_track_example :
  exists c1 c2,
    @_bufferFragmentData example_stream_env example_level_helper example_remuxed 0
      (example_controller true false) = Some c1
    /\ state (core c1) = BUFFER_FLUSHING
    /\ pendingData c1 = Some [mkAppendObj "audio" [1; 2] "audio" "data"]
    /\ @onBufferFlushed example_stream_env 1 c1 = Some c2
    /\ trace c2
       = [Core (Ev_BUFFER_FLUSHING 0 POSITIVE_INFINITY "audio"); AUDIO_TRACK_SWITCHED 0;
          BUFFER_APPENDING (mkAppendObj "audio" [1; 2] "audio" "data")].
Proof.
  destruct (@switched_track_data example_stream_env example_level_helper
              example_remuxed 0 (example_controller true false)
              (example_frag 1 1 10) [example_track] example_track []
              eq_refl eq_refl eq_refl eq_refl eq_refl eq_refl)
    as (c1 & H1 & _ & Htrace & Hst & Hpend & _ & Hflush).
  destruct (Hflush ltac:(discriminate) 1%Q) as (c2 & H2 & Htrace2 & _).
  exists c1, c2. split; [exact H1 |]. split; [exact Hst |]. split; [exact Hpend |].
  split; [exact H2 |]. rewrite Htrace2, Htrace. reflexivity.
Defined.

End AudioStreamBufferingExamples.

(** ** AAC demuxer: the frame index *)

Section AACDemuxerFrameIndex.
Import AACDemuxer.
Context {parsers : Parsers}.
Hypothesis initTrackConfig_samples :
  forall track data offset,
    samples (ADTS_initTrackConfig track data offset) = samples track.

Lemma demux_loop_counts fuel : forall data basePTS offset stamp ids s s',
  demux_loop fuel data basePTS offset stamp ids s = Returned s' ->
  exists new,
    samples (_audioTrack s') = samples (_audioTrack s) ++ new
    /\ frameIndex s' = frameIndex s + Z.of_nat (length new).
Proof.
  induction fuel as [| fuel IH]; intros data basePTS offset stamp ids s s';
    cbn [demux_loop]; [discriminate |].
  assert (Hnil : forall t, samples t = samples (_audioTrack s) ->
            exists new, samples t = samples (_audioTrack s) ++ new
                        /\ frameIndex s = frameIndex s + Z.of_nat (length new)).
  { intros t Ht. exists []. rewrite app_nil_r. cbn. split; [exact Ht | lia]. }
  destruct (offset <=? Z.of_nat (length data)); [| intros [= <-]; apply Hnil; reflexivity].
  destruct (ADTS_isHeader data offset && _ && _).
  - destruct (ADTS_appendFrame _ data offset basePTS (frameIndex s)) as [frame |].
    + intros Hloop. apply IH in Hloop as (new & Hs & Hi).
      cbn [_audioTrack frameIndex push_sample samples] in Hs, Hi.
      rewrite initTrackConfig_samples, <- app_assoc in Hs.
      exists (frame_sample frame :: new). split; [exact Hs |].
      rewrite Hi. cbn [length]. lia.
    + intros [= <-]. apply Hnil. apply initTrackConfig_samples.
  - destruct (ID3_isHeader data offset).
    + destruct (ID3_getID3Data data offset) as [id3Data |]; [| discriminate].
      intros Hloop. apply IH in Hloop. exact Hloop.
    + intros [= <-]. apply Hnil. reflexivity.
Qed.

Lemma demux_counts data timeOffset s s' :
  demux data timeOffset s = Returned s' ->
  exists new,
    samples (_audioTrack s') = samples (_audioTrack s) ++ new
    /\ frameIndex s' = frameIndex s + Z.of_nat (length new).
Proof.
  unfold demux. intros Hloop. apply demux_loop_counts in Hloop.
  destruct (0 <? Z.of_nat (length (cachedData s))); exact Hloop.
Qed.

(** X26: the frame index counts the samples.  When the parser that
    configures the track leaves its samples alone, the calls of [demux] on
    a run of chunks after a [flush] only add samples at the end of the
    track, and the frame index they leave is the number of samples added
    since the flush. *)
Theorem frame_index_counts_samples (chunks : list Bytes) (timeOffset : Q) (s s' : State) :
  demux_chunks chunks timeOffset (flush s) = Returned s' ->
  exists new,
    samples (_audioTrack s') = samples (_audioTrack s) ++ new
    /\ frameIndex s' = Z.of_nat (length new).
Proof.
  assert (H : forall chunks s s',
            demux_chunks chunks timeOffset s = Returned s' ->
            exists new,
              samples (_audioTrack s') = samples (_audioTrack s) ++ new
              /\ frameIndex s' = frameIndex s + Z.of_nat (length new)).
  { clear chunks s s'. induction chunks as [| c chunks IH]; intros s s'; cbn [demux_chunks].
    - intros [= <-]. exists []. rewrite app_nil_r. cbn. split; [reflexivity | lia].
    - destruct (demux c timeOffset s) as [s1 | |] eqn:Hc; try discriminate.
      intros Hrest. apply demux_counts in Hc as (new1 & Hs1 & Hi1).
      apply IH in Hrest as (new2 & Hs2 & Hi2).
      exists (new1 ++ new2). rewrite Hs2, Hs1, Hi2, Hi1, <- app_assoc, length_app.
      split; [reflexivity | lia]. }
  intros Hrun. apply H in Hrun as (new & Hs & Hi).
  exists new. split; [exact Hs |]. rewrite Hi. reflexivity.
Qed.

End AACDemuxerFrameIndex.

Section AACDemuxerMoreExamples.
Import AACDemuxer.
Local Existing Instance plain_parsers.

(** The two chunks of the stream of three frames after a flush: two
    samples, and frame index 2. *)
Lemma frame_index_example :
  exists s' new,
    demux_chunks [chunk_1; chunk_2] 0 (flush (init None)) = Returned s'
    /\ samples (_audioTrack s') = new
    /\ frameIndex s' = 2
    /\ length new = 2%nat.
Proof.
  set (s' := match demux_chunks [chunk_1; chunk_2] 0 (flush (init None)) with
             | Returned s' => s'
             | _ => init None
             end).
  assert (Hrun : demux_chunks [chunk_1; chunk_2] 0 (flush (init None)) = Returned s')
    by (vm_compute; reflexivity).
  destruct (@frame_index_counts_samples plain_parsers
              ltac:(intros track data offset; unfold plain_parsers, AACDemuxer.parsers;
                    cbn [ADTS_initTrackConfig]; unfold adts_initTrackConfig;
                    destruct (samplerate track); reflexivity)
              [chunk_1; chunk_2] 0 (init None) s' Hrun) as (new & Hs & Hi).
  exists s', new. split; [exact Hrun |]. split; [exact Hs |].
  assert (H2 : frameIndex s' = 2) by (vm_compute; reflexivity).
  split; [exact H2 |]. lia.
Defined.


End AACDemuxerMoreExamples.

(** ** Timeline controller: cue ranges and CEA-608 bytes *)

Section TimelineControllerFacts.
Import TimelineController.
Context {handler : CueHandler}.

Lemma Qle_bool_false x y : Qle_bool x y = false <-> (y < x)%Q.
Proof.
  split.
  - intros H. apply Qnot_le_lt. intros Hle. apply Qle_bool_iff in Hle. congruence.
  - intros H. destruct (Qle_bool x y) eqn:Hb; [| reflexivity].
    apply Qle_bool_iff in Hb. exfalso. apply (Qlt_not_le _ _ H). exact Hb.
Qed.

Lemma Qmin_left x y : (x <= y)%Q -> Qmin x y = x.
Proof.
  intros H. unfold Qmin, GenericMinMax.gmin.
  destruct (x ?= y)%Q eqn:Hc; try reflexivity.
  apply Qgt_alt in Hc. exfalso. apply (Qlt_not_le _ _ Hc). exact H.
Qed.

Lemma Qmax_left x y : (y <= x)%Q -> Qmax x y = x.
Proof.
  intros H. unfold Qmax, GenericMinMax.gmax.
  destruct (x ?= y)%Q eqn:Hc; try reflexivity.
  apply Qlt_alt in Hc. exfalso. apply (Qlt_not_le _ _ Hc). exact H.
Qed.

(** The overlap of a range that covers a cue is the duration of the cue. *)
Lemma intersection_covers startTime endTime r :
  (startTime <= endTime)%Q -> covers startTime endTime r ->
  (intersection (fst r) (snd r) startTime endTime == endTime - startTime)%Q.
Proof.
  intros Hd [H1 H2]. unfold intersection.
  rewrite (Q.min_r _ _ H2), (Q.max_r _ _ H1). reflexivity.
Qed.

Lemma covers_mostly startTime endTime r :
  (startTime < endTime)%Q -> covers startTime endTime r ->
  Qle_bool 0 (intersection (fst r) (snd r) startTime endTime) = true
  /\ mostly_overlaps (intersection (fst r) (snd r) startTime endTime) startTime endTime
     = true.
Proof.
  intros Hd Hc.
  pose proof (intersection_covers startTime endTime r (Qlt_le_weak _ _ Hd) Hc) as Hi.
  assert (Hpos : (0 < endTime - startTime)%Q).
  { apply (Qplus_lt_l _ _ startTime). ring_simplify. exact Hd. }
  split.
  - apply Qle_bool_iff. rewrite Hi. apply Qlt_le_weak. exact Hpos.
  - unfold mostly_overlaps.
    destruct (Qeq_bool (endTime - startTime) 0) eqn:Hz.
    + apply Qeq_bool_eq in Hz. rewrite Hz in Hpos. discriminate Hpos.
    + apply negb_true_iff, Qle_bool_false. rewrite Hi.
      assert (Hone : ((endTime - startTime) / (endTime - startTime) == 1)%Q).
      { apply Qmult_inv_r. intros Hz0. rewrite Hz0 in Hpos. discriminate Hpos. }
      rewrite Hone. reflexivity.
Qed.

Lemma covers_not_apart startTime endTime r :
  (startTime < endTime)%Q -> covers startTime endTime r -> apart startTime endTime r ->
  False.
Proof.
  intros Hd Hc Ha. destruct (covers_mostly _ _ _ Hd Hc) as [H _].
  unfold apart in Ha. congruence.
Qed.

Lemma extended_covers startTime endTime (r : Q * Q) :
  covers startTime endTime (Qmin (fst r) startTime, Qmax (snd r) endTime).
Proof. split; cbn [fst snd]; [apply Q.le_min_r | apply Q.le_max_r]. Qed.

Lemma settled_insert startTime endTime ranges i r :
  settled startTime endTime ranges (S i) -> covers startTime endTime r ->
  settled startTime endTime (<[i := r]> ranges) i.
Proof.
  intros Hs Hc k r' Hk Hr'.
  destruct (decide (k = i)) as [-> | Hne].
  - assert (Hlt : (i < length ranges)%nat).
    { apply lookup_lt_Some in Hr'. rewrite length_insert in Hr'. exact Hr'. }
    rewrite list_lookup_insert_eq in Hr' by exact Hlt.
    injection Hr' as <-. right. exact Hc.
  - rewrite list_lookup_insert_ne in Hr' by auto.
    apply (Hs k r'); [lia | exact Hr'].
Qed.

(** The loop leaves every range it visited covering the cue or apart from
    it, and tells by its flag whether one covers it. *)
Lemma merge_ranges_settles startTime endTime i : forall ranges merged ranges' res,
  (i <= length ranges)%nat ->
  settled startTime endTime ranges i ->
  (merged = true ->
   exists k r, (i <= k)%nat /\ ranges !! k = Some r /\ covers startTime endTime r) ->
  (merged = false ->
   forall k r, (i <= k)%nat -> ranges !! k = Some r -> apart startTime endTime r) ->
  merge_ranges i startTime endTime merged ranges = (ranges', res) ->
  match res with
  | None =>
      exists k r, ranges' !! k = Some r /\ covers startTime endTime r
                  /\ settled startTime endTime ranges' k
  | Some merged' =>
      settled startTime endTime ranges' 0
      /\ (merged' = true ->
          exists k r, ranges' !! k = Some r /\ covers startTime endTime r)
      /\ (merged' = false ->
          forall k r, ranges' !! k = Some r -> apart startTime endTime r)
  end.
Proof.
  induction i as [| i IH]; intros ranges merged ranges' res Hlen Hs Ht Hf;
    cbn [merge_ranges].
  - intros [= <- <-]. split; [exact Hs |]. split.
    + intros Hm. destruct (Ht Hm) as (k & r & _ & Hk & Hc). eauto.
    + intros Hm k r Hk. apply (Hf Hm k r); [lia | exact Hk].
  - destruct (ranges !! i) as [cueRange |] eqn:Hi.
    2: { apply lookup_ge_None in Hi. lia. }
    cbv zeta.
    destruct (Qle_bool 0 (intersection _ _ startTime endTime)) eqn:Hov.
    + pose proof (extended_covers startTime endTime cueRange) as Hc.
      pose proof (settled_insert _ _ _ _ _ Hs Hc) as Hs2.
      assert (Hlook : <[i := (Qmin (fst cueRange) startTime, Qmax (snd cueRange) endTime)]>
                        ranges !! i
                      = Some (Qmin (fst cueRange) startTime, Qmax (snd cueRange) endTime)).
      { apply list_lookup_insert_eq. apply lookup_lt_Some in Hi. exact Hi. }
      destruct (mostly_overlaps _ startTime endTime).
      * intros [= <- <-]. eauto.
      * apply IH; [rewrite length_insert; lia | exact Hs2 | | discriminate].
        intros _. eexists i, _. split; [lia |]. split; [exact Hlook | exact Hc].
    + apply IH.
      * lia.
      * intros k r Hk Hr. destruct (decide (k = i)) as [-> | Hne].
        -- left. rewrite Hi in Hr. injection Hr as <-. exact Hov.
        -- apply (Hs k r); [lia | exact Hr].
      * intros Hm. destruct (Ht Hm) as (k & r & Hk & Hr & Hc).
        exists k, r. split; [lia | auto].
      * intros Hm k r Hk Hr. destruct (decide (k = i)) as [-> | Hne].
        -- rewrite Hi in Hr. injection Hr as <-. exact Hov.
        -- apply (Hf Hm k r); [lia | exact Hr].
Qed.

(** Once a range covers a cue of positive duration and the ranges after
    it are settled, the loop returns at the last range that covers it and
    changes nothing. *)
Lemma merge_ranges_covered startTime endTime :
  (startTime < endTime)%Q ->
  forall i ranges merged j,
    (i <= length ranges)%nat ->
    (exists k r, (j <= k < i)%nat /\ ranges !! k = Some r /\ covers startTime endTime r) ->
    settled startTime endTime ranges j ->
    merge_ranges i startTime endTime merged ranges = (ranges, None).
Proof.
  intros Hd. induction i as [| i IH];
    intros ranges merged j Hlen (k & r & Hk & Hr & Hc) Hs.
  { lia. }
  cbn [merge_ranges].
  destruct (ranges !! i) as [cueRange |] eqn:Hi.
  2: { apply lookup_ge_None in Hi. lia. }
  cbv zeta.
  destruct (Hs i cueRange ltac:(lia) Hi) as [Ha | Hci].
  - unfold apart in Ha. rewrite Ha.
    apply (IH ranges merged j); [lia | | exact Hs].
    exists k, r. split; [| auto].
    destruct (decide (k = i)) as [-> | Hne]; [| lia].
    rewrite Hi in Hr. injection Hr as <-.
    exfalso. apply (covers_not_apart _ _ _ Hd Hc). exact Ha.
  - destruct (covers_mostly _ _ _ Hd Hci) as [H1 H2]. rewrite H1, H2.
    destruct Hci as [Hlo Hhi].
    rewrite (Qmin_left _ _ Hlo), (Qmax_left _ _ Hhi).
    rewrite list_insert_id; [reflexivity |].
    rewrite Hi. destruct cueRange. reflexivity.
Qed.

(** The loop returns from [addCues] exactly when one of the ranges it is
    to visit, as it was before the loop, overlaps more than half of the
    cue. *)
Lemma merge_ranges_returns startTime endTime i : forall ranges merged,
  (i <= length ranges)%nat ->
  snd (merge_ranges i startTime endTime merged ranges) = None
  <-> exists k r, (k < i)%nat /\ ranges !! k = Some r
                  /\ overlaps_most startTime endTime r = true.
Proof.
  induction i as [| i IH]; intros ranges merged Hlen; cbn [merge_ranges].
  { cbn. split; [discriminate | intros (k & r & Hk & _); lia]. }
  destruct (ranges !! i) as [cueRange |] eqn:Hi.
  2: { apply lookup_ge_None in Hi. lia. }
  cbv zeta.
  assert (Hstep : forall ranges2 merged2,
            length ranges2 = length ranges ->
            (forall k, k <> i -> ranges2 !! k = ranges !! k) ->
            overlaps_most startTime endTime cueRange = false ->
            snd (merge_ranges i startTime endTime merged2 ranges2) = None
            <-> exists k r, (k < S i)%nat /\ ranges !! k = Some r
                            /\ overlaps_most startTime endTime r = true).
  { intros ranges2 merged2 Hlen2 Hsame Hnot. rewrite IH by lia. split.
    - intros (k & r & Hk & Hr & Ho). exists k, r.
      rewrite Hsame in Hr by lia. split; [lia | auto].
    - intros (k & r & Hk & Hr & Ho).
      destruct (decide (k = i)) as [-> | Hne].
      + rewrite Hi in Hr. injection Hr as <-. congruence.
      + exists k, r. rewrite Hsame by exact Hne. split; [lia | auto]. }
  destruct (Qle_bool 0 (intersection _ _ startTime endTime)) eqn:Hov.
  - destruct (mostly_overlaps _ startTime endTime) eqn:Hmost.
    + cbn. split; [intros _ | reflexivity].
      exists i, cueRange. split; [lia |]. split; [exact Hi |].
      unfold overlaps_most. cbv zeta. rewrite Hov, Hmost. reflexivity.
    + apply Hstep.
      * apply length_insert.
      * intros k Hne. apply list_lookup_insert_ne. auto.
      * unfold overlaps_most. cbv zeta. rewrite Hov, Hmost. reflexivity.
  - apply Hstep; [reflexivity | reflexivity |].
    unfold overlaps_most. cbv zeta. rewrite Hov. reflexivity.
Qed.

(** The loop keeps the number of ranges and only widens them. *)
Lemma merge_ranges_widens startTime endTime i : forall ranges merged,
  length (fst (merge_ranges i startTime endTime merged ranges)) = length ranges
  /\ forall k r,
       ranges !! k = Some r ->
       exists r', fst (merge_ranges i startTime endTime merged ranges) !! k = Some r'
                  /\ (fst r' <= fst r)%Q /\ (snd r <= snd r')%Q.
Proof.
  induction i as [| i IH]; intros ranges merged; cbn [merge_ranges].
  { cbn. split; [reflexivity |]. intros k r Hr. exists r.
    split; [exact Hr |]. split; apply Qle_refl. }
  assert (Hid : length ranges = length ranges
                /\ forall k r, ranges !! k = Some r ->
                     exists r', ranges !! k = Some r'
                                /\ (fst r' <= fst r)%Q /\ (snd r <= snd r')%Q).
  { split; [reflexivity |]. intros k r Hr. exists r.
    split; [exact Hr |]. split; apply Qle_refl. }
  destruct (ranges !! i) as [cueRange |] eqn:Hi; [| exact Hid].
  cbv zeta.
  assert (Hins : length (<[i := (Qmin (fst cueRange) startTime,
                                 Qmax (snd cueRange) endTime)]> ranges) = length ranges
                 /\ forall k r, ranges !! k = Some r ->
                      exists r', <[i := (Qmin (fst cueRange) startTime,
                                         Qmax (snd cueRange) endTime)]> ranges !! k = Some r'
                                 /\ (fst r' <= fst r)%Q /\ (snd r <= snd r')%Q).
  { split; [apply length_insert |]. intros k r Hr.
    destruct (decide (k = i)) as [-> | Hne].
    - rewrite Hi in Hr. injection Hr as <-.
      eexists. split; [apply list_lookup_insert_eq; apply lookup_lt_Some in Hi; exact Hi |].
      cbn [fst snd]. split; [apply Q.le_min_l | apply Q.le_max_l].
    - exists r. rewrite list_lookup_insert_ne by auto.
      split; [exact Hr |]. split; apply Qle_refl. }
  destruct (Qle_bool 0 (intersection _ _ startTime endTime)); [| apply IH].
  destruct (mostly_overlaps _ startTime endTime); [exact Hins |].
  destruct Hins as [Hlen Hw]. destruct (IH (<[i := (Qmin (fst cueRange) startTime,
                                 Qmax (snd cueRange) endTime)]> ranges) true) as [Hlen2 Hw2].
  split; [congruence |].
  intros k r Hr. destruct (Hw k r Hr) as (r1 & Hr1 & Ha & Hb).
  destruct (Hw2 k r1 Hr1) as (r2 & Hr2 & Hc & Hd).
  exists r2. split; [exact Hr2 |]. split; eapply Qle_trans; eauto.
Qed.

Lemma merge_ranges_merged startTime endTime i : forall ranges,
  snd (merge_ranges i startTime endTime true ranges) <> Some false.
Proof.
  induction i as [| i IH]; intros ranges; cbn [merge_ranges]; [discriminate |].
  destruct (ranges !! i) as [cueRange |]; [| discriminate].
  cbv zeta. destruct (Qle_bool 0 _); [| apply IH].
  destruct (mostly_overlaps _ _ _); [discriminate | apply IH].
Qed.

(** A loop that merges nothing changes nothing. *)
Lemma merge_ranges_unmerged startTime endTime i : forall ranges,
  snd (merge_ranges i startTime endTime false ranges) = Some false ->
  fst (merge_ranges i startTime endTime false ranges) = ranges.
Proof.
  induction i as [| i IH]; intros ranges; cbn [merge_ranges]; [reflexivity |].
  destruct (ranges !! i) as [cueRange |]; [| reflexivity].
  cbv zeta. destruct (Qle_bool 0 _); [| apply IH].
  destruct (mostly_overlaps _ _ _); [discriminate |].
  intros H. exfalso. exact (merge_ranges_merged _ _ _ _ H).
Qed.

Lemma settled_end startTime endTime (ranges : list (Q * Q)) :
  settled startTime endTime ranges (length ranges).
Proof.
  intros k r Hk Hr. apply lookup_lt_Some in Hr. lia.
Qed.

(** Delivering the cues leaves the ranges alone. *)
Lemma addCues_delivers channel startTime endTime screen (s : State) :
  forall ranges s1,
    (let s := set_cueRanges ranges s in
     let cues := createCues startTime endTime screen in
     if renderNatively s then
       match cues with
       | [] => Some s
       | _ =>
           track ← textTracks s !! channel;
           Some (set_textTracks (<[channel := track ++ cues]> (textTracks s)) s)
       end
     else Some (trigger (CUES_PARSED cues channel) s)) = Some s1 ->
    cueRanges s1 = ranges.
Proof.
  intros ranges t. cbv zeta. cbn [renderNatively set_cueRanges textTracks].
  destruct (renderNatively s); [| intros [= <-]; reflexivity].
  destruct (createCues startTime endTime screen); [intros [= <-]; reflexivity |].
  destruct (textTracks s !! channel) as [track |]; cbn [mbind option_bind];
    [| intros Hnone; discriminate Hnone].
  intros [= <-]. reflexivity.
Qed.

(** What [addCues] leaves in the ranges: one of them covers the cue, and
    the ranges from that one on are settled. *)
Lemma addCues_settles channel startTime endTime screen (s s1 : State) :
  addCues channel startTime endTime screen s = Some s1 ->
  exists k r,
    cueRanges s1 !! k = Some r /\ covers startTime endTime r
    /\ settled startTime endTime (cueRanges s1) k.
Proof.
  unfold addCues.
  destruct (merge_ranges _ startTime endTime false (cueRanges s)) as [ranges' res] eqn:Hm.
  apply merge_ranges_settles in Hm;
    [| lia | apply settled_end | discriminate
     | intros _ k r Hk Hr; apply lookup_lt_Some in Hr; lia].
  pose proof (addCues_delivers channel startTime endTime screen s) as Hdeliver.
  destruct res as [[|] |].
  - intros Hs1. apply Hdeliver in Hs1. rewrite Hs1.
    destruct Hm as (Hs & Ht & _). destruct (Ht eq_refl) as (k & r & Hk & Hc).
    exists k, r. split; [exact Hk |]. split; [exact Hc |].
    intros k' r' _. apply Hs. lia.
  - intros Hs1. apply Hdeliver in Hs1. rewrite Hs1.
    exists (length ranges'), (startTime, endTime).
    split; [apply list_lookup_middle; reflexivity |].
    split; [split; apply Qle_refl |].
    intros k r Hk Hr.
    assert (Hkeq : k = length ranges').
    { apply lookup_lt_Some in Hr. rewrite length_app in Hr. cbn in Hr. lia. }
    subst k. rewrite list_lookup_middle in Hr by reflexivity.
    injection Hr as <-. right. split; apply Qle_refl.
  - intros [= <-]. exact Hm.
Qed.




End TimelineControllerFacts.

Section TimelineControllerBytes.
Import TimelineController.

Lemma land_127_bound x : 0 <= Z.land 127 x < 128.
Proof.
  rewrite Z.land_comm. change 127 with (Z.ones 7).
  rewrite Z.land_ones by lia. apply Z.mod_pos_bound. reflexivity.
Qed.

Lemma cea608_loop_pairs n : forall byteArray position acc,
  Forall (fun x => 0 <= x < 128) acc ->
  Forall (fun x => 0 <= x < 128) (cea608_loop n byteArray position acc)
  /\ exists k, (k <= n)%nat
       /\ length (cea608_loop n byteArray position acc) = (length acc + 2 * k)%nat.
Proof.
  induction n as [| n IH]; intros byteArray position acc Hacc; cbn [cea608_loop].
  { split; [exact Hacc |]. exists 0%nat. split; lia. }
  cbv zeta.
  assert (Hskip : Forall (fun x => 0 <= x < 128)
                    (cea608_loop n byteArray (position + 3) acc)
                  /\ exists k, (k <= S n)%nat
                       /\ length (cea608_loop n byteArray (position + 3) acc)
                          = (length acc + 2 * k)%nat).
  { destruct (IH byteArray (position + 3) acc Hacc) as [Hf (k & Hk & Hl)].
    split; [exact Hf |]. exists k. split; [lia | exact Hl]. }
  destruct (_ && _); [exact Hskip |].
  destruct (_ && _); [| exact Hskip].
  destruct (IH byteArray (position + 3)
              (acc ++ [Z.land 127 (and_operand byteArray (position + 1));
                       Z.land 127 (and_operand byteArray (position + 2))]))
    as [Hf (k & Hk & Hl)].
  { apply Forall_app. split; [exact Hacc |].
    repeat constructor; apply land_127_bound. }
  split; [exact Hf |]. exists (S k). split; [lia |].
  rewrite Hl, length_app. cbn [length]. lia.
Qed.


End TimelineControllerBytes.

Section TimelineControllerExamples.
Import TimelineController.




(** The example payload announces three pairs and yields the first. *)
Lemma cea608_example : extractCea608Data example_cc_bytes = [20; 44].
Proof. reflexivity. Qed.

End TimelineControllerExamples.
